(** * MaterialProcessor: a shallow embedding of material_processor.py

    The Python class [MaterialProcessor] builds shader node graphs for an
    imported material.  The host objects it works on (the node tree of the
    material, the image registry [bpy.data.images], the texture directory)
    are modelled as an explicit [scene] value threaded through a small
    state-and-exception monad: a Python exception stops the method but keeps
    every mutation made before it.

    Conventions of the model.
    - Strings are [string]; letters are folded as ASCII letters.
    - A node handle is the position of the node in [nodes]; [nodes.new]
      appends, nothing is ever removed.  An image handle is the position of
      the image in [images]; [bpy.data.images.load] appends.
    - The sockets of a node are given by its type tag through the host tables
      [sockets_in] and [sockets_out] (socket names in socket order).
    - A link into an input socket replaces the link already ending there
      (the host's connection limit of one link per input socket).
    - A file that [os.listdir] reported loads: [bpy.data.images.load]
      returns a datablock for it.
    - Handles kept in a scene point into it; a handle that does not reads as
      an object of no type, and dereferencing it raises ReferenceError.
    - Pixel channels and coordinates are binary64 values ([spec_float]),
      compared with the IEEE equality [SFeqb]. *)

From Stdlib Require Import ZArith Lia List String Ascii Bool.
From Stdlib Require Import Floats.SpecFloat.
From stdpp Require Import base option list strings.

Open Scope string_scope.
Open Scope list_scope.

(** ** Python string operations used by the module *)

Module PyStr.

(** [str.lower] on one character. *)
Definition lower_ascii (c : ascii) : ascii :=
  let n := nat_of_ascii c in
  if Nat.leb 65 n && Nat.leb n 90 then ascii_of_nat (n + 32) else c.

(** [s.lower()] *)
Fixpoint lower (s : string) : string :=
  match s with
  | EmptyString => EmptyString
  | String c s' => String (lower_ascii c) (lower s')
  end.

(** Does [s] start with the literal [pat], letter case ignored? *)
Fixpoint starts_with_ci (pat s : string) : bool :=
  match pat, s with
  | EmptyString, _ => true
  | String _ _, EmptyString => false
  | String p pat', String c s' =>
      Ascii.eqb (lower_ascii p) (lower_ascii c) && starts_with_ci pat' s'
  end.

(** [re.compile(re.escape(pat), re.IGNORECASE).search(s)]: the start of the
    leftmost match, [None] when there is none. *)
Fixpoint search_ci (pat s : string) : option nat :=
  if starts_with_ci pat s then Some 0
  else match s with
       | EmptyString => None
       | String _ s' => S <$> search_ci pat s'
       end.

(** [s[:n]] *)
Fixpoint take (n : nat) (s : string) : string :=
  match n, s with
  | S n', String c s' => String c (take n' s')
  | _, _ => EmptyString
  end.

(** [s[n:]] *)
Fixpoint drop (n : nat) (s : string) : string :=
  match n, s with
  | S n', String _ s' => drop n' s'
  | _, _ => s
  end.

(** [s.split('.')[0]] *)
Fixpoint split_dot_head (s : string) : string :=
  match s with
  | EmptyString => EmptyString
  | String c s' => if Ascii.eqb c "." then EmptyString else String c (split_dot_head s')
  end.

(** [s.startswith(p)] *)
Fixpoint startswith (p s : string) : bool :=
  match p, s with
  | EmptyString, _ => true
  | String _ _, EmptyString => false
  | String a p', String b s' => Ascii.eqb a b && startswith p' s'
  end.

(** [s.endswith('/')] *)
Fixpoint ends_with_slash (s : string) : bool :=
  match s with
  | EmptyString => false
  | String c EmptyString => Ascii.eqb c "/"
  | String _ s' => ends_with_slash s'
  end.

Fixpoint has_slash (s : string) : bool :=
  match s with
  | EmptyString => false
  | String c s' => Ascii.eqb c "/" || has_slash s'
  end.

(** [os.path.basename(p)]: what follows the last ['/']. *)
Fixpoint basename (p : string) : string :=
  match p with
  | EmptyString => EmptyString
  | String c p' =>
      if has_slash p' then basename p'
      else if Ascii.eqb c "/" then p' else p
  end.

(** [os.path.join(a, b)] *)
Definition path_join (a b : string) : string :=
  if startswith "/" b then b
  else if (String.eqb a "") || ends_with_slash a then a +:+ b
  else a +:+ "/" +:+ b.

(** Truth value of a string: non-empty. *)
Definition truthy (s : string) : bool :=
  match s with EmptyString => false | _ => true end.

End PyStr.

(** ** The host's objects *)

Definition float := spec_float.
Definition float_of_Z (z : Z) : float := binary_normalize 53 1024 z 0 false.
Definition fadd (x y : float) : float := SFadd 53 1024 x y.

(** An image datablock of [bpy.data.images]. *)
Record image := Image {
  filepath : string;
  colorspace : string;        (* colorspace_settings.name *)
  pixels : list float         (* flat channel buffer *)
}.

(** A socket of a node: which node, which position, which name. *)
Record socket := Socket {
  sock_node : nat;
  sock_index : nat;
  sock_name : string
}.

Record link := Link {
  from_socket : socket;
  to_socket : socket
}.

Definition from_node (l : link) : nat := sock_node (from_socket l).
Definition to_node (l : link) : nat := sock_node (to_socket l).

Inductive socket_value :=
| VFloat (x : float)
| VColor (r g b a : float).

Record node := Node {
  type : string;                              (* node.type *)
  node_image : option nat;                    (* node.image: a handle into images *)
  blend_type : option string;
  location : float * float;
  in_defaults : list (nat * socket_value);    (* inputs[i].default_value, as assigned *)
  out_defaults : list (nat * socket_value)    (* outputs[i].default_value, as assigned *)
}.

(** The material with its node tree, and the image registry. *)
Record scene := Scene {
  name : string;             (* material.name *)
  nodes : list node;         (* material.node_tree.nodes *)
  links : list link;         (* material.node_tree.links *)
  images : list image        (* bpy.data.images *)
}.

(** What the host and the file system answer; never written by the module. *)
Record host := Host {
  listdir : string -> option (list string);   (* os.listdir, None for OSError *)
  load_colorspace : string -> string;         (* colour space given to a loaded file *)
  load_pixels : string -> list float;         (* pixel buffer of a loaded file *)
  blend_dir : string;                         (* os.path.dirname(bpy.data.filepath) *)
  sockets_in : string -> list string;         (* names of node.inputs, by node type *)
  sockets_out : string -> list string         (* names of node.outputs, by node type *)
}.

(** The node classes the module instantiates, and the type tag of each. *)
Inductive node_class :=
| ShaderNodeTexImage | ShaderNodeNormalMap | ShaderNodeMixRGB | ShaderNodeRGB
| ShaderNodeBsdfTranslucent | ShaderNodeMixShader | ShaderNodeAddShader
| ShaderNodeOutputMaterial.

Definition type_of_class (c : node_class) : string :=
  match c with
  | ShaderNodeTexImage => "TEX_IMAGE"
  | ShaderNodeNormalMap => "NORMAL_MAP"
  | ShaderNodeMixRGB => "MIX_RGB"
  | ShaderNodeRGB => "RGB"
  | ShaderNodeBsdfTranslucent => "BSDF_TRANSLUCENT"
  | ShaderNodeMixShader => "MIX_SHADER"
  | ShaderNodeAddShader => "ADD_SHADER"
  | ShaderNodeOutputMaterial => "OUTPUT_MATERIAL"
  end.

(** [bpy.path.abspath(p)]: a path starting with ["//"] is relative to the
    directory of the blend file. *)
Definition abspath (h : host) (p : string) : string :=
  if PyStr.startswith "//" p then PyStr.path_join (blend_dir h) (PyStr.drop 2 p) else p.

(** The file name the module reads off an image. *)
Definition image_basename (h : host) (im : image) : string :=
  PyStr.basename (abspath h (filepath im)).

(** ** Construction: base name and principled node *)

Definition suffixes : list string := ["_alb"; "_emm"; "_emi"].

(** The inner loop of [_find_base_texture]: the first pattern, in the order
    of [suffixes], that matches decides the prefix. *)
Fixpoint match_suffixes (pats : list string) (basename : string) : option string :=
  match pats with
  | [] => None
  | pat :: pats' =>
      match PyStr.search_ci pat basename with
      | Some start => Some (PyStr.take start basename)
      | None => match_suffixes pats' basename
      end
  end.

(** [node.type == 'TEX_IMAGE' and node.image], with the image it holds. *)
Definition textured (sc : scene) (nd : node) : option image :=
  if String.eqb (type nd) "TEX_IMAGE" then
    match node_image nd with
    | Some i => images sc !! i
    | None => None
    end
  else None.

Fixpoint find_base_texture_from (h : host) (sc : scene) (nds : list node) : option string :=
  match nds with
  | [] => None
  | nd :: nds' =>
      match textured sc nd with
      | Some im =>
          match match_suffixes suffixes (image_basename h im) with
          | Some base => Some base
          | None => find_base_texture_from h sc nds'
          end
      | None => find_base_texture_from h sc nds'
      end
  end.

Definition _find_base_texture (h : host) (sc : scene) : option string :=
  find_base_texture_from h sc (nodes sc).

(** The material handle is a live host object, hence truthy. *)
Definition _find_base_from_material (sc : scene) : option string :=
  Some (PyStr.split_dot_head (name sc)).

(** [a or b] on optional strings: [a] when it is a non-empty string. *)
Definition py_or (a b : option string) : option string :=
  match a with
  | Some s => if PyStr.truthy s then a else b
  | None => b
  end.

Fixpoint find_type_from (ty : string) (i : nat) (nds : list node) : option nat :=
  match nds with
  | [] => None
  | nd :: nds' => if String.eqb (type nd) ty then Some i else find_type_from ty (S i) nds'
  end.

Definition _find_principled_node (sc : scene) : option nat :=
  find_type_from "BSDF_PRINCIPLED" 0 (nodes sc).

Record processor := Processor {
  file_path : string;
  base_name : option string;
  principled_node : option nat
}.

(** [MaterialProcessor.__init__] *)
Definition init (h : host) (sc : scene) (dir : string) : processor :=
  {| file_path := dir;
     base_name := py_or (_find_base_texture h sc) (_find_base_from_material sc);
     principled_node := _find_principled_node sc |}.

(** ** Exceptions and the state monad of the methods *)

Inductive exn :=
| AttributeError       (* attribute read on None *)
| UnboundLocalError    (* local variable read before any assignment *)
| KeyError             (* socket name not on the node *)
| IndexError           (* position out of range *)
| ReferenceError.      (* handle of an object the scene does not hold *)

Inductive result (A : Type) :=
| Ok (a : A)
| Raise (e : exn).
Arguments Ok {A} a.
Arguments Raise {A} e.

(** A method run: the outcome and the scene it leaves, also when it raises. *)
Definition M (A : Type) : Type := scene -> result A * scene.

Definition ret {A} (a : A) : M A := fun sc => (Ok a, sc).
Definition raise {A} (e : exn) : M A := fun sc => (Raise e, sc).
Definition bind {A B} (c : M A) (k : A -> M B) : M B :=
  fun sc => match c sc with
            | (Ok a, sc') => k a sc'
            | (Raise e, sc') => (Raise e, sc')
            end.
Definition lift {A} (r : result A) : M A := fun sc => (r, sc).
Definition get : M scene := fun sc => (Ok sc, sc).
Definition modify (f : scene -> scene) : M unit := fun sc => (Ok tt, f sc).

Notation "x <- c ;; k" := (bind c (fun x => k))
  (at level 100, c at next level, right associativity).
Notation "c ;; k" := (bind c (fun _ => k))
  (at level 100, right associativity).

(** *** Nodes and images *)

Definition fresh_node (c : node_class) : node :=
  {| type := type_of_class c; node_image := None; blend_type := None;
     location := (float_of_Z 0, float_of_Z 0);
     in_defaults := []; out_defaults := [] |}.

Definition with_nodes (f : list node -> list node) (sc : scene) : scene :=
  {| name := name sc; nodes := f (nodes sc); links := links sc; images := images sc |}.
Definition with_links (f : list link -> list link) (sc : scene) : scene :=
  {| name := name sc; nodes := nodes sc; links := f (links sc); images := images sc |}.
Definition with_images (f : list image -> list image) (sc : scene) : scene :=
  {| name := name sc; nodes := nodes sc; links := links sc; images := f (images sc) |}.

(** [node_tree.nodes.new(cls)]: the new node goes last; its handle is returned. *)
Definition nodes_new (c : node_class) : M nat :=
  fun sc => (Ok (length (nodes sc)), with_nodes (fun ns => ns ++ [fresh_node c]) sc).

(** [bpy.data.images.load(path)]: always a new datablock. *)
Definition images_load (h : host) (path : string) : M nat :=
  fun sc => (Ok (length (images sc)),
             with_images (fun ims => ims ++ [Image path (load_colorspace h path) (load_pixels h path)]) sc).

Definition read_node (n : nat) : M node :=
  fun sc => match nodes sc !! n with
            | Some nd => (Ok nd, sc)
            | None => (Raise ReferenceError, sc)
            end.

Definition read_image (i : nat) : M image :=
  fun sc => match images sc !! i with
            | Some im => (Ok im, sc)
            | None => (Raise ReferenceError, sc)
            end.

Definition update_node (n : nat) (f : node -> node) : M unit :=
  nd <- read_node n ;; modify (with_nodes (fun ns => <[n := f nd]> ns)).

Definition update_image (i : nat) (f : image -> image) : M unit :=
  im <- read_image i ;; modify (with_images (fun ims => <[i := f im]> ims)).

Definition set_image (n : nat) (i : nat) : M unit :=
  update_node n (fun nd => {| type := type nd; node_image := Some i; blend_type := blend_type nd;
                              location := location nd; in_defaults := in_defaults nd;
                              out_defaults := out_defaults nd |}).

Definition set_blend_type (n : nat) (b : string) : M unit :=
  update_node n (fun nd => {| type := type nd; node_image := node_image nd; blend_type := Some b;
                              location := location nd; in_defaults := in_defaults nd;
                              out_defaults := out_defaults nd |}).

Definition set_location (n : nat) (xy : float * float) : M unit :=
  update_node n (fun nd => {| type := type nd; node_image := node_image nd; blend_type := blend_type nd;
                              location := xy; in_defaults := in_defaults nd;
                              out_defaults := out_defaults nd |}).

Definition set_colorspace (i : nat) (cs : string) : M unit :=
  update_image i (fun im => {| filepath := filepath im; colorspace := cs; pixels := pixels im |}).

(** [node.image.<attr>]: the image handle of the node, AttributeError on None. *)
Definition image_of (n : nat) : M nat :=
  nd <- read_node n ;;
  match node_image nd with
  | Some i => ret i
  | None => raise AttributeError
  end.

(** *** Sockets and links *)

Inductive key :=
| ByName (s : string)
| ByIndex (i : nat).

Fixpoint index_of (s : string) (names : list string) (i : nat) : option nat :=
  match names with
  | [] => None
  | x :: names' => if String.eqb x s then Some i else index_of s names' (S i)
  end.

(** [collection[key]] on the sockets of node [n]. *)
Definition resolve (n : nat) (names : list string) (k : key) : result socket :=
  match k with
  | ByName s =>
      match index_of s names 0 with
      | Some i => Ok (Socket n i s)
      | None => Raise KeyError
      end
  | ByIndex i =>
      match names !! i with
      | Some s => Ok (Socket n i s)
      | None => Raise IndexError
      end
  end.

(** [node.inputs[k]] and [node.outputs[k]] *)
Definition inputs (h : host) (n : nat) (k : key) : M socket :=
  nd <- read_node n ;; lift (resolve n (sockets_in h (type nd)) k).
Definition outputs (h : host) (n : nat) (k : key) : M socket :=
  nd <- read_node n ;; lift (resolve n (sockets_out h (type nd)) k).

Definition same_socket (a b : socket) : bool :=
  Nat.eqb (sock_node a) (sock_node b) && Nat.eqb (sock_index a) (sock_index b).

(** The links after a new link from [o] to [i]: the link that ended at [i]
    is dropped, the new link goes last. *)
Definition relink (o i : socket) (ls : list link) : list link :=
  List.filter (fun l => negb (same_socket (to_socket l) i)) ls ++ [Link o i].

(** [node_tree.links.new(out, inp)] *)
Definition links_new (o i : socket) : M unit :=
  modify (with_links (relink o i)).

Definition set_in_default (s : socket) (v : socket_value) : M unit :=
  update_node (sock_node s)
    (fun nd => {| type := type nd; node_image := node_image nd; blend_type := blend_type nd;
                  location := location nd;
                  in_defaults := (sock_index s, v) :: in_defaults nd;
                  out_defaults := out_defaults nd |}).

Definition set_out_default (s : socket) (v : socket_value) : M unit :=
  update_node (sock_node s)
    (fun nd => {| type := type nd; node_image := node_image nd; blend_type := blend_type nd;
                  location := location nd;
                  in_defaults := in_defaults nd;
                  out_defaults := (sock_index s, v) :: out_defaults nd |}).

(** [self.principled_node.<attr>]: AttributeError when the cache holds None. *)
Definition principled (p : processor) : M nat :=
  match principled_node p with
  | Some n => ret n
  | None => raise AttributeError
  end.

(** [link.to_node == self.principled_node and link.to_socket.name == s] *)
Definition ends_at (p : processor) (s : string) (l : link) : bool :=
  match principled_node p with
  | Some n => Nat.eqb (to_node l) n && String.eqb (sock_name (to_socket l)) s
  | None => false
  end.

(** [socket.links]: the links ending at an input socket, in tree order. *)
Definition links_into (i : socket) (ls : list link) : list link :=
  List.filter (fun l => same_socket (to_socket l) i) ls.

Definition white : socket_value :=
  VColor (float_of_Z 1) (float_of_Z 1) (float_of_Z 1) (float_of_Z 1).
Definition one : socket_value := VFloat (float_of_Z 1).

(** ** The methods of MaterialProcessor *)

(** The f-string [f"{base}{sfx}.png"]; [None] prints as its name. *)
Definition expected_filename (base : option string) (sfx : string) : string :=
  match base with
  | Some b => b
  | None => "None"
  end +:+ sfx +:+ ".png".

(** The search loop of [find_texture_file] over the listed files. *)
Fixpoint find_file (dir_path expected : string) (files : list string) : option string :=
  match files with
  | [] => None
  | file :: files' =>
      if String.eqb (PyStr.lower file) (PyStr.lower expected)
      then Some (PyStr.path_join dir_path file)
      else find_file dir_path expected files'
  end.

Definition find_texture_file (h : host) (dir_path : string) (base : option string)
    (sfx : string) : option string :=
  match listdir h dir_path with
  | None => None
  | Some files => find_file dir_path (expected_filename base sfx) files
  end.

(** [import_texture(suffix, non_color)]: [None] stands for the returned [False]. *)
Definition import_texture (h : host) (p : processor) (suffix : string) (non_color : bool)
    : M (option nat) :=
  match find_texture_file h (file_path p) (base_name p) suffix with
  | None => ret None
  | Some texture_path =>
      if negb (PyStr.truthy texture_path) then ret None
      else
        tex_image_node <- nodes_new ShaderNodeTexImage ;;
        im <- images_load h texture_path ;;
        set_image tex_image_node im ;;
        (if non_color
         then (i <- image_of tex_image_node ;; set_colorspace i "Non-Color")
         else ret tt) ;;
        ret (Some tex_image_node)
  end.

(** [links.new(a.outputs[..], b.inputs[..])], arguments read left to right. *)
Definition connect (o i : M socket) : M unit :=
  a <- o ;; b <- i ;; links_new a b.

Definition link_texture_principled_node (h : host) (p : processor)
    (tex_image_node : option nat) (input_name : string) : M unit :=
  match tex_image_node with
  | None => ret tt
  | Some t =>
      connect (outputs h t (ByName "Color"))
              (pn <- principled p ;; inputs h pn (ByName input_name))
  end.

(** The loop of [import_normal]: every matching link rebinds the local
    [normal_map_node]; [None] is the local left unbound. *)
Definition normal_loop (p : processor) (ls : list link) : option nat :=
  fold_left (fun bound l => if ends_at p "Normal" l then Some (from_node l) else bound) ls None.

Definition import_normal (h : host) (p : processor) : M unit :=
  tex <- import_texture h p "_nrm" true ;;
  match tex with
  | None => ret tt
  | Some tex_image_node =>
      sc <- get ;;
      match normal_loop p (links sc) with
      | None =>
          (* [if not normal_map_node] reads a local that no statement bound *)
          raise UnboundLocalError
      | Some normal_map_node =>
          (* a node handle is truthy: [nodes.new('ShaderNodeNormalMap')] is skipped *)
          connect (outputs h tex_image_node (ByName "Color"))
                  (inputs h normal_map_node (ByName "Color")) ;;
          connect (outputs h normal_map_node (ByName "Normal"))
                  (pn <- principled p ;; inputs h pn (ByName "Normal"))
      end
  end.

(** [self.principled_node.location], read for the position of a new node. *)
Definition principled_location (p : processor) : M (float * float) :=
  pn <- principled p ;;
  nd <- read_node pn ;;
  ret (location nd).

(** A solid white [ShaderNodeRGB]; [place] computes its position from the
    position of the principled node. *)
Definition new_white_node (h : host) (p : processor)
    (place : float * float -> float * float) : M nat :=
  white_node <- nodes_new ShaderNodeRGB ;;
  o <- outputs h white_node (ByIndex 0) ;;
  set_out_default o white ;;
  xy <- principled_location p ;;
  set_location white_node (place xy) ;;
  ret white_node.

(** [(x, y + 200)], [(x + 200, y + 200)] and [(x + 100, y + 200)] *)
Definition above (xy : float * float) : float * float :=
  (fst xy, fadd (snd xy) (float_of_Z 200)).
Definition above_right (dx : Z) (xy : float * float) : float * float :=
  (fadd (fst xy) (float_of_Z dx), fadd (snd xy) (float_of_Z 200)).

Definition import_second_alb (h : host) (p : processor) : M unit :=
  pn <- principled p ;;
  base_color_input <- inputs h pn (ByName "Base Color") ;;
  sc <- get ;;
  let original_color_node :=
    match links_into base_color_input (links sc) with
    | l :: _ => Some (from_node l)
    | [] => None
    end in
  tcl_node <- import_texture h p "_tcl" true ;;
  after_tcl <-
    match tcl_node with
    | Some tcl =>
        mix_color_node <- nodes_new ShaderNodeMixRGB ;;
        set_blend_type mix_color_node "MIX" ;;
        white_node <- new_white_node h p above ;;
        match original_color_node with
        | Some orig => connect (outputs h orig (ByName "Color"))
                               (inputs h mix_color_node (ByIndex 1))
        | None => ret tt
        end ;;
        connect (outputs h tcl (ByName "Color")) (inputs h mix_color_node (ByIndex 0)) ;;
        connect (outputs h white_node (ByIndex 0)) (inputs h mix_color_node (ByIndex 2)) ;;
        connect (outputs h mix_color_node (ByName "Color"))
                (q <- principled p ;; inputs h q (ByName "Base Color")) ;;
        ret (Some mix_color_node, Some white_node)
    | None => ret (original_color_node, None)
    end ;;
  mai_node <- import_texture h p "_mai" true ;;
  match mai_node with
  | Some mai =>
      multiply_node <- nodes_new ShaderNodeMixRGB ;;
      set_blend_type multiply_node "MULTIPLY" ;;
      fac <- inputs h multiply_node (ByName "Fac") ;;
      set_in_default fac one ;;
      white_node <-
        match snd after_tcl with
        | Some w => ret w
        | None => new_white_node h p (above_right 200)
        end ;;
      match fst after_tcl with
      | Some orig => connect (outputs h orig (ByName "Color"))
                             (inputs h multiply_node (ByIndex 1))
      | None => ret tt
      end ;;
      connect (outputs h mai (ByName "Color")) (inputs h multiply_node (ByIndex 0)) ;;
      connect (outputs h white_node (ByIndex 0)) (inputs h multiply_node (ByIndex 2)) ;;
      connect (outputs h multiply_node (ByName "Color"))
              (q <- principled p ;; inputs h q (ByName "Base Color"))
  | None => ret tt
  end.

(** [node.type == ty] for the node behind a handle. *)
Definition has_type (sc : scene) (n : nat) (ty : string) : bool :=
  match nodes sc !! n with
  | Some nd => String.eqb (type nd) ty
  | None => false
  end.

(** The search of [import_second_shader] for the normal-map node feeding the
    principled node; the first match ends the loop. *)
Definition find_normal_map (p : processor) (sc : scene) : option nat :=
  from_node <$> List.find (fun l => ends_at p "Normal" l && has_type sc (from_node l) "NORMAL_MAP")
                          (links sc).

(** Lines 165-181: the multiply mix of the [_trm] texture with white, and
    the translucent BSDF coloured by it. *)
Definition translucent_setup (h : host) (p : processor) (trm : nat) : M nat :=
  mix_color_node <- nodes_new ShaderNodeMixRGB ;;
  set_blend_type mix_color_node "MULTIPLY" ;;
  fac <- inputs h mix_color_node (ByName "Fac") ;;
  set_in_default fac one ;;
  white_node <- new_white_node h p (above_right 100) ;;
  connect (outputs h trm (ByName "Color")) (inputs h mix_color_node (ByIndex 1)) ;;
  connect (outputs h white_node (ByIndex 0)) (inputs h mix_color_node (ByIndex 2)) ;;
  translucent_node <- nodes_new ShaderNodeBsdfTranslucent ;;
  connect (outputs h mix_color_node (ByName "Color"))
          (inputs h translucent_node (ByName "Color")) ;;
  ret translucent_node.

(** Lines 183-193: the normal map of the principled node, if any, also feeds
    the translucent BSDF. *)
Definition share_normal_map (h : host) (p : processor) (translucent_node : nat) : M unit :=
  sc <- get ;;
  match find_normal_map p sc with
  | Some normal_map_node =>
      connect (outputs h normal_map_node (ByName "Normal"))
              (inputs h translucent_node (ByName "Normal"))
  | None => ret tt
  end.

(** Lines 195-203: the mix shader over the translucent BSDF and the add
    shader over the principled BSDF and the mix shader. *)
Definition shader_sum (h : host) (p : processor) (translucent_node : nat) : M (nat * nat) :=
  mix_shader_node <- nodes_new ShaderNodeMixShader ;;
  fac <- inputs h mix_shader_node (ByName "Fac") ;;
  set_in_default fac one ;;
  connect (outputs h translucent_node (ByName "BSDF")) (inputs h mix_shader_node (ByIndex 1)) ;;
  add_shader_node <- nodes_new ShaderNodeAddShader ;;
  connect (pn <- principled p ;; outputs h pn (ByName "BSDF"))
          (inputs h add_shader_node (ByIndex 0)) ;;
  connect (outputs h mix_shader_node (ByName "Shader"))
          (inputs h add_shader_node (ByIndex 1)) ;;
  ret (mix_shader_node, add_shader_node).

(** Lines 205-213: the first material-output node of the tree, a new one
    when there is none. *)
Definition material_output : M nat :=
  sc <- get ;;
  match find_type_from "OUTPUT_MATERIAL" 0 (nodes sc) with
  | Some output_node => ret output_node
  | None => nodes_new ShaderNodeOutputMaterial
  end.

Definition import_second_shader (h : host) (p : processor) : M unit :=
  trm_node <- import_texture h p "_trm" false ;;
  thc_node <- import_texture h p "_thc" true ;;
  match trm_node with
  | None => ret tt
  | Some trm =>
      translucent_node <- translucent_setup h p trm ;;
      share_normal_map h p translucent_node ;;
      shaders <- shader_sum h p translucent_node ;;
      output_node <- material_output ;;
      connect (outputs h (snd shaders) (ByName "Shader"))
              (inputs h output_node (ByName "Surface")) ;;
      match thc_node with
      | Some thc => connect (outputs h thc (ByName "Color"))
                            (inputs h (fst shaders) (ByName "Fac"))
      | None => ret tt
      end
  end.

(** [r != g] on pixel channels. *)
Definition fneq (x y : float) : bool := negb (SFeqb x y).

(** The loop of [_is_grayscale_image] with [n] rounds left, at index [i]. *)
Fixpoint grayscale_loop (pixels : list float) (n i : nat) : result bool :=
  match n with
  | 0 => Ok true
  | S n' =>
      match pixels !! i, pixels !! (i + 1), pixels !! (i + 2) with
      | Some r, Some g, Some b =>
          if fneq r g || fneq g b || fneq b r then Ok false
          else grayscale_loop pixels n' (i + 4)
      | _, _, _ => Raise IndexError
      end
  end.

(** [len(range(0, n, 4))] *)
Definition range4_length (n : nat) : nat := (n + 3) / 4.

Definition _is_grayscale_image (im : image) : result bool :=
  grayscale_loop (pixels im) (range4_length (length (pixels im))) 0.

(** The link search that opens [import_emission]. *)
Definition find_emission_link (p : processor) (sc : scene) : option nat :=
  from_node <$> List.find (fun l => ends_at p "Emission Color" l
                                    && has_type sc (from_node l) "TEX_IMAGE")
                          (links sc).

(** Lines 235-247: the emission source, linked or imported. *)
Definition emission_source (h : host) (p : processor) : M (option nat) :=
  sc <- get ;;
  e1 <- match find_emission_link p sc with
        | Some n => ret (Some n)
        | None => import_texture h p "_emm" false
        end ;;
  match e1 with
  | Some n => ret (Some n)
  | None => import_texture h p "_emi" false
  end.

Definition import_emission (h : host) (p : processor) : M unit :=
  match principled_node p with
  | None => ret tt
  | Some _ =>
      emission_node <- emission_source h p ;;
      match emission_node with
      | None => ret tt
      | Some e =>
          nd <- read_node e ;;
          match node_image nd with
          | None => ret tt
          | Some i =>
              im <- read_image i ;;
              gray <- lift (_is_grayscale_image im) ;;
              (if gray then set_colorspace i "Non-Color" else ret tt) ;;
              mix_node <- nodes_new ShaderNodeMixRGB ;;
              set_blend_type mix_node "MULTIPLY" ;;
              fac <- inputs h mix_node (ByName "Fac") ;;
              set_in_default fac one ;;
              pn <- principled p ;;
              base_color_input <- inputs h pn (ByName "Base Color") ;;
              sc <- get ;;
              match links_into base_color_input (links sc) with
              | l :: _ => connect (outputs h (from_node l) (ByName "Color"))
                                  (inputs h mix_node (ByIndex 1))
              | [] => ret tt
              end ;;
              connect (outputs h e (ByName "Color")) (inputs h mix_node (ByIndex 2)) ;;
              connect (outputs h mix_node (ByName "Color"))
                      (q <- principled p ;; inputs h q (ByName "Emission Color"))
          end
      end
  end.

(** ** Reading the outcome of a run *)

Definition outcome {A} (r : result A * scene) : result A := fst r.
Definition final {A} (r : result A * scene) : scene := snd r.

(** The scene after a texture file was imported: one more image, one more
    image-texture node holding it. *)
Definition loaded_image (h : host) (path : string) (non_color : bool) : image :=
  {| filepath := path;
     colorspace := if non_color then "Non-Color" else load_colorspace h path;
     pixels := load_pixels h path |}.

Definition texture_node (i : nat) : node :=
  {| type := "TEX_IMAGE"; node_image := Some i; blend_type := None;
     location := (float_of_Z 0, float_of_Z 0); in_defaults := []; out_defaults := [] |}.

Definition with_texture (h : host) (path : string) (non_color : bool) (sc : scene) : scene :=
  {| name := name sc;
     nodes := nodes sc ++ [texture_node (length (images sc))];
     links := links sc;
     images := images sc ++ [loaded_image h path non_color] |}.

(** No file of the directory answers to the expected name, or the directory
    cannot be listed. *)
Definition texture_absent (h : host) (p : processor) (suffix : string) : Prop :=
  listdir h (file_path p) = None \/
  exists files, listdir h (file_path p) = Some files /\
    forall file, In file files ->
      PyStr.lower file <> PyStr.lower (expected_filename (base_name p) suffix).

(** Two channel values are equal numbers: IEEE equality spelt out. *)
Definition same_number (x y : float) : Prop :=
  match x, y with
  | S754_zero _, S754_zero _ => True
  | S754_infinity a, S754_infinity b => a = b
  | S754_finite s m e, S754_finite s' m' e' => s = s' /\ m = m' /\ e = e'
  | _, _ => False
  end.

(** A run that leaves the image registry as it found it. *)
Definition keeps_images {A} (c : M A) : Prop :=
  forall sc, images (snd (c sc)) = images sc.

(** The host gives the nodes of the shader recipe the sockets the module
    addresses on them. *)
Record shader_sockets (h : host) : Prop := {
  tex_image_color : In "Color" (sockets_out h "TEX_IMAGE");
  mix_rgb_fac : In "Fac" (sockets_in h "MIX_RGB");
  mix_rgb_inputs : 3 <= length (sockets_in h "MIX_RGB");
  mix_rgb_color : In "Color" (sockets_out h "MIX_RGB");
  rgb_output : 1 <= length (sockets_out h "RGB");
  translucent_color : In "Color" (sockets_in h "BSDF_TRANSLUCENT");
  translucent_normal : In "Normal" (sockets_in h "BSDF_TRANSLUCENT");
  translucent_bsdf : In "BSDF" (sockets_out h "BSDF_TRANSLUCENT");
  normal_map_normal : In "Normal" (sockets_out h "NORMAL_MAP");
  mix_shader_fac : In "Fac" (sockets_in h "MIX_SHADER");
  mix_shader_inputs : 2 <= length (sockets_in h "MIX_SHADER");
  mix_shader_shader : In "Shader" (sockets_out h "MIX_SHADER");
  add_shader_inputs : 2 <= length (sockets_in h "ADD_SHADER");
  add_shader_shader : In "Shader" (sockets_out h "ADD_SHADER");
  output_surface : In "Surface" (sockets_in h "OUTPUT_MATERIAL");
  principled_bsdf : In "BSDF" (sockets_out h "BSDF_PRINCIPLED")
}.

(** In scene [sc], the input [dst.inputs[ik]] is fed by the single link that
    comes from [src.outputs[ok]]. *)
Definition drives (h : host) (sc : scene) (src : nat) (ok : key) (dst : nat) (ik : key)
    : Prop :=
  exists o i,
    outputs h src ok sc = (Ok o, sc) /\
    inputs h dst ik sc = (Ok i, sc) /\
    links_into i (links sc) = [Link o i].

(** Run [c] from [s]: it returns normally, and the value and the scene it
    leaves satisfy [Q]. *)
Definition runs {A} (c : M A) (s : scene) (Q : A -> scene -> Prop) : Prop :=
  exists a s', c s = (Ok a, s') /\ Q a s'.

(** From [s] to [s']: the nodes of [s] are all there, unchanged, followed
    by new nodes of types [tys]; the images are as they were. *)
Definition grows_by (s s' : scene) (tys : list string) : Prop :=
  name s' = name s /\ images s' = images s /\
  exists new, nodes s' = nodes s ++ new /\ map type new = tys.

(** [pat] occurs in [s] at position [i], letter case aside. *)
Definition occurs_at (pat s : string) (i : nat) : Prop :=
  i <= String.length s /\
  exists m rest, PyStr.drop i s = m +:+ rest /\ PyStr.lower m = PyStr.lower pat.

Definition contains_ci (pat s : string) : Prop := exists i, occurs_at pat s i.

(** The leftmost occurrence of [pat] in [s] is at position [i]. *)
Definition leftmost (pat s : string) (i : nat) : Prop :=
  occurs_at pat s i /\ forall j, j < i -> ~ occurs_at pat s j.

(** The file name carries one of the three recognised suffixes. *)
Definition recognised (s : string) : Prop :=
  exists sfx, In sfx suffixes /\ contains_ci sfx s.

(** [b] is [s] cut at its first ['.']. *)
Definition cut_at_dot (s b : string) : Prop :=
  (forall i, String.get i b <> Some "."%char) /\
  (s = b \/ exists rest, s = b +:+ "." +:+ rest).

(** The pixel that starts at index [4 * k] has equal red, green and blue. *)
Definition grey_pixel (px : list float) (k : nat) : Prop :=
  exists r g b,
    px !! (4 * k) = Some r /\ px !! (4 * k + 1) = Some g /\ px !! (4 * k + 2) = Some b /\
    SFeqb r g = true /\ SFeqb g b = true.

Definition all_grey (px : list float) : Prop :=
  forall k, 4 * k < length px -> grey_pixel px k.

Definition mark_non_color (im : image) : image :=
  {| filepath := filepath im; colorspace := "Non-Color"; pixels := pixels im |}.

(** ** A sample host and sample scenes *)

Module Sample.

Definition table_in (ty : string) : list string :=
  if String.eqb ty "BSDF_PRINCIPLED"
  then ["Base Color"; "Metallic"; "Roughness"; "IOR"; "Alpha"; "Normal"; "Emission Color"]
  else if String.eqb ty "TEX_IMAGE" then ["Vector"]
  else if String.eqb ty "NORMAL_MAP" then ["Strength"; "Color"]
  else if String.eqb ty "MIX_RGB" then ["Fac"; "Color1"; "Color2"]
  else if String.eqb ty "BSDF_TRANSLUCENT" then ["Color"; "Normal"]
  else if String.eqb ty "MIX_SHADER" then ["Fac"; "Shader"; "Shader"]
  else if String.eqb ty "ADD_SHADER" then ["Shader"; "Shader"]
  else if String.eqb ty "OUTPUT_MATERIAL" then ["Surface"; "Volume"; "Displacement"]
  else [].

Definition table_out (ty : string) : list string :=
  if String.eqb ty "BSDF_PRINCIPLED" then ["BSDF"]
  else if String.eqb ty "TEX_IMAGE" then ["Color"; "Alpha"]
  else if String.eqb ty "NORMAL_MAP" then ["Normal"]
  else if String.eqb ty "MIX_RGB" then ["Color"]
  else if String.eqb ty "RGB" then ["Color"]
  else if String.eqb ty "BSDF_TRANSLUCENT" then ["BSDF"]
  else if String.eqb ty "MIX_SHADER" then ["Shader"]
  else if String.eqb ty "ADD_SHADER" then ["Shader"]
  else [].

Definition f0 : float := float_of_Z 0.
Definition f1 : float := float_of_Z 1.

(** One grey pixel followed by one red pixel, and two grey pixels. *)
Definition colour_pixels : list float := [f1; f1; f1; f1; f1; f0; f0; f1].
Definition grey_pixels : list float := [f1; f1; f1; f1; f0; f0; f0; f1].

(** A host whose texture directory lists [files]; a loaded file is sRGB and
    its pixels are grey exactly when its name starts with ["/tex/Grey"]. *)
Definition the_host (files : option (list string)) : host :=
  {| listdir := fun _ => files;
     load_colorspace := fun _ => "sRGB";
     load_pixels := fun path => if PyStr.startswith "/tex/Grey" path
                                then grey_pixels else colour_pixels;
     blend_dir := "/proj";
     sockets_in := table_in;
     sockets_out := table_out |}.

Definition plain (ty : string) : node :=
  {| type := ty; node_image := None; blend_type := None;
     location := (f0, f0); in_defaults := []; out_defaults := [] |}.

Definition holding (i : nat) : node := texture_node i.

(** A material with a principled node alone. *)
Definition bare : scene :=
  {| name := "Char.001"; nodes := [plain "BSDF_PRINCIPLED"]; links := []; images := [] |}.

(** A material with no principled node at all. *)
Definition unshaded : scene :=
  {| name := "Char.001"; nodes := [plain "OUTPUT_MATERIAL"; plain "TEX_IMAGE"];
     links := []; images := [] |}.

(** A material whose first texture is an emission map and whose second is
    the albedo of another texture set. *)
Definition two_textures : scene :=
  {| name := "Body";
     nodes := [plain "BSDF_PRINCIPLED"; holding 0; holding 1];
     links := [];
     images := [Image "//tex/Foo_emm.png" "sRGB" colour_pixels;
                Image "/abs/Bar_ALB.png" "sRGB" colour_pixels] |}.

(** A material whose only texture file is named [_alb.png]. *)
Definition unnamed_albedo : scene :=
  {| name := "Body.002";
     nodes := [plain "BSDF_PRINCIPLED"; holding 0];
     links := [];
     images := [Image "/abs/_alb.png" "sRGB" colour_pixels] |}.

(** A material with an albedo texture wired into Base Color. *)
Definition with_albedo : scene :=
  {| name := "Mat.003";
     nodes := [plain "BSDF_PRINCIPLED"; holding 0];
     links := [Link (Socket 1 0 "Color") (Socket 0 0 "Base Color")];
     images := [Image "//textures/Char_Alb.png" "sRGB" colour_pixels] |}.

(** A material whose Emission Color input is fed by an image-texture node
    that holds no image. *)
Definition empty_emission : scene :=
  {| name := "Char";
     nodes := [plain "BSDF_PRINCIPLED"; plain "TEX_IMAGE"];
     links := [Link (Socket 1 0 "Color") (Socket 0 6 "Emission Color")];
     images := [] |}.

(** A material whose Emission Color input is fed by a texture holding
    image [0]. *)
Definition lit (px : list float) : scene :=
  {| name := "Char";
     nodes := [plain "BSDF_PRINCIPLED"; holding 0];
     links := [Link (Socket 1 0 "Color") (Socket 0 6 "Emission Color")];
     images := [Image "/tex/Char_emm.png" "sRGB" px] |}.

End Sample.

(** ** Further vocabulary for the properties of the methods *)

(** [file] is the first of [files] that answers to [expected], letter case
    aside. *)
Definition first_match (expected : string) (files : list string) (file : string) : Prop :=
  exists before after,
    files = before ++ file :: after /\
    PyStr.lower file = PyStr.lower expected /\
    forall f, In f before -> PyStr.lower f <> PyStr.lower expected.

(** The nodes of [s0] are all in [s], unchanged and at their places,
    followed by nodes that are no principled BSDF; the material kept its
    name. *)
Definition node_prefix (s0 s : scene) : Prop :=
  name s = name s0 /\
  exists new, nodes s = nodes s0 ++ new /\
              Forall (fun nd => type nd <> "BSDF_PRINCIPLED") new.

(** A step that keeps the node tree growing from [s0], whatever its
    outcome, and whose value, when it returns one, satisfies [P]. *)
Definition framed {A} (s0 : scene) (c : M A) (P : A -> Prop) : Prop :=
  forall s, node_prefix s0 s ->
    node_prefix s0 (snd (c s)) /\ forall a, fst (c s) = Ok a -> P a.


(** A run that leaves the node list as it found it. *)
Definition keeps_nodes {A} (c : M A) : Prop :=
  forall sc, nodes (snd (c sc)) = nodes sc.

(** Two pixel buffers that differ at most in their alpha channels. *)
Definition same_rgb (px px' : list float) : Prop :=
  length px = length px' /\
  forall i, i mod 4 <> 3 -> px !! i = px' !! i.

(** The pixel that starts at index [4 * k] is wholly in the buffer. *)
Definition whole_pixel (px : list float) (k : nat) : Prop := 4 * k + 2 < length px.


(** The host gives the nodes of the emission recipe, and of the secondary
    albedo recipe, the sockets the module addresses on them. *)
Record colour_sockets (h : host) : Prop := {
  cs_tex_color : In "Color" (sockets_out h "TEX_IMAGE");
  cs_mix_fac : In "Fac" (sockets_in h "MIX_RGB");
  cs_mix_inputs : 3 <= length (sockets_in h "MIX_RGB");
  cs_mix_color : In "Color" (sockets_out h "MIX_RGB");
  cs_rgb_output : 1 <= length (sockets_out h "RGB");
  cs_base_color : In "Base Color" (sockets_in h "BSDF_PRINCIPLED");
  cs_emission_color : In "Emission Color" (sockets_in h "BSDF_PRINCIPLED")
}.

(** In [sc], the node feeding [dst.inputs[ik]], if there is one, has a Color
    output. *)
Definition source_has_color (h : host) (sc : scene) (dst : nat) (ik : key) : Prop :=
  forall i l ls,
    inputs h dst ik sc = (Ok i, sc) ->
    links_into i (links sc) = l :: ls ->
    exists ty, has_type sc (from_node l) ty = true /\ In "Color" (sockets_out h ty).

(** The MULTIPLY mix node of the emission recipe, its factor set to 1.0 at
    input [fac]. *)
Definition multiply_node (fac : nat) : node :=
  {| type := "MIX_RGB"; node_image := None; blend_type := Some "MULTIPLY";
     location := (float_of_Z 0, float_of_Z 0);
     in_defaults := [(fac, one)]; out_defaults := [] |}.

(** Lines 111-128 of [import_second_alb]: the MIX node that blends the
    colour source with white by the [_tcl] texture.  The value is the new
    colour source and the white node, for the [_mai] block. *)
Definition tcl_mix (h : host) (p : processor) (original_color_node : option nat)
    (tcl : nat) : M (option nat * option nat) :=
  mix_color_node <- nodes_new ShaderNodeMixRGB ;;
  set_blend_type mix_color_node "MIX" ;;
  white_node <- new_white_node h p above ;;
  match original_color_node with
  | Some orig => connect (outputs h orig (ByName "Color"))
                         (inputs h mix_color_node (ByIndex 1))
  | None => ret tt
  end ;;
  connect (outputs h tcl (ByName "Color")) (inputs h mix_color_node (ByIndex 0)) ;;
  connect (outputs h white_node (ByIndex 0)) (inputs h mix_color_node (ByIndex 2)) ;;
  connect (outputs h mix_color_node (ByName "Color"))
          (q <- principled p ;; inputs h q (ByName "Base Color")) ;;
  ret (Some mix_color_node, Some white_node).

(** Lines 133-149 of [import_second_alb]: the MULTIPLY node of the [_mai]
    texture; [after_tcl] is the colour source and the white node the [_tcl]
    block left. *)
Definition mai_multiply (h : host) (p : processor) (after_tcl : option nat * option nat)
    (mai : nat) : M unit :=
  multiply_node <- nodes_new ShaderNodeMixRGB ;;
  set_blend_type multiply_node "MULTIPLY" ;;
  fac <- inputs h multiply_node (ByName "Fac") ;;
  set_in_default fac one ;;
  white_node <-
    match snd after_tcl with
    | Some w => ret w
    | None => new_white_node h p (above_right 200)
    end ;;
  match fst after_tcl with
  | Some orig => connect (outputs h orig (ByName "Color"))
                         (inputs h multiply_node (ByIndex 1))
  | None => ret tt
  end ;;
  connect (outputs h mai (ByName "Color")) (inputs h multiply_node (ByIndex 0)) ;;
  connect (outputs h white_node (ByIndex 0)) (inputs h multiply_node (ByIndex 2)) ;;
  connect (outputs h multiply_node (ByName "Color"))
          (q <- principled p ;; inputs h q (ByName "Base Color")).

(** The MIX node of the [_tcl] block as the block leaves it. *)
Definition tcl_mix_node : node :=
  {| type := "MIX_RGB"; node_image := None; blend_type := Some "MIX";
     location := (float_of_Z 0, float_of_Z 0);
     in_defaults := []; out_defaults := [] |}.

(** The solid white RGB node, placed at [xy]. *)
Definition white_node_at (xy : float * float) : node :=
  {| type := "RGB"; node_image := None; blend_type := None;
     location := xy;
     in_defaults := []; out_defaults := [(0, white)] |}.

(** The colour source of the principled node: the node behind the first
    link into its Base Color input. *)
Definition colour_source (i : socket) (sc : scene) : option nat :=
  match links_into i (links sc) with
  | l :: _ => Some (from_node l)
  | [] => None
  end.

(** No link into the Emission Color input of the principled node comes from
    an image-texture node. *)
Definition no_emission_texture (p : processor) (sc : scene) : Prop :=
  forall l, In l (links sc) -> ends_at p "Emission Color" l = true ->
            has_type sc (from_node l) "TEX_IMAGE" = false.

(** Run [c] from [s]: its outcome, a value or an exception, and the scene
    it leaves satisfy [Q]. *)
Definition ends {A} (c : M A) (s : scene) (Q : result A -> scene -> Prop) : Prop :=
  Q (fst (c s)) (snd (c s)).

(** More sample scenes. *)
Module Sample2.

(** A material whose Base Color input is fed by a node with no Color
    output. *)
Definition odd_source : scene :=
  {| name := "Char";
     nodes := [Sample.plain "BSDF_PRINCIPLED"; Sample.plain "NORMAL_MAP"];
     links := [Link (Socket 1 0 "Normal") (Socket 0 0 "Base Color")];
     images := [] |}.

(** A material whose Normal input is fed by a normal-map node. *)
Definition with_normal_map : scene :=
  {| name := "Char";
     nodes := [Sample.plain "BSDF_PRINCIPLED"; Sample.plain "NORMAL_MAP"];
     links := [Link (Socket 1 0 "Normal") (Socket 0 5 "Normal")];
     images := [] |}.

(** A material whose texture is an emission map, [Lamp_EMM.png]. *)
Definition with_emission_map : scene :=
  {| name := "Mat";
     nodes := [Sample.plain "BSDF_PRINCIPLED"; Sample.holding 0];
     links := [];
     images := [Image "//tex/Lamp_EMM.png" "sRGB" Sample.colour_pixels] |}.

(** One grey pixel and the first channel of a second one. *)
Definition cut_pixels : list float :=
  [Sample.f1; Sample.f1; Sample.f1; Sample.f1; Sample.f0].

(** One red pixel and the first channel of a second one. *)
Definition red_then_cut : list float :=
  [Sample.f1; Sample.f0; Sample.f0; Sample.f1; Sample.f0].

(** A grey pixel, and the same pixel with another alpha. *)
Definition opaque_grey : list float := [Sample.f1; Sample.f1; Sample.f1; Sample.f1].
Definition clear_grey : list float := [Sample.f1; Sample.f1; Sample.f1; Sample.f0].

(** A pixel whose green channel is not a number. *)
Definition nan_pixel : list float := [Sample.f1; S754_nan; Sample.f1; Sample.f1].

End Sample2.

(** * Properties *)

(** ** Strings *)

Section Strings.

Lemma lower_length (s : string) : String.length (PyStr.lower s) = String.length s.
Proof. induction s as [|c s IH]; [reflexivity|]. cbn [PyStr.lower String.length]. now rewrite IH. Qed.

Lemma append_length (a b : string) :
  String.length (a +:+ b) = String.length a + String.length b.
Proof.
  induction a as [|c a IH]; [reflexivity|].
  change (String c a +:+ b) with (String c (a +:+ b)).
  cbn [String.length Nat.add]. now rewrite IH.
Qed.

Lemma truthy_length (s : string) : 0 < String.length s -> PyStr.truthy s = true.
Proof. destruct s; simpl; [lia | reflexivity]. Qed.

Lemma expected_filename_length (base : option string) (sfx : string) :
  4 <= String.length (expected_filename base sfx).
Proof.
  unfold expected_filename. rewrite !append_length. simpl. lia.
Qed.

Lemma path_join_length (a b : string) :
  String.length b <= String.length (PyStr.path_join a b).
Proof.
  unfold PyStr.path_join.
  destruct (PyStr.startswith "/" b); [lia|].
  destruct (String.eqb a "" || PyStr.ends_with_slash a);
    rewrite !append_length; simpl; lia.
Qed.

Lemma append_cons (c : ascii) (a b : string) : String c a +:+ b = String c (a +:+ b).
Proof. reflexivity. Qed.

Lemma lower_eq_cons (c : ascii) (m pat : string) :
  PyStr.lower m = PyStr.lower (String c pat) ->
  exists d m', m = String d m' /\ PyStr.lower_ascii d = PyStr.lower_ascii c /\
               PyStr.lower m' = PyStr.lower pat.
Proof.
  destruct m as [|d m']; cbn [PyStr.lower]; [discriminate|].
  intros [= Hd Hm]. exists d, m'. auto.
Qed.

(** A case-blind prefix test succeeds exactly on a prefix that folds to the
    pattern. *)
Lemma starts_with_ci_iff (pat s : string) :
  PyStr.starts_with_ci pat s = true <->
  exists m rest, s = m +:+ rest /\ PyStr.lower m = PyStr.lower pat.
Proof.
  revert s. induction pat as [|c pat IH]; intros s; cbn [PyStr.starts_with_ci].
  - split; [|reflexivity]. intros _. exists "", s. auto.
  - destruct s as [|d s'].
    + split; [discriminate|]. intros (m & rest & Hs & Hm).
      destruct (lower_eq_cons _ _ _ Hm) as (d & m' & -> & _). discriminate.
    + rewrite andb_true_iff, Ascii.eqb_eq, IH. split.
      * intros (Hc & m & rest & -> & Hm). exists (String d m), rest.
        split; [reflexivity|]. cbn [PyStr.lower]. congruence.
      * intros (m & rest & Hs & Hm).
        destruct (lower_eq_cons _ _ _ Hm) as (d' & m' & -> & Hd & Hm').
        rewrite append_cons in Hs. injection Hs as -> ->.
        split; [congruence|]. exists m', rest. auto.
Qed.

Lemma occurs_at_iff (pat s : string) (i : nat) :
  occurs_at pat s i <->
  i <= String.length s /\ PyStr.starts_with_ci pat (PyStr.drop i s) = true.
Proof. unfold occurs_at. now rewrite starts_with_ci_iff. Qed.

Lemma occurs_at_0 (pat s : string) :
  occurs_at pat s 0 <-> PyStr.starts_with_ci pat s = true.
Proof.
  rewrite occurs_at_iff. destruct s; cbn [PyStr.drop]; intuition lia.
Qed.

Lemma occurs_at_S (pat : string) (c : ascii) (s : string) (i : nat) :
  occurs_at pat (String c s) (S i) <-> occurs_at pat s i.
Proof.
  rewrite !occurs_at_iff. cbn [PyStr.drop String.length]. intuition lia.
Qed.

Lemma search_ci_none_occurs (pat s : string) :
  PyStr.search_ci pat s = None -> forall i, ~ occurs_at pat s i.
Proof.
  induction s as [|c s IH]; cbn [PyStr.search_ci].
  - destruct (PyStr.starts_with_ci pat "") eqn:E; [discriminate|].
    intros _ i [Hle Hocc]. cbn [String.length] in Hle.
    assert (i = 0) as -> by lia.
    assert (occurs_at pat "" 0) as H0 by (split; [lia | exact Hocc]).
    apply occurs_at_0 in H0. congruence.
  - destruct (PyStr.starts_with_ci pat (String c s)) eqn:E; [discriminate|].
    destruct (PyStr.search_ci pat s) as [k|]; [discriminate|].
    intros _ [|i].
    + rewrite occurs_at_0. congruence.
    + rewrite occurs_at_S. now apply IH.
Qed.

Lemma search_ci_some_leftmost (pat s : string) (i : nat) :
  PyStr.search_ci pat s = Some i -> leftmost pat s i.
Proof.
  unfold leftmost. revert i.
  assert (forall t, PyStr.starts_with_ci pat t = true ->
            occurs_at pat t 0 /\ (forall j, j < 0 -> ~ occurs_at pat t j)) as Hzero
    by (intros t E; split; [now apply occurs_at_0 | intros j; lia]).
  induction s as [|c s IH]; intros i; cbn [PyStr.search_ci].
  - destruct (PyStr.starts_with_ci pat "") eqn:E; [|discriminate].
    intros [= <-]. now apply Hzero.
  - destruct (PyStr.starts_with_ci pat (String c s)) eqn:E.
    + intros [= <-]. now apply Hzero.
    + destruct (PyStr.search_ci pat s) as [k|]; [|discriminate].
      intros [= <-]. destruct (IH k eq_refl) as [Hocc Hleft].
      split; [now apply occurs_at_S|].
      intros [|j] Hj.
      * rewrite occurs_at_0. congruence.
      * rewrite occurs_at_S. apply Hleft. lia.
Qed.

Lemma leftmost_unique (pat s : string) (i j : nat) :
  leftmost pat s i -> leftmost pat s j -> i = j.
Proof.
  intros [Hi Li] [Hj Lj].
  destruct (Nat.lt_trichotomy i j) as [Hlt|[->|Hgt]]; [|reflexivity|].
  - exfalso. now apply (Lj i).
  - exfalso. now apply (Li j).
Qed.

(** The regex search returns the leftmost occurrence, and nothing exactly
    when there is no occurrence. *)
Lemma search_ci_some (pat s : string) (i : nat) :
  PyStr.search_ci pat s = Some i <-> leftmost pat s i.
Proof.
  split; [apply search_ci_some_leftmost|].
  intros Hleft. destruct (PyStr.search_ci pat s) as [k|] eqn:Hs.
  - f_equal. apply search_ci_some_leftmost in Hs. eapply leftmost_unique; eassumption.
  - exfalso. destruct Hleft as [Hocc _]. eapply search_ci_none_occurs; eassumption.
Qed.

Lemma search_ci_none (pat s : string) :
  PyStr.search_ci pat s = None <-> ~ contains_ci pat s.
Proof.
  split.
  - intros Hs [i Hocc]. eapply search_ci_none_occurs; eassumption.
  - intros Hno. destruct (PyStr.search_ci pat s) as [k|] eqn:Hs; [|reflexivity].
    exfalso. apply Hno. exists k. now apply search_ci_some_leftmost in Hs as [Hocc _].
Qed.

(** The head of a split at dots carries no dot and is followed, if by
    anything, by a dot. *)
Lemma split_dot_head_cut (s : string) : cut_at_dot s (PyStr.split_dot_head s).
Proof.
  unfold cut_at_dot. induction s as [|c s [Hno Hrest]]; cbn [PyStr.split_dot_head].
  - split; [intros [|i]; discriminate | now left].
  - destruct (Ascii.eqb c ".") eqn:E.
    + apply Ascii.eqb_eq in E as ->. split; [intros [|i]; discriminate|].
      right. exists s. reflexivity.
    + apply Ascii.eqb_neq in E. split.
      * intros [|i]; cbn [String.get]; [congruence | apply Hno].
      * destruct Hrest as [Heq | (rest & Heq)].
        -- left. congruence.
        -- right. exists rest. rewrite append_cons. congruence.
Qed.

Lemma has_slash_append (a b : string) :
  PyStr.has_slash (a +:+ b) = PyStr.has_slash a || PyStr.has_slash b.
Proof.
  induction a as [|c a IH]; [reflexivity|].
  rewrite append_cons. cbn [PyStr.has_slash]. rewrite IH. now rewrite orb_assoc.
Qed.

Lemma basename_no_slash (b : string) : PyStr.has_slash b = false -> PyStr.basename b = b.
Proof.
  destruct b as [|c b]; [reflexivity|]. cbn [PyStr.has_slash PyStr.basename].
  intros H. apply orb_false_iff in H as [Hc Hb]. now rewrite Hb, Hc.
Qed.

Lemma basename_slash (b : string) : PyStr.basename (String "/" b) = PyStr.basename b.
Proof.
  cbn [PyStr.basename]. destruct (PyStr.has_slash b) eqn:E; [reflexivity|].
  cbn. symmetry. now apply basename_no_slash.
Qed.

(** What precedes a slash has no part in the base name. *)
Lemma basename_after_slash (a b : string) :
  PyStr.basename (a +:+ String "/" b) = PyStr.basename b.
Proof.
  induction a as [|c a IH]; [apply basename_slash|].
  rewrite append_cons. cbn [PyStr.basename].
  rewrite has_slash_append. cbn [PyStr.has_slash]. cbn.
  rewrite orb_true_r. exact IH.
Qed.

Lemma ends_with_slash_split (a : string) :
  PyStr.ends_with_slash a = true -> exists a', a = a' +:+ "/".
Proof.
  induction a as [|c a IH]; [discriminate|]. cbn [PyStr.ends_with_slash].
  destruct a as [|d a].
  - intros H. apply Ascii.eqb_eq in H as ->. now exists "".
  - intros H. destruct (IH H) as [a' ->]. now exists (String c a').
Qed.

Lemma append_assoc (a b c : string) : (a +:+ b) +:+ c = a +:+ (b +:+ c).
Proof. induction a as [|x a IH]; [reflexivity|]. rewrite !append_cons. now rewrite IH. Qed.

(** Joining a directory in front leaves the base name as it was. *)
Lemma basename_path_join (a b : string) :
  PyStr.basename (PyStr.path_join a b) = PyStr.basename b.
Proof.
  unfold PyStr.path_join.
  destruct (PyStr.startswith "/" b) eqn:Hb; [reflexivity|].
  destruct (String.eqb a "") eqn:Ha.
  - apply String.eqb_eq in Ha as ->. reflexivity.
  - cbn [orb]. destruct (PyStr.ends_with_slash a) eqn:Hs.
    + destruct (ends_with_slash_split _ Hs) as [a' ->].
      rewrite append_assoc. apply basename_after_slash.
    + apply basename_after_slash.
Qed.

Lemma take_truthy (i : nat) (s : string) :
  0 < i -> i <= String.length s -> PyStr.truthy (PyStr.take i s) = true.
Proof.
  destruct i as [|i]; [lia|]. destruct s as [|c s]; cbn [String.length]; [lia|].
  reflexivity.
Qed.

End Strings.

(** ** Texture resolution *)

Section Resolution.

Variable h : host.
Variable p : processor.

(** What the search loop returns is a joined path of a matching file. *)
Lemma find_file_some (dir expected : string) (files : list string) (path : string) :
  find_file dir expected files = Some path ->
  exists file, In file files /\ PyStr.lower file = PyStr.lower expected /\
               path = PyStr.path_join dir file.
Proof.
  induction files as [|f fs IH]; simpl; [discriminate|].
  destruct (String.eqb (PyStr.lower f) (PyStr.lower expected)) eqn:E.
  - intros [= <-]. apply String.eqb_eq in E. exists f. auto.
  - intros Hfind. destruct (IH Hfind) as (file & Hin & Hlow & Hpath).
    exists file. auto.
Qed.

Lemma find_file_none (dir expected : string) (files : list string) :
  find_file dir expected files = None <->
  forall file, In file files -> PyStr.lower file <> PyStr.lower expected.
Proof.
  induction files as [|f fs IH]; simpl.
  - split; [intros _ file [] | reflexivity].
  - destruct (String.eqb (PyStr.lower f) (PyStr.lower expected)) eqn:E.
    + apply String.eqb_eq in E. split; [discriminate|].
      intros Hall. exfalso. apply (Hall f); auto.
    + apply String.eqb_neq in E. rewrite IH. split.
      * intros Hall file [<-|Hin]; auto.
      * intros Hall file Hin. apply Hall. auto.
Qed.

(** A resolved path is never the empty string, so [not texture_path] fails. *)
Lemma find_file_truthy (dir expected : string) (files : list string) (path : string) :
  4 <= String.length expected ->
  find_file dir expected files = Some path -> PyStr.truthy path = true.
Proof.
  intros Hlen Hfind.
  destruct (find_file_some _ _ _ _ Hfind) as (file & _ & Hlow & ->).
  apply truthy_length.
  pose proof (path_join_length dir file) as Hjoin.
  assert (String.length file = String.length expected) as Hfile
    by (rewrite <- (lower_length file), Hlow; apply lower_length).
  lia.
Qed.

Lemma find_texture_file_truthy (sfx path : string) :
  find_texture_file h (file_path p) (base_name p) sfx = Some path ->
  PyStr.truthy path = true.
Proof.
  unfold find_texture_file. destruct (listdir h (file_path p)); [|discriminate].
  apply find_file_truthy, expected_filename_length.
Qed.

Lemma texture_absent_iff (sfx : string) :
  texture_absent h p sfx <->
  find_texture_file h (file_path p) (base_name p) sfx = None.
Proof.
  unfold texture_absent, find_texture_file.
  destruct (listdir h (file_path p)) as [files|].
  - rewrite find_file_none. split.
    + intros [Hnone | (fs & [= <-] & Hall)]; [discriminate | exact Hall].
    + intros Hall. right. exists files. auto.
  - split; auto.
Qed.

End Resolution.

(** ** Lists of nodes and images under append *)

Section Snoc.

Context {A : Type}.

Lemma lookup_snoc (l : list A) (x : A) : (l ++ [x]) !! length l = Some x.
Proof. rewrite lookup_app_r by lia. now rewrite Nat.sub_diag. Qed.

Lemma insert_snoc (l : list A) (x y : A) : <[length l := y]> (l ++ [x]) = l ++ [y].
Proof. rewrite insert_app_r_alt by lia. now rewrite Nat.sub_diag. Qed.

End Snoc.

(** ** Running the monad *)

Ltac unfold_run :=
  cbv beta iota delta
    [bind ret raise lift get modify nodes_new images_load read_node read_image
     update_node update_image set_image set_blend_type set_location set_colorspace
     image_of inputs outputs links_new set_in_default set_out_default principled
     connect principled_location new_white_node with_nodes with_links with_images];
  cbn [nodes links images name node_image type].

(** ** Steps of a run *)

Section Steps.

Context {A B : Type}.

Lemma bind_ok (c : M A) (k : A -> M B) (sc sc' : scene) (a : A) :
  c sc = (Ok a, sc') -> bind c k sc = k a sc'.
Proof. intros Hc. unfold bind. now rewrite Hc. Qed.

Lemma bind_raise (c : M A) (k : A -> M B) (sc sc' : scene) (e : exn) :
  c sc = (Raise e, sc') -> bind c k sc = (Raise e, sc').
Proof. intros Hc. unfold bind. now rewrite Hc. Qed.

End Steps.

Lemma read_node_ok (sc : scene) (n : nat) (nd : node) :
  nodes sc !! n = Some nd -> read_node n sc = (Ok nd, sc).
Proof. intros Hn. unfold read_node. now rewrite Hn. Qed.

Lemma read_image_ok (sc : scene) (i : nat) (im : image) :
  images sc !! i = Some im -> read_image i sc = (Ok im, sc).
Proof. intros Hi. unfold read_image. now rewrite Hi. Qed.

(** ** import_texture *)

Section ImportTexture.

Variable h : host.
Variable p : processor.

Lemma import_texture_none (sfx : string) (nc : bool) (sc : scene) :
  find_texture_file h (file_path p) (base_name p) sfx = None ->
  import_texture h p sfx nc sc = (Ok None, sc).
Proof. intros Hf. unfold import_texture. now rewrite Hf. Qed.

Lemma import_texture_some (sfx path : string) (nc : bool) (sc : scene) :
  find_texture_file h (file_path p) (base_name p) sfx = Some path ->
  import_texture h p sfx nc sc = (Ok (Some (length (nodes sc))), with_texture h path nc sc).
Proof.
  intros Hf. unfold import_texture. rewrite Hf.
  rewrite (find_texture_file_truthy _ _ _ _ Hf). cbn [negb].
  destruct nc; unfold_run.
  - rewrite lookup_snoc. unfold_run. rewrite insert_snoc, lookup_snoc. unfold_run.
    rewrite lookup_snoc. unfold_run. rewrite insert_snoc. reflexivity.
  - rewrite lookup_snoc. unfold_run. rewrite insert_snoc. reflexivity.
Qed.

End ImportTexture.

Section Resolved.

Variable h : host.
Variable p : processor.

(** A texture that is not absent resolves to the joined path of a listed
    file that answers to the expected name. *)
Lemma present_resolves (sfx : string) :
  ~ texture_absent h p sfx ->
  exists files file,
    listdir h (file_path p) = Some files /\ In file files /\
    PyStr.lower file = PyStr.lower (expected_filename (base_name p) sfx) /\
    find_texture_file h (file_path p) (base_name p) sfx
      = Some (PyStr.path_join (file_path p) file).
Proof.
  intros Hpresent. rewrite texture_absent_iff in Hpresent.
  unfold find_texture_file in *.
  destruct (listdir h (file_path p)) as [files|]; [|congruence].
  destruct (find_file (file_path p) (expected_filename (base_name p) sfx) files)
    as [path|] eqn:Hfind; [|congruence].
  destruct (find_file_some _ _ _ _ Hfind) as (file & Hin & Hlow & ->).
  exists files, file. auto.
Qed.

End Resolved.

(** C5: [import_texture] returns the not-found sentinel exactly when the
    directory cannot be listed or none of its files is named, letter case
    aside, [{BaseName}{suffix}.png]; the scene is then left as it was.
    Otherwise it returns the handle of one new image-texture node, appended
    to the node tree, that holds the newly loaded image; the image is marked
    Non-Color when the flag is set and keeps the colour space of the load
    when it is not. *)
Theorem import_texture_not_found_iff
    (h : host) (p : processor) (suffix : string) (non_color : bool) (sc : scene) :
  (outcome (import_texture h p suffix non_color sc) = Ok None
     <-> texture_absent h p suffix) /\
  (texture_absent h p suffix ->
     import_texture h p suffix non_color sc = (Ok None, sc)) /\
  (~ texture_absent h p suffix ->
     exists files file,
       listdir h (file_path p) = Some files /\ In file files /\
       PyStr.lower file = PyStr.lower (expected_filename (base_name p) suffix) /\
       import_texture h p suffix non_color sc
         = (Ok (Some (length (nodes sc))),
            {| name := name sc;
               nodes := nodes sc ++ [texture_node (length (images sc))];
               links := links sc;
               images := images sc ++
                 [{| filepath := PyStr.path_join (file_path p) file;
                     colorspace := if non_color then "Non-Color"
                                   else load_colorspace h (PyStr.path_join (file_path p) file);
                     pixels := load_pixels h (PyStr.path_join (file_path p) file) |}] |})).
Proof.
  split; [|split].
  - rewrite texture_absent_iff. split.
    + intros Hout.
      destruct (find_texture_file h (file_path p) (base_name p) suffix) as [path|] eqn:Hf;
        [|reflexivity].
      rewrite (import_texture_some _ _ _ _ _ _ Hf) in Hout. discriminate.
    + intros Hf. now rewrite import_texture_none.
  - intros Habs. apply import_texture_none. now apply texture_absent_iff.
  - intros Hpresent.
    destruct (present_resolves _ _ _ Hpresent) as (files & file & Hls & Hin & Hlow & Hf).
    exists files, file. repeat split; try assumption.
    now rewrite (import_texture_some _ _ _ _ _ _ Hf).
Qed.

(** C9: with the file present, two calls of [import_texture] for the same
    suffix return two different node handles; both nodes are image-texture
    nodes, each holding an image datablock of its own, and both images were
    loaded from the one listed file that answers to the expected name. *)
Theorem import_texture_twice_two_nodes
    (h : host) (p : processor) (suffix : string) (nc1 nc2 : bool) (sc : scene) :
  ~ texture_absent h p suffix ->
  exists file n1 n2 sc1 sc2 i1 i2 im1 im2,
    PyStr.lower file = PyStr.lower (expected_filename (base_name p) suffix) /\
    import_texture h p suffix nc1 sc = (Ok (Some n1), sc1) /\
    import_texture h p suffix nc2 sc1 = (Ok (Some n2), sc2) /\
    n1 <> n2 /\
    nodes sc2 !! n1 = Some (texture_node i1) /\
    nodes sc2 !! n2 = Some (texture_node i2) /\
    i1 <> i2 /\
    images sc2 !! i1 = Some im1 /\ images sc2 !! i2 = Some im2 /\
    filepath im1 = PyStr.path_join (file_path p) file /\
    filepath im2 = PyStr.path_join (file_path p) file /\
    length (nodes sc2) = length (nodes sc) + 2.
Proof.
  intros Hpresent.
  destruct (present_resolves _ _ _ Hpresent) as (files & file & Hls & Hin & Hlow & Hf).
  set (path := PyStr.path_join (file_path p) file) in *.
  exists file, (length (nodes sc)), (length (nodes (with_texture h path nc1 sc))),
    (with_texture h path nc1 sc), (with_texture h path nc2 (with_texture h path nc1 sc)),
    (length (images sc)), (length (images (with_texture h path nc1 sc))),
    (loaded_image h path nc1), (loaded_image h path nc2).
  split; [exact Hlow|].
  split; [now apply import_texture_some|].
  split; [now apply import_texture_some|].
  cbn [with_texture nodes images].
  split; [rewrite length_app; cbn [length]; lia|].
  split; [rewrite lookup_app_l by (rewrite length_app; cbn [length]; lia); apply lookup_snoc|].
  split; [apply lookup_snoc|].
  split; [rewrite length_app; cbn [length]; lia|].
  split; [rewrite lookup_app_l by (rewrite length_app; cbn [length]; lia); apply lookup_snoc|].
  split; [apply lookup_snoc|].
  repeat split. rewrite !length_app. cbn [length]. lia.
Qed.

(** C9 with [CHAR_NRM.png] in the directory and the suffix [_nrm]. *)
Lemma import_texture_twice_two_nodes_witness :
  ~ texture_absent (Sample.the_host (Some ["Char_alb.png"; "CHAR_NRM.png"]))
      (init (Sample.the_host (Some ["Char_alb.png"; "CHAR_NRM.png"])) Sample.bare "/tex")
      "_nrm" /\
  exists n1 n2 sc1 sc2,
    import_texture (Sample.the_host (Some ["Char_alb.png"; "CHAR_NRM.png"]))
      (init (Sample.the_host (Some ["Char_alb.png"; "CHAR_NRM.png"])) Sample.bare "/tex")
      "_nrm" true Sample.bare = (Ok (Some n1), sc1) /\
    import_texture (Sample.the_host (Some ["Char_alb.png"; "CHAR_NRM.png"]))
      (init (Sample.the_host (Some ["Char_alb.png"; "CHAR_NRM.png"])) Sample.bare "/tex")
      "_nrm" true sc1 = (Ok (Some n2), sc2) /\
    n1 <> n2.
Proof.
  assert (~ texture_absent (Sample.the_host (Some ["Char_alb.png"; "CHAR_NRM.png"]))
            (init (Sample.the_host (Some ["Char_alb.png"; "CHAR_NRM.png"])) Sample.bare "/tex")
            "_nrm") as Hpresent
    by (intros Habs; apply texture_absent_iff in Habs; discriminate Habs).
  split; [exact Hpresent|].
  destruct (import_texture_twice_two_nodes _ _ _ true true Sample.bare Hpresent)
    as (file & n1 & n2 & sc1 & sc2 & i1 & i2 & im1 & im2 & _ & H1 & H2 & Hne & _).
  exists n1, n2, sc1, sc2. auto.
Defined.

(** ** File names of images *)

(** Making the path absolute does not change the file name: the name the
    module matches suffixes against is the base name of [image.filepath]. *)
Lemma image_basename_filepath (h : host) (im : image) :
  image_basename h im = PyStr.basename (filepath im).
Proof.
  unfold image_basename, abspath.
  destruct (filepath im) as [|c [|d b]] eqn:Hp; try reflexivity.
  - cbn [PyStr.startswith]. destruct (Ascii.eqb "/" c); reflexivity.
  - cbn [PyStr.startswith].
    destruct (Ascii.eqb "/" c) eqn:Hc; [|reflexivity].
    destruct (Ascii.eqb "/" d) eqn:Hd; [|reflexivity].
    apply Ascii.eqb_eq in Hc as <-, Hd as <-. cbn [andb PyStr.drop].
    now rewrite basename_path_join, !basename_slash.
Qed.

(** ** The base name *)

Section BaseName.

Variable h : host.

Lemma match_suffixes_none (pats : list string) (b : string) :
  match_suffixes pats b = None <-> forall sfx, In sfx pats -> ~ contains_ci sfx b.
Proof.
  induction pats as [|pat pats IH]; cbn [match_suffixes].
  - split; [intros _ sfx [] | reflexivity].
  - destruct (PyStr.search_ci pat b) as [i|] eqn:Hs.
    + split; [discriminate|]. intros Hall. exfalso.
      apply (Hall pat); [now left|]. exists i.
      now apply search_ci_some_leftmost in Hs as [Hocc _].
    + rewrite IH. apply search_ci_none in Hs. split.
      * intros Hall sfx [<-|Hin]; auto.
      * intros Hall sfx Hin. apply Hall. now right.
Qed.

Lemma match_suffixes_unrecognised (b : string) :
  match_suffixes suffixes b = None <-> ~ recognised b.
Proof.
  rewrite match_suffixes_none. unfold recognised. split.
  - intros Hall (sfx & Hin & Hc). now apply (Hall sfx).
  - intros Hno sfx Hin Hc. apply Hno. eauto.
Qed.

Lemma match_suffixes_albedo (b : string) (start : nat) :
  leftmost "_alb" b start -> match_suffixes suffixes b = Some (PyStr.take start b).
Proof.
  intros Hleft. apply search_ci_some in Hleft.
  unfold suffixes. cbn [match_suffixes]. now rewrite Hleft.
Qed.

Lemma find_base_texture_from_none (sc : scene) (nds : list node) :
  (forall nd im, In nd nds -> textured sc nd = Some im ->
                 ~ recognised (image_basename h im)) ->
  find_base_texture_from h sc nds = None.
Proof.
  induction nds as [|nd nds IH]; intros Hall; cbn [find_base_texture_from]; [reflexivity|].
  destruct (textured sc nd) as [im|] eqn:Htex.
  - assert (match_suffixes suffixes (image_basename h im) = None) as ->
      by (apply match_suffixes_unrecognised, (Hall nd); [now left | exact Htex]).
    apply IH. intros nd' im' Hin. apply Hall. now right.
  - apply IH. intros nd' im' Hin. apply Hall. now right.
Qed.

Lemma find_base_texture_from_first (sc : scene) (pre post : list node) (nd : node)
    (im : image) (b : string) :
  (forall n im', In n pre -> textured sc n = Some im' ->
                 ~ recognised (image_basename h im')) ->
  textured sc nd = Some im ->
  match_suffixes suffixes (image_basename h im) = Some b ->
  find_base_texture_from h sc (pre ++ nd :: post) = Some b.
Proof.
  intros Hpre Htex Hmatch. induction pre as [|n pre IH]; cbn [app find_base_texture_from].
  - now rewrite Htex, Hmatch.
  - destruct (textured sc n) as [im'|] eqn:Hn.
    + assert (match_suffixes suffixes (image_basename h im') = None) as ->
        by (apply match_suffixes_unrecognised, (Hpre n); [now left | exact Hn]).
      apply IH. intros n' im'' Hin. apply Hpre. now right.
    + apply IH. intros n' im'' Hin. apply Hpre. now right.
Qed.

End BaseName.

(** C3, as the code has it: when the first image-texture node, in node
    order, whose file name carries one of the three suffixes has [_alb] in
    its file name (any letter case) with a non-empty prefix before the
    leftmost occurrence, the base name is that prefix, whatever the name of
    the material. *)
Theorem base_name_from_first_albedo
    (h : host) (sc : scene) (dir : string)
    (pre post : list node) (nd : node) (im : image) (start : nat) :
  nodes sc = pre ++ nd :: post ->
  (forall n im', In n pre -> textured sc n = Some im' ->
                 ~ recognised (image_basename h im')) ->
  textured sc nd = Some im ->
  leftmost "_alb" (image_basename h im) start ->
  0 < start ->
  base_name (init h sc dir) = Some (PyStr.take start (image_basename h im)).
Proof.
  intros Hnodes Hpre Htex Hleft Hpos.
  cbn [init base_name]. unfold _find_base_texture. rewrite Hnodes.
  rewrite (find_base_texture_from_first h sc pre post nd im _ Hpre Htex
             (match_suffixes_albedo _ _ Hleft)).
  cbn [py_or]. rewrite take_truthy; [reflexivity | exact Hpos|].
  now destruct Hleft as [[Hle _] _].
Qed.

(** C8: when no image-texture node of the material holds an image whose
    file name contains [_alb], [_emm] or [_emi] in any letter case, the base
    name is the name of the material cut at its first ['.']. *)
Theorem base_name_from_material_name (h : host) (sc : scene) (dir : string) :
  (forall nd im, In nd (nodes sc) -> textured sc nd = Some im ->
                 ~ recognised (image_basename h im)) ->
  base_name (init h sc dir) = Some (PyStr.split_dot_head (name sc)) /\
  cut_at_dot (name sc) (PyStr.split_dot_head (name sc)).
Proof.
  intros Hnone. split; [|apply split_dot_head_cut].
  cbn [init base_name]. unfold _find_base_texture.
  now rewrite (find_base_texture_from_none h sc (nodes sc) Hnone).
Qed.

(** C3, amended, on [Sample.with_albedo]: the texture [Char_Alb.png] of a
    material named [Mat.003] gives the base name [Char]. *)
Lemma base_name_from_first_albedo_witness :
  leftmost "_alb" "Char_Alb.png" 4 /\
  base_name (init (Sample.the_host None) Sample.with_albedo "/tex") = Some "Char".
Proof.
  assert (leftmost "_alb" "Char_Alb.png" 4) as Hleft
    by (apply search_ci_some; reflexivity).
  split; [exact Hleft|].
  apply (base_name_from_first_albedo (Sample.the_host None) Sample.with_albedo "/tex"
           [Sample.plain "BSDF_PRINCIPLED"] [] (Sample.holding 0)
           (Image "//textures/Char_Alb.png" "sRGB" Sample.colour_pixels) 4).
  - reflexivity.
  - intros n im' [<-|[]] Htex. discriminate Htex.
  - reflexivity.
  - exact Hleft.
  - lia.
Defined.

(** C3 as stated fails: the second texture of [Sample.two_textures] is named
    [Bar_ALB.png], yet the base name is taken from the emission map that
    comes first in node order. *)
Lemma base_name_not_from_later_albedo :
  In (Sample.holding 1) (nodes Sample.two_textures) /\
  textured Sample.two_textures (Sample.holding 1)
    = Some (Image "/abs/Bar_ALB.png" "sRGB" Sample.colour_pixels) /\
  image_basename (Sample.the_host None) (Image "/abs/Bar_ALB.png" "sRGB" Sample.colour_pixels)
    = "Bar_ALB.png" /\
  leftmost "_alb" "Bar_ALB.png" 3 /\
  PyStr.take 3 "Bar_ALB.png" = "Bar" /\
  base_name (init (Sample.the_host None) Sample.two_textures "/tex") = Some "Foo" /\
  Some "Foo" <> Some "Bar".
Proof.
  split; [right; right; now left|].
  split; [reflexivity|]. split; [reflexivity|].
  split; [now apply search_ci_some|].
  split; [reflexivity|]. split; [reflexivity | discriminate].
Qed.

(** A file named [_alb.png] has an empty prefix, which [or] takes for a
    missing one: the base name then comes from the material name. *)
Lemma base_name_empty_prefix :
  _find_base_texture (Sample.the_host None) Sample.unnamed_albedo = Some "" /\
  base_name (init (Sample.the_host None) Sample.unnamed_albedo "/tex") = Some "Body".
Proof. split; reflexivity. Qed.

(** C8 on [Sample.bare]: no texture at all, the material [Char.001] gives
    the base name [Char]. *)
Lemma base_name_from_material_name_witness :
  base_name (init (Sample.the_host None) Sample.bare "/tex") = Some "Char" /\
  cut_at_dot "Char.001" "Char".
Proof.
  apply (base_name_from_material_name (Sample.the_host None) Sample.bare "/tex").
  intros nd im [<-|[]] Htex. discriminate Htex.
Defined.

(** ** import_normal *)

Section ImportNormal.

Variable h : host.
Variable p : processor.

Lemma normal_loop_app (ls : list link) (l : link) :
  normal_loop p (ls ++ [l])
  = if ends_at p "Normal" l then Some (from_node l) else normal_loop p ls.
Proof. unfold normal_loop. now rewrite fold_left_app. Qed.

(** The loop leaves the local unbound exactly when no link ends at the
    Normal input of the principled node. *)
Lemma normal_loop_none (ls : list link) :
  normal_loop p ls = None <-> forall l, In l ls -> ends_at p "Normal" l = false.
Proof.
  induction ls as [|l ls IH] using rev_ind.
  - split; [intros _ l [] | reflexivity].
  - rewrite normal_loop_app. destruct (ends_at p "Normal" l) eqn:E.
    + split; [discriminate|]. intros Hall.
      rewrite Hall in E; [discriminate | apply in_or_app; right; now left].
    + rewrite IH. split.
      * intros Hall l' Hin. apply in_app_or in Hin as [Hin|[<-|[]]]; auto.
      * intros Hall l' Hin. apply Hall, in_or_app. now left.
Qed.

(** With the [_nrm] texture resolved and no link ending at the Normal input,
    [import_normal] stops on the unbound local, after the texture node was
    created. *)
Lemma import_normal_unlinked (sc : scene) (path : string) :
  find_texture_file h (file_path p) (base_name p) "_nrm" = Some path ->
  (forall l, In l (links sc) -> ends_at p "Normal" l = false) ->
  import_normal h p sc = (Raise UnboundLocalError, with_texture h path true sc).
Proof.
  intros Hf Hnone. apply normal_loop_none in Hnone.
  unfold import_normal, bind. rewrite (import_texture_some _ _ _ _ _ _ Hf).
  unfold get. cbn [with_texture links]. now rewrite Hnone.
Qed.

Lemma import_normal_no_texture (sc : scene) :
  find_texture_file h (file_path p) (base_name p) "_nrm" = None ->
  import_normal h p sc = (Ok tt, sc).
Proof.
  intros Hf. unfold import_normal, bind. now rewrite (import_texture_none _ _ _ _ _ Hf).
Qed.

End ImportNormal.

(** C1, on the code: a material with a principled node and no link into its
    Normal input, [Char_nrm.png] in the directory.  [import_normal] creates
    the texture node and then raises UnboundLocalError: the local was never
    initialised, and no normal-map node is created. *)
Theorem import_normal_unbound_local :
  import_normal (Sample.the_host (Some ["Char_alb.png"; "Char_nrm.png"]))
    (init (Sample.the_host (Some ["Char_alb.png"; "Char_nrm.png"])) Sample.bare "/tex")
    Sample.bare
  = (Raise UnboundLocalError,
     with_texture (Sample.the_host (Some ["Char_alb.png"; "Char_nrm.png"]))
       "/tex/Char_nrm.png" true Sample.bare).
Proof.
  apply import_normal_unlinked; [reflexivity | intros l []].
Qed.

(** ** Operations on a material without a principled node *)

Section NoPrincipled.

Variable h : host.
Variable p : processor.
Hypothesis no_principled : principled_node p = None.

Lemma import_second_alb_unguarded (sc : scene) :
  import_second_alb h p sc = (Raise AttributeError, sc).
Proof. unfold import_second_alb, bind, principled. now rewrite no_principled. Qed.

Lemma import_emission_guarded (sc : scene) :
  import_emission h p sc = (Ok tt, sc).
Proof. unfold import_emission. now rewrite no_principled. Qed.

Lemma ends_at_no_principled (s : string) (l : link) : ends_at p s l = false.
Proof. unfold ends_at. now rewrite no_principled. Qed.

Lemma import_normal_unguarded (sc : scene) (path : string) :
  find_texture_file h (file_path p) (base_name p) "_nrm" = Some path ->
  import_normal h p sc = (Raise UnboundLocalError, with_texture h path true sc).
Proof.
  intros Hf. apply import_normal_unlinked; [exact Hf|].
  intros l _. apply ends_at_no_principled.
Qed.

End NoPrincipled.

(** C2, on the code: a material with no principled node, [Char_nrm.png] and
    [Char_trm.png] in the directory.  Only [import_emission] is a no-op;
    [import_second_alb], [import_normal], [import_second_shader] and the
    linking helper raise, the middle two after adding nodes. *)
Theorem operations_without_principled_node :
  principled_node
    (init (Sample.the_host (Some ["Char_nrm.png"; "Char_trm.png"])) Sample.unshaded "/tex")
    = None /\
  import_second_alb (Sample.the_host (Some ["Char_nrm.png"; "Char_trm.png"]))
    (init (Sample.the_host (Some ["Char_nrm.png"; "Char_trm.png"])) Sample.unshaded "/tex")
    Sample.unshaded = (Raise AttributeError, Sample.unshaded) /\
  import_normal (Sample.the_host (Some ["Char_nrm.png"; "Char_trm.png"]))
    (init (Sample.the_host (Some ["Char_nrm.png"; "Char_trm.png"])) Sample.unshaded "/tex")
    Sample.unshaded
    = (Raise UnboundLocalError,
       with_texture (Sample.the_host (Some ["Char_nrm.png"; "Char_trm.png"]))
         "/tex/Char_nrm.png" true Sample.unshaded) /\
  outcome (import_second_shader (Sample.the_host (Some ["Char_nrm.png"; "Char_trm.png"]))
    (init (Sample.the_host (Some ["Char_nrm.png"; "Char_trm.png"])) Sample.unshaded "/tex")
    Sample.unshaded) = Raise AttributeError /\
  length (nodes (final (import_second_shader
    (Sample.the_host (Some ["Char_nrm.png"; "Char_trm.png"]))
    (init (Sample.the_host (Some ["Char_nrm.png"; "Char_trm.png"])) Sample.unshaded "/tex")
    Sample.unshaded))) = 5 /\
  link_texture_principled_node (Sample.the_host (Some ["Char_nrm.png"; "Char_trm.png"]))
    (init (Sample.the_host (Some ["Char_nrm.png"; "Char_trm.png"])) Sample.unshaded "/tex")
    (Some 1) "Base Color" Sample.unshaded = (Raise AttributeError, Sample.unshaded) /\
  import_emission (Sample.the_host (Some ["Char_nrm.png"; "Char_trm.png"]))
    (init (Sample.the_host (Some ["Char_nrm.png"; "Char_trm.png"])) Sample.unshaded "/tex")
    Sample.unshaded = (Ok tt, Sample.unshaded).
Proof.
  split; [reflexivity|].
  split; [now apply import_second_alb_unguarded|].
  split; [now apply import_normal_unguarded|].
  split; [reflexivity|]. split; [reflexivity|].
  split; [reflexivity|].
  now apply import_emission_guarded.
Qed.

(** ** import_second_shader without a [_trm] texture *)

(** C4, as the code has it: when no [_trm] texture resolves,
    [import_second_shader] returns normally and adds no link; it leaves the
    scene as it was when no [_thc] texture resolves either, and otherwise
    leaves behind one unlinked image-texture node holding the [_thc] image
    marked Non-Color. *)
Theorem import_second_shader_without_trm (h : host) (p : processor) (sc : scene) :
  texture_absent h p "_trm" ->
  import_second_shader h p sc
    = (Ok tt,
       match find_texture_file h (file_path p) (base_name p) "_thc" with
       | Some path => with_texture h path true sc
       | None => sc
       end).
Proof.
  intros Habs. apply texture_absent_iff in Habs.
  unfold import_second_shader, bind.
  rewrite (import_texture_none _ _ _ _ _ Habs).
  destruct (find_texture_file h (file_path p) (base_name p) "_thc") as [path|] eqn:Hthc.
  - now rewrite (import_texture_some _ _ _ _ _ _ Hthc).
  - now rewrite (import_texture_none _ _ _ _ _ Hthc).
Qed.

(** C4, amended, with [Char_thc.png] alone in the directory. *)
Lemma import_second_shader_without_trm_witness :
  texture_absent (Sample.the_host (Some ["Char_thc.png"]))
    (init (Sample.the_host (Some ["Char_thc.png"])) Sample.bare "/tex") "_trm" /\
  import_second_shader (Sample.the_host (Some ["Char_thc.png"]))
    (init (Sample.the_host (Some ["Char_thc.png"])) Sample.bare "/tex") Sample.bare
  = (Ok tt, with_texture (Sample.the_host (Some ["Char_thc.png"]))
              "/tex/Char_thc.png" true Sample.bare).
Proof.
  assert (texture_absent (Sample.the_host (Some ["Char_thc.png"]))
            (init (Sample.the_host (Some ["Char_thc.png"])) Sample.bare "/tex") "_trm")
    as Habs by (apply texture_absent_iff; reflexivity).
  split; [exact Habs|].
  exact (import_second_shader_without_trm _ _ Sample.bare Habs).
Defined.

(** C4 as stated fails: with [Char_thc.png] alone in the directory, no
    [_trm] texture resolves, and the node tree still gains a node. *)
Lemma import_second_shader_thc_alone_adds_node :
  texture_absent (Sample.the_host (Some ["Char_thc.png"]))
    (init (Sample.the_host (Some ["Char_thc.png"])) Sample.bare "/tex") "_trm" /\
  length (nodes (final (import_second_shader (Sample.the_host (Some ["Char_thc.png"]))
            (init (Sample.the_host (Some ["Char_thc.png"])) Sample.bare "/tex")
            Sample.bare))) = 2 /\
  length (nodes Sample.bare) = 1 /\
  final (import_second_shader (Sample.the_host (Some ["Char_thc.png"]))
            (init (Sample.the_host (Some ["Char_thc.png"])) Sample.bare "/tex")
            Sample.bare) <> Sample.bare.
Proof.
  split; [apply texture_absent_iff; reflexivity|].
  split; [reflexivity|]. split; [reflexivity|].
  intros Heq. apply (f_equal (fun sc => length (nodes sc))) in Heq. discriminate Heq.
Qed.

(** ** A program logic for successful runs *)

Section Runs.

Context {A B : Type}.

Lemma runs_ret (a : A) (s : scene) (Q : A -> scene -> Prop) :
  Q a s -> runs (ret a) s Q.
Proof. intros HQ. exists a, s. auto. Qed.

Lemma runs_bind (c : M A) (k : A -> M B) (s : scene) (Q : B -> scene -> Prop) :
  runs c s (fun a s' => runs (k a) s' Q) -> runs (bind c k) s Q.
Proof.
  intros (a & s' & Hc & b & s'' & Hk & HQ).
  exists b, s''. split; [|exact HQ]. now rewrite (bind_ok _ _ _ _ _ Hc).
Qed.

Lemma runs_eq (c : M A) (s s' : scene) (a : A) (Q : A -> scene -> Prop) :
  c s = (Ok a, s') -> Q a s' -> runs c s Q.
Proof. intros Hc HQ. exists a, s'. auto. Qed.

Lemma runs_weaken (c : M A) (s : scene) (Q Q' : A -> scene -> Prop) :
  runs c s Q -> (forall a s', Q a s' -> Q' a s') -> runs c s Q'.
Proof. intros (a & s' & Hc & HQ) Himp. exists a, s'. auto. Qed.

End Runs.

(** ** Growth of the node tree *)

Section Growth.

Lemma has_type_iff (s : scene) (n : nat) (ty : string) :
  has_type s n ty = true <-> exists nd, nodes s !! n = Some nd /\ type nd = ty.
Proof.
  unfold has_type. destruct (nodes s !! n) as [nd|].
  - rewrite String.eqb_eq. split; [eauto|]. now intros (nd' & [= <-] & Hty).
  - split; [discriminate|]. now intros (nd & Hnd & _).
Qed.

Lemma has_type_unique (s : scene) (n : nat) (ty ty' : string) :
  has_type s n ty = true -> has_type s n ty' = true -> ty = ty'.
Proof.
  rewrite !has_type_iff. intros (nd & Hnd & <-) (nd' & Hnd' & <-). congruence.
Qed.

Lemma grows_refl (s : scene) : grows_by s s [].
Proof. repeat split. exists []. now rewrite app_nil_r. Qed.

Lemma grows_trans (s s1 s2 : scene) (t1 t2 : list string) :
  grows_by s s1 t1 -> grows_by s1 s2 t2 -> grows_by s s2 (t1 ++ t2).
Proof.
  intros (Hn1 & Hi1 & new1 & Hnodes1 & Hty1) (Hn2 & Hi2 & new2 & Hnodes2 & Hty2).
  split; [congruence|]. split; [congruence|].
  exists (new1 ++ new2). split.
  - rewrite Hnodes2, Hnodes1. now rewrite app_assoc.
  - rewrite map_app. congruence.
Qed.

Lemma grows_length (s s' : scene) (tys : list string) :
  grows_by s s' tys -> length (nodes s') = length (nodes s) + length tys.
Proof.
  intros (_ & _ & new & -> & <-). now rewrite length_app, length_map.
Qed.

Lemma grows_old (s s' : scene) (tys : list string) (n : nat) (nd : node) :
  grows_by s s' tys -> nodes s !! n = Some nd -> nodes s' !! n = Some nd.
Proof. intros (_ & _ & new & -> & _) Hn. now apply lookup_app_l_Some. Qed.

Lemma grows_has_type (s s' : scene) (tys : list string) (n : nat) (ty : string) :
  grows_by s s' tys -> has_type s n ty = true -> has_type s' n ty = true.
Proof.
  rewrite !has_type_iff. intros Hg (nd & Hnd & Hty).
  exists nd. split; [|exact Hty]. eapply grows_old; eassumption.
Qed.

Lemma grows_new_type (s s' : scene) (tys : list string) (k : nat) (ty : string) :
  grows_by s s' tys -> tys !! k = Some ty ->
  has_type s' (length (nodes s) + k) ty = true.
Proof.
  intros (_ & _ & new & Hnodes & <-) Hk. apply has_type_iff.
  rewrite list_lookup_fmap in Hk.
  destruct (new !! k) as [nd|] eqn:Hnew; [|discriminate].
  injection Hk as <-. exists nd. split; [|reflexivity].
  rewrite Hnodes, lookup_app_r by lia. rewrite <- Hnew. f_equal. lia.
Qed.

(** Steps that keep the tree growing from [s0]. *)

Lemma grows_links (s0 s : scene) (tys : list string) (g : list link -> list link) :
  grows_by s0 s tys -> grows_by s0 (with_links g s) tys.
Proof. intros (Hn & Hi & new & Hnodes & Hty). repeat split; eauto. Qed.

Lemma grows_node_new (s0 s : scene) (tys : list string) (c : node_class) :
  grows_by s0 s tys ->
  grows_by s0 (with_nodes (fun ns => ns ++ [fresh_node c]) s) (tys ++ [type_of_class c]).
Proof.
  intros (Hn & Hi & new & Hnodes & Hty). split; [exact Hn|]. split; [exact Hi|].
  exists (new ++ [fresh_node c]). cbn [with_nodes nodes]. split.
  - now rewrite Hnodes, app_assoc.
  - rewrite map_app, Hty. reflexivity.
Qed.

Lemma grows_node_update (s0 s : scene) (tys : list string) (k : nat) (nd : node)
    (f : node -> node) :
  grows_by s0 s tys ->
  nodes s !! (length (nodes s0) + k) = Some nd ->
  type (f nd) = type nd ->
  grows_by s0 (with_nodes (fun ns => <[length (nodes s0) + k := f nd]> ns) s) tys.
Proof.
  intros (Hn & Hi & new & Hnodes & Hty) Hnd Hf. split; [exact Hn|]. split; [exact Hi|].
  exists (<[k := f nd]> new). cbn [with_nodes nodes]. split.
  - rewrite Hnodes, insert_app_r_alt by lia. do 2 f_equal. lia.
  - rewrite Hnodes, lookup_app_r in Hnd by lia.
    replace (length (nodes s0) + k - length (nodes s0)) with k in Hnd by lia.
    rewrite <- Hty. apply list_eq. intros j.
    rewrite !list_lookup_fmap.
    destruct (decide (j = k)) as [->|Hne].
    + rewrite list_lookup_insert_eq by (eapply lookup_lt_Some; eassumption).
      rewrite Hnd. cbn. now rewrite Hf.
    + now rewrite list_lookup_insert_ne by congruence.
Qed.

End Growth.

(** ** Rules for the operations of the host *)

Section Rules.

Variable h : host.
Variable p : processor.

Lemma index_of_In (nm : string) (names : list string) (k : nat) :
  In nm names -> exists i, index_of nm names k = Some i.
Proof.
  revert k. induction names as [|x names IH]; intros k; [intros []|].
  cbn [index_of]. destruct (String.eqb x nm) eqn:E; [eauto|].
  intros [->|Hin]; [rewrite String.eqb_refl in E; discriminate | now apply IH].
Qed.

Lemma resolve_name (n : nat) (names : list string) (nm : string) :
  In nm names -> exists i, resolve n names (ByName nm) = Ok (Socket n i nm).
Proof.
  intros Hin. destruct (index_of_In nm names 0 Hin) as [i Hi].
  exists i. cbn [resolve]. now rewrite Hi.
Qed.

Lemma resolve_index (n : nat) (names : list string) (i : nat) :
  i < length names -> exists nm, resolve n names (ByIndex i) = Ok (Socket n i nm).
Proof.
  intros Hlt. destruct (lookup_lt_is_Some_2 names i Hlt) as [nm Hnm].
  exists nm. cbn [resolve]. now rewrite Hnm.
Qed.

Lemma resolve_name_some (n : nat) (names : list string) (nm : string) :
  In nm names -> exists sk, resolve n names (ByName nm) = Ok sk.
Proof. intros Hin. destruct (resolve_name n names nm Hin) as [i Hi]. eauto. Qed.

Lemma resolve_index_some (n : nat) (names : list string) (i : nat) :
  i < length names -> exists sk, resolve n names (ByIndex i) = Ok sk.
Proof. intros Hlt. destruct (resolve_index n names i Hlt) as [nm Hnm]. eauto. Qed.

Lemma resolve_node (n : nat) (names : list string) (k : key) (sk : socket) :
  resolve n names k = Ok sk -> sock_node sk = n.
Proof.
  destruct k as [nm|i]; cbn [resolve].
  - destruct (index_of nm names 0); [|discriminate]. now intros [= <-].
  - destruct (names !! i); [|discriminate]. now intros [= <-].
Qed.

Lemma resolve_index_at (n : nat) (names : list string) (i : nat) (sk : socket) :
  resolve n names (ByIndex i) = Ok sk -> sock_index sk = i.
Proof. cbn [resolve]. destruct (names !! i); [|discriminate]. now intros [= <-]. Qed.

Lemma inputs_typed (s : scene) (n : nat) (ty : string) (k : key) :
  has_type s n ty = true -> inputs h n k s = (resolve n (sockets_in h ty) k, s).
Proof.
  intros Hty. apply has_type_iff in Hty as (nd & Hnd & <-).
  unfold inputs. now rewrite (bind_ok _ _ _ _ _ (read_node_ok _ _ _ Hnd)).
Qed.

Lemma outputs_typed (s : scene) (n : nat) (ty : string) (k : key) :
  has_type s n ty = true -> outputs h n k s = (resolve n (sockets_out h ty) k, s).
Proof.
  intros Hty. apply has_type_iff in Hty as (nd & Hnd & <-).
  unfold outputs. now rewrite (bind_ok _ _ _ _ _ (read_node_ok _ _ _ Hnd)).
Qed.

Lemma principled_outputs_typed (s : scene) (pn : nat) (ty : string) (k : key) :
  principled_node p = Some pn -> has_type s pn ty = true ->
  (q <- principled p ;; outputs h q k) s = (resolve pn (sockets_out h ty) k, s).
Proof.
  intros Hpn Hty. unfold principled. rewrite Hpn.
  assert (ret pn s = (Ok pn, s)) as Hret by reflexivity.
  rewrite (bind_ok _ _ _ _ _ Hret). now apply outputs_typed.
Qed.

Lemma runs_inputs (s : scene) (n : nat) (ty : string) (k : key) (sk : socket)
    (Q : socket -> scene -> Prop) :
  has_type s n ty = true -> resolve n (sockets_in h ty) k = Ok sk ->
  Q sk s -> runs (inputs h n k) s Q.
Proof.
  intros Hty Hres HQ. eapply runs_eq; [|exact HQ].
  rewrite (inputs_typed _ _ _ _ Hty). now rewrite Hres.
Qed.

Lemma runs_outputs (s : scene) (n : nat) (ty : string) (k : key) (sk : socket)
    (Q : socket -> scene -> Prop) :
  has_type s n ty = true -> resolve n (sockets_out h ty) k = Ok sk ->
  Q sk s -> runs (outputs h n k) s Q.
Proof.
  intros Hty Hres HQ. eapply runs_eq; [|exact HQ].
  rewrite (outputs_typed _ _ _ _ Hty). now rewrite Hres.
Qed.

Lemma runs_connect (oc ic : M socket) (s : scene) (o i : socket)
    (Q : unit -> scene -> Prop) :
  oc s = (Ok o, s) -> ic s = (Ok i, s) ->
  Q tt (with_links (relink o i) s) -> runs (connect oc ic) s Q.
Proof.
  intros Ho Hi HQ. eapply runs_eq; [|exact HQ].
  unfold connect. rewrite (bind_ok _ _ _ _ _ Ho), (bind_ok _ _ _ _ _ Hi). reflexivity.
Qed.

(** A link between two typed nodes, whatever sockets the keys resolve to. *)
Lemma runs_connect_typed (s : scene) (a b : nat) (tya tyb : string) (ka kb : key)
    (Q : unit -> scene -> Prop) :
  has_type s a tya = true -> has_type s b tyb = true ->
  (exists o, resolve a (sockets_out h tya) ka = Ok o) ->
  (exists i, resolve b (sockets_in h tyb) kb = Ok i) ->
  (forall o i, resolve a (sockets_out h tya) ka = Ok o ->
               resolve b (sockets_in h tyb) kb = Ok i ->
               Q tt (with_links (relink o i) s)) ->
  runs (connect (outputs h a ka) (inputs h b kb)) s Q.
Proof.
  intros Ha Hb [o Ho] [i Hi] HQ. apply (runs_connect _ _ _ o i).
  - rewrite (outputs_typed _ _ _ _ Ha). now rewrite Ho.
  - rewrite (inputs_typed _ _ _ _ Hb). now rewrite Hi.
  - now apply HQ.
Qed.

Variable s0 : scene.

Lemma runs_nodes_new (c : node_class) (s : scene) (tys : list string)
    (Q : nat -> scene -> Prop) :
  grows_by s0 s tys ->
  (forall s', grows_by s0 s' (tys ++ [type_of_class c]) -> links s' = links s ->
              (forall n nd, nodes s !! n = Some nd -> nodes s' !! n = Some nd) ->
              Q (length (nodes s0) + length tys) s') ->
  runs (nodes_new c) s Q.
Proof.
  intros Hg HQ. eapply runs_eq; [reflexivity|].
  rewrite (grows_length _ _ _ Hg).
  apply HQ; [now apply grows_node_new | reflexivity|].
  intros n nd Hnd. cbn [with_nodes nodes]. now apply lookup_app_l_Some.
Qed.

(** An assignment to an attribute of a node made since [s0]. *)
Lemma runs_update_node (k : nat) (ty : string) (f : node -> node) (s : scene)
    (tys : list string) (Q : unit -> scene -> Prop) :
  grows_by s0 s tys -> tys !! k = Some ty ->
  (forall nd, type (f nd) = type nd) ->
  (forall s', grows_by s0 s' tys -> links s' = links s ->
              (exists nd, nodes s' !! (length (nodes s0) + k) = Some (f nd)) ->
              Q tt s') ->
  runs (update_node (length (nodes s0) + k) f) s Q.
Proof.
  intros Hg Hk Hf HQ.
  pose proof (grows_new_type _ _ _ _ _ Hg Hk) as Hty.
  apply has_type_iff in Hty as (nd & Hnd & _).
  eapply runs_eq.
  - unfold update_node. rewrite (bind_ok _ _ _ _ _ (read_node_ok _ _ _ Hnd)). reflexivity.
  - apply HQ; [now apply grows_node_update | reflexivity|].
    exists nd. cbn [with_nodes nodes].
    apply list_lookup_insert_eq. eapply lookup_lt_Some; eassumption.
Qed.

Lemma runs_principled_location (s : scene) (tys : list string) (pn : nat) (pnd : node)
    (Q : float * float -> scene -> Prop) :
  grows_by s0 s tys -> principled_node p = Some pn -> nodes s0 !! pn = Some pnd ->
  Q (location pnd) s -> runs (principled_location p) s Q.
Proof.
  intros Hg Hpn Hpnd HQ. eapply runs_eq; [|exact HQ].
  unfold principled_location, principled. rewrite Hpn.
  assert (ret pn s = (Ok pn, s)) as Hret by reflexivity.
  rewrite (bind_ok _ _ _ _ _ Hret).
  now rewrite (bind_ok _ _ _ _ _ (read_node_ok _ _ _ (grows_old _ _ _ _ _ Hg Hpnd))).
Qed.

Lemma runs_new_white_node (place : float * float -> float * float) (s : scene)
    (tys : list string) (pn : nat) (pnd : node) (Q : nat -> scene -> Prop) :
  grows_by s0 s tys -> principled_node p = Some pn -> nodes s0 !! pn = Some pnd ->
  1 <= length (sockets_out h "RGB") ->
  (forall s', grows_by s0 s' (tys ++ ["RGB"]) -> links s' = links s ->
              Q (length (nodes s0) + length tys) s') ->
  runs (new_white_node h p place) s Q.
Proof.
  intros Hg Hpn Hpnd Hrgb HQ. unfold new_white_node.
  assert ((tys ++ ["RGB"]) !! length tys = Some "RGB") as Hk by apply lookup_snoc.
  destruct (resolve_index (length (nodes s0) + length tys) (sockets_out h "RGB") 0)
    as [nm Hres]; [lia|].
  apply runs_bind. apply (runs_nodes_new ShaderNodeRGB s tys); [exact Hg|].
  intros s1 G1 L1 _.
  apply runs_bind. eapply runs_outputs;
    [eapply grows_new_type; [exact G1 | exact Hk] | exact Hres |].
  apply runs_bind. unfold set_out_default. cbn [sock_node].
  eapply (runs_update_node (length tys)); [exact G1 | exact Hk | reflexivity |].
  intros s2 G2 L2 _.
  apply runs_bind. eapply runs_principled_location; [exact G2 | exact Hpn | exact Hpnd |].
  apply runs_bind. unfold set_location.
  eapply (runs_update_node (length tys)); [exact G2 | exact Hk | reflexivity |].
  intros s3 G3 L3 _.
  apply runs_ret. apply HQ; [exact G3 | congruence].
Qed.

End Rules.

(** ** The blocks of import_second_shader *)

Ltac new_type G := eapply grows_new_type; [exact G | reflexivity].
Ltac old_type G H := eapply grows_has_type; [exact G | exact H].

Section TranslucentBlocks.

Variable h : host.
Variable p : processor.
Hypothesis sockets_ok : shader_sockets h.

Lemma translucent_setup_runs (s0 : scene) (trm pn : nat) (pnd : node) :
  principled_node p = Some pn -> nodes s0 !! pn = Some pnd ->
  has_type s0 trm "TEX_IMAGE" = true ->
  runs (translucent_setup h p trm) s0
    (fun t s' => t = length (nodes s0) + 2 /\
                 grows_by s0 s' ["MIX_RGB"; "RGB"; "BSDF_TRANSLUCENT"]).
Proof.
  intros Hpn Hpnd Htrm. unfold translucent_setup.
  pose proof (mix_rgb_inputs h sockets_ok) as Hmix.
  apply runs_bind. apply (runs_nodes_new s0 ShaderNodeMixRGB s0 []); [apply grows_refl|].
  intros s1 G1 _ _. cbn [app length type_of_class] in G1 |- *.
  apply runs_bind. unfold set_blend_type.
  eapply (runs_update_node s0 0); [exact G1 | reflexivity | reflexivity |].
  intros s2 G2 _ _.
  destruct (resolve_name (length (nodes s0) + 0) _ _ (mix_rgb_fac h sockets_ok))
    as [iFac HFac].
  apply runs_bind. eapply runs_inputs; [new_type G2 | exact HFac |].
  apply runs_bind. unfold set_in_default. cbn [sock_node].
  eapply (runs_update_node s0 0); [exact G2 | reflexivity | reflexivity |].
  intros s3 G3 _ _.
  apply runs_bind.
  eapply (runs_new_white_node h p s0);
    [exact G3 | exact Hpn | exact Hpnd | apply (rgb_output h sockets_ok) |].
  intros s4 G4 _. cbn [app length] in G4 |- *.
  apply runs_bind. eapply runs_connect_typed;
    [old_type G4 Htrm | new_type G4
    | apply resolve_name_some, (tex_image_color h sockets_ok)
    | apply resolve_index_some; lia |].
  intros o1 i1 _ _.
  pose proof (grows_links _ _ _ (relink o1 i1) G4) as G5.
  apply runs_bind. eapply runs_connect_typed;
    [new_type G5 | new_type G5
    | apply resolve_index_some, (rgb_output h sockets_ok)
    | apply resolve_index_some; lia |].
  intros o2 i2 _ _.
  pose proof (grows_links _ _ _ (relink o2 i2) G5) as G6.
  apply runs_bind. eapply (runs_nodes_new s0 ShaderNodeBsdfTranslucent); [exact G6|].
  intros s7 G7 _ _. cbn [app length type_of_class] in G7 |- *.
  apply runs_bind. eapply runs_connect_typed;
    [new_type G7 | new_type G7
    | apply resolve_name_some, (mix_rgb_color h sockets_ok)
    | apply resolve_name_some, (translucent_color h sockets_ok) |].
  intros o3 i3 _ _.
  apply runs_ret. split; [reflexivity|]. now apply grows_links.
Qed.

Lemma find_normal_map_type (s : scene) (nm : nat) :
  find_normal_map p s = Some nm -> has_type s nm "NORMAL_MAP" = true.
Proof.
  unfold find_normal_map.
  destruct (List.find _ (links s)) as [l|] eqn:Hfind; [|discriminate].
  intros [= <-]. apply find_some in Hfind as [_ Hl].
  now apply andb_true_iff in Hl as [_ Hty].
Qed.

Lemma share_normal_map_runs (s : scene) (t : nat) :
  has_type s t "BSDF_TRANSLUCENT" = true ->
  runs (share_normal_map h p t) s (fun _ s' => grows_by s s' []).
Proof.
  intros Ht. unfold share_normal_map.
  apply runs_bind. eapply runs_eq; [reflexivity|].
  destruct (find_normal_map p s) as [nm|] eqn:Hfind.
  - eapply runs_connect_typed;
      [exact (find_normal_map_type _ _ Hfind) | exact Ht
      | apply resolve_name_some, (normal_map_normal h sockets_ok)
      | apply resolve_name_some, (translucent_normal h sockets_ok) |].
    intros o i _ _. apply grows_links, grows_refl.
  - apply runs_ret, grows_refl.
Qed.

End TranslucentBlocks.

(** ** Links into a socket *)

Section LinksInto.

Lemma same_socket_refl (a : socket) : same_socket a a = true.
Proof. unfold same_socket. now rewrite !Nat.eqb_refl. Qed.

Lemma same_socket_true (a b : socket) :
  same_socket a b = true <-> sock_node a = sock_node b /\ sock_index a = sock_index b.
Proof. unfold same_socket. now rewrite andb_true_iff, !Nat.eqb_eq. Qed.

Lemma same_socket_other_node (a b : socket) :
  sock_node a <> sock_node b -> same_socket a b = false.
Proof.
  intros Hne. destruct (same_socket a b) eqn:E; [|reflexivity].
  apply same_socket_true in E as [Hn _]. contradiction.
Qed.

Lemma same_socket_other_index (a b : socket) :
  sock_index a <> sock_index b -> same_socket a b = false.
Proof.
  intros Hne. destruct (same_socket a b) eqn:E; [|reflexivity].
  apply same_socket_true in E as [_ Hi]. contradiction.
Qed.

(** The new link is the only link into its input socket. *)
Lemma links_into_relink (o i : socket) (ls : list link) :
  links_into i (relink o i ls) = [Link o i].
Proof.
  unfold links_into, relink. rewrite List.filter_app. cbn [List.filter to_socket].
  rewrite same_socket_refl.
  replace (List.filter _ (List.filter _ ls)) with (@nil link); [reflexivity|].
  induction ls as [|l ls IH]; [reflexivity|]. cbn [List.filter].
  destruct (same_socket (to_socket l) i) eqn:E; cbn [negb]; [exact IH|].
  cbn [List.filter]. now rewrite E.
Qed.

(** A new link leaves the links into every other socket as they were. *)
Lemma links_into_relink_other (o i c : socket) (ls : list link) :
  same_socket i c = false -> links_into c (relink o i ls) = links_into c ls.
Proof.
  intros Hic. unfold links_into, relink. rewrite List.filter_app. cbn [List.filter to_socket].
  rewrite Hic, app_nil_r.
  induction ls as [|l ls IH]; [reflexivity|]. cbn [List.filter].
  destruct (same_socket (to_socket l) i) eqn:Ei; cbn [negb].
  - destruct (same_socket (to_socket l) c) eqn:Ec; [|exact IH].
    exfalso. apply same_socket_true in Ei as [Hn Hi], Ec as [Hn' Hi'].
    assert (same_socket i c = true) by (apply same_socket_true; split; congruence).
    congruence.
  - cbn [List.filter]. now rewrite IH.
Qed.

End LinksInto.

Section ShaderBlocks.

Variable h : host.
Variable p : processor.
Hypothesis sockets_ok : shader_sockets h.

Lemma shader_sum_runs (s0 : scene) (t pn : nat) :
  principled_node p = Some pn ->
  has_type s0 pn "BSDF_PRINCIPLED" = true ->
  has_type s0 t "BSDF_TRANSLUCENT" = true ->
  runs (shader_sum h p t) s0
    (fun r s' =>
       r = (length (nodes s0) + 0, length (nodes s0) + 1) /\
       grows_by s0 s' ["MIX_SHADER"; "ADD_SHADER"] /\
       exists bsdf a0 msh a1,
         resolve pn (sockets_out h "BSDF_PRINCIPLED") (ByName "BSDF") = Ok bsdf /\
         resolve (length (nodes s0) + 1) (sockets_in h "ADD_SHADER") (ByIndex 0) = Ok a0 /\
         resolve (length (nodes s0) + 0) (sockets_out h "MIX_SHADER") (ByName "Shader") = Ok msh /\
         resolve (length (nodes s0) + 1) (sockets_in h "ADD_SHADER") (ByIndex 1) = Ok a1 /\
         links_into a0 (links s') = [Link bsdf a0] /\
         links_into a1 (links s') = [Link msh a1] /\
         exists fac nd,
           resolve (length (nodes s0) + 0) (sockets_in h "MIX_SHADER") (ByName "Fac")
             = Ok fac /\
           nodes s' !! (length (nodes s0) + 0) = Some nd /\
           In (sock_index fac, one) (in_defaults nd)).
Proof.
  intros Hpn Hprin Ht. unfold shader_sum.
  pose proof (mix_shader_inputs h sockets_ok) as Hmix.
  pose proof (add_shader_inputs h sockets_ok) as Hadd.
  apply runs_bind. apply (runs_nodes_new s0 ShaderNodeMixShader s0 []); [apply grows_refl|].
  intros s1 G1 _ _. cbn [app length type_of_class] in G1 |- *.
  destruct (resolve_name (length (nodes s0) + 0) _ _ (mix_shader_fac h sockets_ok))
    as [iFac HFac].
  apply runs_bind. eapply runs_inputs; [new_type G1 | exact HFac |].
  apply runs_bind. unfold set_in_default. cbn [sock_node].
  eapply (runs_update_node s0 0); [exact G1 | reflexivity | reflexivity |].
  intros s2 G2 _ [mnd Hmnd]. cbn [sock_index] in Hmnd.
  apply runs_bind. eapply runs_connect_typed;
    [old_type G2 Ht | new_type G2
    | apply resolve_name_some, (translucent_bsdf h sockets_ok)
    | apply resolve_index_some; lia |].
  intros o1 i1 _ _.
  pose proof (grows_links _ _ _ (relink o1 i1) G2) as G3.
  apply runs_bind. eapply (runs_nodes_new s0 ShaderNodeAddShader); [exact G3|].
  intros s4 G4 _ K4. cbn [app length type_of_class] in G4 |- *.
  specialize (K4 _ _ Hmnd).
  destruct (resolve_name pn _ _ (principled_bsdf h sockets_ok)) as [iB HB].
  destruct (resolve_index (length (nodes s0) + 1) (sockets_in h "ADD_SHADER") 0)
    as [nm0 H0]; [lia|].
  destruct (resolve_name (length (nodes s0) + 0) _ _ (mix_shader_shader h sockets_ok))
    as [iS HS].
  destruct (resolve_index (length (nodes s0) + 1) (sockets_in h "ADD_SHADER") 1)
    as [nm1 H1]; [lia|].
  apply runs_bind. eapply runs_connect.
  { rewrite (principled_outputs_typed h p _ _ _ _ Hpn (grows_has_type _ _ _ _ _ G4 Hprin)).
    now rewrite HB. }
  { rewrite (inputs_typed h _ _ "ADD_SHADER" _); [now rewrite H0 | new_type G4]. }
  pose proof (grows_links _ _ _
    (relink (Socket pn iB "BSDF") (Socket (length (nodes s0) + 1) 0 nm0)) G4) as G5.
  apply runs_bind. eapply runs_connect.
  { rewrite (outputs_typed h _ _ "MIX_SHADER" _); [now rewrite HS | new_type G5]. }
  { rewrite (inputs_typed h _ _ "ADD_SHADER" _); [now rewrite H1 | new_type G5]. }
  apply runs_ret. split; [reflexivity|]. split; [now apply grows_links|].
  eexists _, _, _, _. split; [exact HB|]. split; [exact H0|].
  split; [exact HS|]. split; [exact H1|].
  cbn [with_links links]. split; [|split].
  - rewrite links_into_relink_other by (apply same_socket_other_index; cbn; lia).
    apply links_into_relink.
  - apply links_into_relink.
  - eexists _, _. split; [exact HFac|]. split; [exact K4|].
    cbn [in_defaults sock_index]. now left.
Qed.

Lemma find_type_from_some (ty : string) (nds : list node) (i k : nat) :
  find_type_from ty i nds = Some k ->
  exists nd, nds !! (k - i) = Some nd /\ type nd = ty /\ i <= k.
Proof.
  revert i. induction nds as [|nd nds IH]; intros i; cbn [find_type_from]; [discriminate|].
  destruct (String.eqb (type nd) ty) eqn:E.
  - intros [= <-]. apply String.eqb_eq in E. exists nd.
    rewrite Nat.sub_diag. auto.
  - intros Hfind. destruct (IH _ Hfind) as (nd' & Hnd' & Hty & Hle).
    exists nd'. replace (k - i) with (S (k - S i)) by lia. split; [exact Hnd'|]. split; [exact Hty | lia].
Qed.

Lemma material_output_runs (s0 : scene) :
  runs material_output s0
    (fun out s' => has_type s' out "OUTPUT_MATERIAL" = true /\
                   links s' = links s0 /\ exists tys, grows_by s0 s' tys).
Proof.
  unfold material_output. apply runs_bind. eapply runs_eq; [reflexivity|].
  destruct (find_type_from "OUTPUT_MATERIAL" 0 (nodes s0)) as [out|] eqn:Hfind.
  - apply runs_ret. apply find_type_from_some in Hfind as (nd & Hnd & Hty & _).
    rewrite Nat.sub_0_r in Hnd.
    split; [apply has_type_iff; eauto|]. split; [reflexivity|].
    exists []. apply grows_refl.
  - apply (runs_nodes_new s0 ShaderNodeOutputMaterial s0 []); [apply grows_refl|].
    intros s1 G1 L1 _. cbn [app length type_of_class] in G1 |- *.
    split; [new_type G1|]. split; [exact L1|]. eauto.
Qed.

End ShaderBlocks.

Lemma has_type_neq (s : scene) (a b : nat) (ta tb : string) :
  has_type s a ta = true -> has_type s b tb = true -> ta <> tb -> a <> b.
Proof.
  intros Ha Hb Hne ->. apply Hne. eapply has_type_unique; eassumption.
Qed.

(** The node cached at construction is a principled node of the tree. *)
Lemma init_principled_type (h : host) (sc : scene) (dir : string) (pn : nat) :
  principled_node (init h sc dir) = Some pn ->
  has_type sc pn "BSDF_PRINCIPLED" = true.
Proof.
  cbn [init principled_node]. unfold _find_principled_node. intros Hfind.
  apply find_type_from_some in Hfind as (nd & Hnd & Hty & _).
  rewrite Nat.sub_0_r in Hnd. apply has_type_iff. eauto.
Qed.

(** C6: on a host that gives the nodes of the recipe their sockets, with a
    principled node in the material and both [_trm] and [_thc] resolved,
    [import_second_shader] returns normally and leaves a material-output
    node whose Surface input is fed by the single link from the Shader
    output of an add-shader node; the two inputs of that add shader are fed
    by the BSDF output of the principled node and by the Shader output of
    the mix-shader node; and the Fac input of the mix shader, whose default
    value was set to 1.0, is fed by the single link from the Color output of
    the image-texture node that holds the [_thc] image. *)
Theorem import_second_shader_trm_and_thc
    (h : host) (p : processor) (sc : scene) (pn : nat) :
  shader_sockets h ->
  principled_node p = Some pn ->
  has_type sc pn "BSDF_PRINCIPLED" = true ->
  ~ texture_absent h p "_trm" ->
  ~ texture_absent h p "_thc" ->
  exists sc' out add mix thc image thc_file,
    import_second_shader h p sc = (Ok tt, sc') /\
    has_type sc' out "OUTPUT_MATERIAL" = true /\
    has_type sc' add "ADD_SHADER" = true /\
    has_type sc' mix "MIX_SHADER" = true /\
    drives h sc' add (ByName "Shader") out (ByName "Surface") /\
    drives h sc' pn (ByName "BSDF") add (ByIndex 0) /\
    drives h sc' mix (ByName "Shader") add (ByIndex 1) /\
    drives h sc' thc (ByName "Color") mix (ByName "Fac") /\
    (exists fac nd,
       inputs h mix (ByName "Fac") sc' = (Ok fac, sc') /\
       nodes sc' !! mix = Some nd /\ In (sock_index fac, one) (in_defaults nd)) /\
    nodes sc' !! thc = Some (texture_node image) /\
    PyStr.lower thc_file = PyStr.lower (expected_filename (base_name p) "_thc") /\
    images sc' !! image
      = Some (loaded_image h (PyStr.path_join (file_path p) thc_file) true).
Proof.
  intros Hh Hpn Tpn0 Ptrm Pthc.
  destruct (present_resolves _ _ _ Ptrm) as (_ & ftrm & _ & _ & _ & Htrm).
  destruct (present_resolves _ _ _ Pthc) as (_ & fthc & _ & _ & Hlow & Hthc).
  set (ptrm := PyStr.path_join (file_path p) ftrm) in *.
  set (pthc := PyStr.path_join (file_path p) fthc) in *.
  set (s1 := with_texture h ptrm false sc).
  set (s2 := with_texture h pthc true s1).
  set (trm := length (nodes sc)).
  set (thc := length (nodes s1)).
  assert (has_type s2 trm "TEX_IMAGE" = true) as Ttrm.
  { apply has_type_iff. exists (texture_node (length (images sc))).
    split; [|reflexivity].
    cbn [s2 s1 with_texture nodes]. apply lookup_app_l_Some, lookup_snoc. }
  assert (nodes s2 !! thc = Some (texture_node (length (images s1)))) as Nthc
    by apply lookup_snoc.
  assert (has_type s2 thc "TEX_IMAGE" = true) as Tthc
    by (apply has_type_iff; eauto).
  assert (images s2 !! length (images s1) = Some (loaded_image h pthc true)) as Ithc
    by apply lookup_snoc.
  assert (has_type s2 pn "BSDF_PRINCIPLED" = true) as Tpn.
  { apply has_type_iff in Tpn0 as (nd & Hnd & Hty). apply has_type_iff.
    exists nd. split; [|exact Hty].
    cbn [s2 s1 with_texture nodes]. now apply lookup_app_l_Some, lookup_app_l_Some. }
  destruct (proj1 (has_type_iff _ _ _) Tpn) as (pnd & Hpnd & _).
  enough (runs (import_second_shader h p) sc
            (fun _ sc' => exists out add mix,
               has_type sc' out "OUTPUT_MATERIAL" = true /\
               has_type sc' add "ADD_SHADER" = true /\
               has_type sc' mix "MIX_SHADER" = true /\
               drives h sc' add (ByName "Shader") out (ByName "Surface") /\
               drives h sc' pn (ByName "BSDF") add (ByIndex 0) /\
               drives h sc' mix (ByName "Shader") add (ByIndex 1) /\
               drives h sc' thc (ByName "Color") mix (ByName "Fac") /\
               (exists fac nd,
                  inputs h mix (ByName "Fac") sc' = (Ok fac, sc') /\
                  nodes sc' !! mix = Some nd /\
                  In (sock_index fac, one) (in_defaults nd)) /\
               nodes sc' !! thc = Some (texture_node (length (images s1))) /\
               images sc' !! length (images s1) = Some (loaded_image h pthc true)))
    as ([] & sc' & Hrun & out & add & mix & Hprops).
  { exists sc', out, add, mix, thc, (length (images s1)), fthc.
    split; [exact Hrun|]. intuition. }
  unfold import_second_shader.
  apply runs_bind. eapply runs_eq; [apply import_texture_some; exact Htrm|].
  apply runs_bind. eapply runs_eq; [apply import_texture_some; exact Hthc|].
  fold s1. fold s2. fold trm.
  apply runs_bind. eapply runs_weaken;
    [eapply translucent_setup_runs; eassumption|].
  intros t s3 [-> G3]. cbn beta.
  apply runs_bind. eapply runs_weaken;
    [eapply share_normal_map_runs; [eassumption | new_type G3]|].
  intros u4 s4 G4. cbn beta.
  pose proof (grows_trans _ _ _ _ _ G3 G4) as G24. cbn [app] in G24.
  apply runs_bind. eapply runs_weaken;
    [eapply (shader_sum_runs h p Hh s4);
       [exact Hpn | old_type G24 Tpn | eapply grows_has_type; [exact G4 | new_type G3]]|].
  intros r s5 (-> & G5 & bsdf & a0 & msh & a1 & HB & H0 & HS & H1 & L0 & L1
               & fac & mnd & HF & Hmnd & Hone).
  cbn beta. cbn [fst snd].
  set (mix := length (nodes s4) + 0) in *.
  set (add := length (nodes s4) + 1) in *.
  apply runs_bind. eapply runs_weaken; [apply material_output_runs|].
  intros out s6 (Tout & L6 & tys & G6). cbn beta.
  pose proof (grows_trans _ _ _ _ _ G24 (grows_trans _ _ _ _ _ G5 G6)) as G26.
  assert (has_type s6 add "ADD_SHADER" = true) as Tadd
    by (eapply grows_has_type; [exact G6 | new_type G5]).
  assert (has_type s6 mix "MIX_SHADER" = true) as Tmix
    by (eapply grows_has_type; [exact G6 | new_type G5]).
  assert (has_type s6 thc "TEX_IMAGE" = true) as Tthc6 by old_type G26 Tthc.
  assert (has_type s6 pn "BSDF_PRINCIPLED" = true) as Tpn6 by old_type G26 Tpn.
  destruct (resolve_name add _ _ (add_shader_shader h Hh)) as [iAS HAS].
  destruct (resolve_name out _ _ (output_surface h Hh)) as [iSurf HSurf].
  destruct (resolve_name thc _ _ (tex_image_color h Hh)) as [iTC HTC].
  destruct (resolve_name mix _ _ (mix_shader_fac h Hh)) as [iFac HFac].
  apply runs_bind. eapply runs_connect.
  { rewrite (outputs_typed h _ _ _ _ Tadd). now rewrite HAS. }
  { rewrite (inputs_typed h _ _ _ _ Tout). now rewrite HSurf. }
  set (s7 := with_links _ s6).
  eapply runs_connect.
  { rewrite (outputs_typed h s7 _ _ _ Tthc6). now rewrite HTC. }
  { rewrite (inputs_typed h s7 _ _ _ Tmix). now rewrite HFac. }
  set (s8 := with_links _ s7).
  assert (mix <> out) as Nmo by (eapply has_type_neq; [exact Tmix | exact Tout | discriminate]).
  assert (mix <> add) as Nma by (eapply has_type_neq; [exact Tmix | exact Tadd | discriminate]).
  assert (out <> add) as Noa by (eapply has_type_neq; [exact Tout | exact Tadd | discriminate]).
  pose proof (resolve_node _ _ _ _ H0) as Na0.
  pose proof (resolve_node _ _ _ _ H1) as Na1.
  exists out, add, mix.
  split; [exact Tout|]. split; [exact Tadd|]. split; [exact Tmix|].
  split; [|split; [|split; [|split; [|split; [|split]]]]].
  - eexists _, _. split; [|split].
    + rewrite (outputs_typed h s8 _ _ _ Tadd). now rewrite HAS.
    + rewrite (inputs_typed h s8 _ _ _ Tout). now rewrite HSurf.
    + cbn [s8 s7 with_links links].
      rewrite links_into_relink_other by (apply same_socket_other_node; exact Nmo).
      apply links_into_relink.
  - eexists _, _. split; [|split].
    + rewrite (outputs_typed h s8 _ _ _ Tpn6). now rewrite HB.
    + rewrite (inputs_typed h s8 _ _ _ Tadd). now rewrite H0.
    + cbn [s8 s7 with_links links].
      rewrite links_into_relink_other
        by (apply same_socket_other_node; cbn [sock_node]; congruence).
      rewrite links_into_relink_other
        by (apply same_socket_other_node; cbn [sock_node]; congruence).
      now rewrite L6.
  - eexists _, _. split; [|split].
    + rewrite (outputs_typed h s8 _ _ _ Tmix). now rewrite HS.
    + rewrite (inputs_typed h s8 _ _ _ Tadd). now rewrite H1.
    + cbn [s8 s7 with_links links].
      rewrite links_into_relink_other
        by (apply same_socket_other_node; cbn [sock_node]; congruence).
      rewrite links_into_relink_other
        by (apply same_socket_other_node; cbn [sock_node]; congruence).
      now rewrite L6.
  - eexists _, _. split; [|split].
    + rewrite (outputs_typed h s8 _ _ _ Tthc6). now rewrite HTC.
    + rewrite (inputs_typed h s8 _ _ _ Tmix). now rewrite HFac.
    + cbn [s8 with_links links]. apply links_into_relink.
  - exists fac, mnd. split; [|split; [|exact Hone]].
    + rewrite (inputs_typed h s8 _ _ _ Tmix). fold mix in HF. now rewrite HF.
    + cbn [s8 s7 with_links nodes]. eapply grows_old; [exact G6 | exact Hmnd].
  - cbn [s8 s7 with_links nodes]. eapply grows_old; [exact G26 | exact Nthc].
  - cbn [s8 s7 with_links images].
    destruct G26 as (_ & -> & _). exact Ithc.
Qed.

(** The sample host gives every node of the recipe its sockets. *)
Lemma sample_sockets (files : option (list string)) :
  shader_sockets (Sample.the_host files).
Proof. split; cbn; solve [auto 10 | lia]. Qed.

(** C6 on [Sample.bare] with [Char_trm.png] and [Char_thc.png] in the
    directory. *)
Lemma import_second_shader_trm_and_thc_witness :
  shader_sockets (Sample.the_host (Some ["Char_trm.png"; "Char_thc.png"])) /\
  ~ texture_absent (Sample.the_host (Some ["Char_trm.png"; "Char_thc.png"]))
      (init (Sample.the_host (Some ["Char_trm.png"; "Char_thc.png"])) Sample.bare "/tex")
      "_trm" /\
  ~ texture_absent (Sample.the_host (Some ["Char_trm.png"; "Char_thc.png"]))
      (init (Sample.the_host (Some ["Char_trm.png"; "Char_thc.png"])) Sample.bare "/tex")
      "_thc" /\
  exists sc' out add mix thc,
    import_second_shader (Sample.the_host (Some ["Char_trm.png"; "Char_thc.png"]))
      (init (Sample.the_host (Some ["Char_trm.png"; "Char_thc.png"])) Sample.bare "/tex")
      Sample.bare = (Ok tt, sc') /\
    has_type sc' out "OUTPUT_MATERIAL" = true /\
    drives (Sample.the_host (Some ["Char_trm.png"; "Char_thc.png"])) sc'
      add (ByName "Shader") out (ByName "Surface") /\
    drives (Sample.the_host (Some ["Char_trm.png"; "Char_thc.png"])) sc'
      thc (ByName "Color") mix (ByName "Fac").
Proof.
  assert (forall sfx, In sfx ["_trm"; "_thc"] ->
            ~ texture_absent (Sample.the_host (Some ["Char_trm.png"; "Char_thc.png"]))
                (init (Sample.the_host (Some ["Char_trm.png"; "Char_thc.png"]))
                   Sample.bare "/tex") sfx) as Hpresent.
  { intros sfx [<-|[<-|[]]] Habs; apply texture_absent_iff in Habs; discriminate Habs. }
  split; [apply sample_sockets|].
  split; [apply Hpresent; now left|].
  split; [apply Hpresent; right; now left|].
  destruct (import_second_shader_trm_and_thc
              (Sample.the_host (Some ["Char_trm.png"; "Char_thc.png"]))
              (init (Sample.the_host (Some ["Char_trm.png"; "Char_thc.png"]))
                 Sample.bare "/tex")
              Sample.bare 0 (sample_sockets _) eq_refl eq_refl
              (Hpresent "_trm" (or_introl eq_refl))
              (Hpresent "_thc" (or_intror (or_introl eq_refl))))
    as (sc' & out & add & mix & thc & image & file & Hrun & Tout & _ & _ & Dsurf & _ & _ & Dfac & _).
  exists sc', out, add, mix, thc. auto.
Defined.

(** ** import_emission: the source *)

Section Emission.

Variable h : host.
Variable p : processor.

Lemma find_emission_link_principled (sc : scene) (e : nat) :
  find_emission_link p sc = Some e -> exists pn, principled_node p = Some pn.
Proof.
  unfold find_emission_link.
  destruct (List.find _ (links sc)) as [l|] eqn:Hfind; [|discriminate].
  intros _. apply find_some in Hfind as [_ Hl].
  apply andb_true_iff in Hl as [Hends _]. unfold ends_at in Hends.
  destruct (principled_node p) as [pn|]; [eauto | discriminate].
Qed.

(** A linked source is taken as it is: no import is attempted. *)
Lemma emission_source_linked (sc : scene) (e : nat) :
  find_emission_link p sc = Some e ->
  emission_source h p sc = (Ok (Some e), sc).
Proof. intros Hfind. unfold emission_source, bind, get, ret. now rewrite Hfind. Qed.

End Emission.

(** C10: when the link search of [import_emission] finds an image-texture
    node wired into the Emission Color input of the principled node and
    that node holds no image, the call returns normally and leaves the
    scene as it was, whatever the directory holds. *)
Theorem import_emission_source_without_image
    (h : host) (p : processor) (sc : scene) (e : nat) (nd : node) :
  find_emission_link p sc = Some e ->
  nodes sc !! e = Some nd ->
  node_image nd = None ->
  import_emission h p sc = (Ok tt, sc).
Proof.
  intros Hfind Hnode Himage.
  destruct (find_emission_link_principled _ _ _ Hfind) as [pn Hpn].
  unfold import_emission. rewrite Hpn. unfold bind.
  rewrite (emission_source_linked h p sc e Hfind).
  unfold read_node. rewrite Hnode, Himage. reflexivity.
Qed.

(** C10 on [Sample.empty_emission], with a [Char_emm.png] in the directory
    that is never looked for. *)
Lemma import_emission_source_without_image_witness :
  find_emission_link
    (init (Sample.the_host (Some ["Char_emm.png"])) Sample.empty_emission "/tex")
    Sample.empty_emission = Some 1 /\
  import_emission (Sample.the_host (Some ["Char_emm.png"]))
    (init (Sample.the_host (Some ["Char_emm.png"])) Sample.empty_emission "/tex")
    Sample.empty_emission = (Ok tt, Sample.empty_emission).
Proof.
  split; [reflexivity|].
  apply (import_emission_source_without_image _ _ Sample.empty_emission 1
           (Sample.plain "TEX_IMAGE")); reflexivity.
Defined.

(** ** The grayscale classifier *)

Section Grayscale.

Lemma SFeqb_same_number (x y : float) : SFeqb x y = true <-> same_number x y.
Proof.
  unfold SFeqb.
  destruct x as [sx|sx| |sx mx ex], y as [sy|sy| |sy my ey]; cbn [SFcompare same_number];
    try destruct sx; try destruct sy;
    try (split; [discriminate | tauto]);
    try (split; discriminate);
    try (split; reflexivity);
    try (split; [discriminate | intros (H & _); discriminate H]).
  - destruct (Z.compare_spec ex ey) as [->|Hlt|Hgt];
      try (split; [discriminate | intros (_ & _ & H); lia]).
    rewrite Pos.compare_cont_spec. cbn [Pos.switch_Eq].
    destruct (Pos.compare_spec mx my) as [->|Hlt|Hgt]; cbn [CompOpp];
      try (split; [discriminate | intros (_ & H & _); lia]).
    split; auto.
  - destruct (Z.compare_spec ex ey) as [->|Hlt|Hgt];
      try (split; [discriminate | intros (_ & _ & H); lia]).
    rewrite Pos.compare_cont_spec. cbn [Pos.switch_Eq].
    destruct (Pos.compare_spec mx my) as [->|Hlt|Hgt];
      try (split; [discriminate | intros (_ & H & _); lia]).
    split; auto.
Qed.

Lemma same_number_sym (x y : float) : same_number x y -> same_number y x.
Proof.
  destruct x, y; cbn [same_number]; try tauto; try congruence.
  intros (-> & -> & ->). auto.
Qed.

Lemma same_number_trans (x y z : float) :
  same_number x y -> same_number y z -> same_number x z.
Proof.
  destruct x, y, z; cbn [same_number]; try tauto; try congruence.
  intros (-> & -> & ->) (-> & -> & ->). auto.
Qed.

(** The test of the loop body fails exactly on a pixel with R == G == B. *)
Lemma pixel_test (r g b : float) :
  fneq r g || fneq g b || fneq b r = false <-> SFeqb r g = true /\ SFeqb g b = true.
Proof.
  unfold fneq. rewrite !orb_false_iff, !negb_false_iff. split; [tauto|].
  intros [Hrg Hgb]. repeat split; try assumption.
  apply SFeqb_same_number. apply SFeqb_same_number in Hrg, Hgb.
  apply same_number_sym. eapply same_number_trans; eassumption.
Qed.

Variable px : list float.

(** The pixel whose red channel sits at index [j] has R == G == B. *)
Let grey_at (j : nat) : Prop :=
  exists r g b,
    px !! j = Some r /\ px !! (j + 1) = Some g /\ px !! (j + 2) = Some b /\
    SFeqb r g = true /\ SFeqb g b = true.

Lemma grayscale_loop_returns (n i : nat) :
  i + 4 * n <= length px -> exists b, grayscale_loop px n i = Ok b.
Proof.
  revert i. induction n as [|n IH]; intros i Hlen; cbn [grayscale_loop]; [eauto|].
  destruct (lookup_lt_is_Some_2 px i) as [r ->]; [lia|].
  destruct (lookup_lt_is_Some_2 px (i + 1)) as [g ->]; [lia|].
  destruct (lookup_lt_is_Some_2 px (i + 2)) as [b ->]; [lia|].
  destruct (fneq r g || fneq g b || fneq b r); [eauto|].
  apply IH. lia.
Qed.

Lemma grayscale_loop_true (n i : nat) :
  i + 4 * n <= length px ->
  grayscale_loop px n i = Ok true <-> forall k, k < n -> grey_at (i + 4 * k).
Proof.
  revert i. induction n as [|n IH]; intros i Hlen; cbn [grayscale_loop].
  - split; [intros _ k; lia | reflexivity].
  - destruct (lookup_lt_is_Some_2 px i) as [r Hr]; [lia|].
    destruct (lookup_lt_is_Some_2 px (i + 1)) as [g Hg]; [lia|].
    destruct (lookup_lt_is_Some_2 px (i + 2)) as [b Hb]; [lia|].
    rewrite Hr, Hg, Hb.
    destruct (fneq r g || fneq g b || fneq b r) eqn:Htest.
    + split; [discriminate|]. intros Hall. exfalso.
      destruct (Hall 0) as (r' & g' & b' & Hr' & Hg' & Hb' & Hrg & Hgb); [lia|].
      replace (i + 4 * 0) with i in * by lia.
      assert (Some r' = Some r) as [= ->] by (rewrite <- Hr; symmetry; exact Hr').
      assert (Some g' = Some g) as [= ->] by (rewrite <- Hg; symmetry; exact Hg').
      assert (Some b' = Some b) as [= ->] by (rewrite <- Hb; symmetry; exact Hb').
      assert (fneq r g || fneq g b || fneq b r = false) by (apply pixel_test; auto).
      congruence.
    + apply pixel_test in Htest as [Hrg Hgb]. rewrite IH by lia. split.
      * intros Hall [|k] Hk.
        -- replace (i + 4 * 0) with i by lia. exists r, g, b. auto.
        -- replace (i + 4 * S k) with (i + 4 + 4 * k) by lia. apply Hall. lia.
      * intros Hall k Hk.
        replace (i + 4 + 4 * k) with (i + 4 * S k) by lia. apply Hall. lia.
Qed.

End Grayscale.

Lemma range4_length_exact (n : nat) : n mod 4 = 0 -> n = 4 * range4_length n.
Proof.
  intros Hmod. unfold range4_length.
  pose proof (Nat.div_mod_eq n 4) as Hn. rewrite Hmod in Hn.
  replace (n + 3) with (n / 4 * 4 + 3) by lia.
  rewrite Nat.div_add_l by lia. rewrite (Nat.div_small 3 4) by lia. lia.
Qed.

(** On an RGBA buffer the classifier returns a boolean, and returns [True]
    exactly when every pixel has R == G == B. *)
Lemma is_grayscale_image_spec (im : image) :
  length (pixels im) mod 4 = 0 ->
  (_is_grayscale_image im = Ok true <-> all_grey (pixels im)) /\
  (_is_grayscale_image im = Ok false <-> ~ all_grey (pixels im)).
Proof.
  intros Hmod. unfold _is_grayscale_image.
  pose proof (range4_length_exact _ Hmod) as Hlen.
  set (n := range4_length (length (pixels im))) in *.
  assert (grayscale_loop (pixels im) n 0 = Ok true <-> all_grey (pixels im)) as Htrue.
  { rewrite grayscale_loop_true by lia. unfold all_grey, grey_pixel. split.
    - intros Hall k Hk. apply (Hall k). lia.
    - intros Hall k Hk. apply (Hall k). lia. }
  split; [exact Htrue|].
  destruct (grayscale_loop_returns (pixels im) n 0) as [[|] Hb]; [lia| |].
  - rewrite Hb. split; [discriminate|]. intros Hno. exfalso. apply Hno, Htrue, Hb.
  - split; [|auto]. intros _ Hall. apply Htrue in Hall. congruence.
Qed.

(** ** Runs that leave the images alone *)

Section Keeps.

Lemma keeps_bind {A B} (c : M A) (k : A -> M B) :
  keeps_images c -> (forall a, keeps_images (k a)) -> keeps_images (bind c k).
Proof.
  intros Hc Hk sc. unfold bind. specialize (Hc sc).
  destruct (c sc) as [[a|e] sc']; cbn [snd] in *; [|exact Hc].
  now rewrite Hk.
Qed.


Lemma keeps_ret {A} (a : A) : keeps_images (ret a).
Proof. intros sc. reflexivity. Qed.

Lemma keeps_raise {A} (e : exn) : keeps_images (@raise A e).
Proof. intros sc. reflexivity. Qed.

Lemma keeps_lift {A} (r : result A) : keeps_images (lift r).
Proof. intros sc. reflexivity. Qed.

Lemma keeps_get : keeps_images get.
Proof. intros sc. reflexivity. Qed.

Lemma keeps_nodes_new (c : node_class) : keeps_images (nodes_new c).
Proof. intros sc. reflexivity. Qed.

Lemma keeps_read_node (n : nat) : keeps_images (read_node n).
Proof. intros sc. unfold read_node. now destruct (nodes sc !! n). Qed.

Lemma keeps_update_node (n : nat) (f : node -> node) : keeps_images (update_node n f).
Proof.
  apply keeps_bind; [apply keeps_read_node|]. intros nd sc. reflexivity.
Qed.

Lemma keeps_links_new (o i : socket) : keeps_images (links_new o i).
Proof. intros sc. reflexivity. Qed.

Lemma keeps_principled (p : processor) : keeps_images (principled p).
Proof. intros sc. unfold principled. now destruct (principled_node p). Qed.

End Keeps.

Ltac keeps :=
  unfold connect, inputs, outputs, set_blend_type, set_location, set_image,
    set_in_default, set_out_default;
  repeat first
    [ apply keeps_bind; [|intros ?]
    | apply keeps_ret | apply keeps_raise | apply keeps_lift | apply keeps_get
    | apply keeps_nodes_new | apply keeps_read_node | apply keeps_update_node
    | apply keeps_links_new | apply keeps_principled
    | match goal with |- keeps_images (match ?x with _ => _ end) => destruct x end ].

(** ** import_emission: the colour space *)

Section EmissionColour.

Variable h : host.
Variable p : processor.

Lemma set_colorspace_ok (sc : scene) (i : nat) (im : image) (cs : string) :
  images sc !! i = Some im ->
  set_colorspace i cs sc
  = (Ok tt, with_images (fun ims => <[i := Image (filepath im) cs (pixels im)]> ims) sc).
Proof.
  intros Hi. unfold set_colorspace, update_image.
  rewrite (bind_ok _ _ _ _ _ (read_image_ok _ _ _ Hi)). reflexivity.
Qed.

(** What [import_emission] does to the image registry once its source is
    known: the classifier runs on the source image, which is marked
    Non-Color on [True] and left alone on [False]; nothing after that
    touches an image. *)
Lemma import_emission_images (sc sc1 : scene) (pn e i : nat) (nd : node) (im : image)
    (gray : bool) :
  principled_node p = Some pn ->
  emission_source h p sc = (Ok (Some e), sc1) ->
  nodes sc1 !! e = Some nd ->
  node_image nd = Some i ->
  images sc1 !! i = Some im ->
  _is_grayscale_image im = Ok gray ->
  images (final (import_emission h p sc))
  = if gray then <[i := mark_non_color im]> (images sc1) else images sc1.
Proof.
  intros Hpn Hsrc Hnd Himg Him Hgray.
  unfold import_emission, final. rewrite Hpn.
  rewrite (bind_ok _ _ _ _ _ Hsrc).
  rewrite (bind_ok _ _ _ _ _ (read_node_ok _ _ _ Hnd)). rewrite Himg.
  rewrite (bind_ok _ _ _ _ _ (read_image_ok _ _ _ Him)).
  rewrite Hgray.
  assert (forall s, lift (Ok gray) s = (Ok gray, s)) as Hlift by reflexivity.
  rewrite (bind_ok _ _ _ _ _ (Hlift sc1)).
  destruct gray.
  - rewrite (bind_ok _ _ _ _ _ (set_colorspace_ok _ _ _ "Non-Color" Him)).
    match goal with |- images (snd (?c ?s)) = _ =>
      assert (keeps_images c) as Hk by keeps; rewrite (Hk s) end.
    reflexivity.
  - assert (ret tt sc1 = (Ok tt, sc1)) as Hret by reflexivity.
    rewrite (bind_ok _ _ _ _ _ Hret).
    match goal with |- images (snd (?c ?s)) = _ =>
      assert (keeps_images c) as Hk by keeps; rewrite (Hk s) end.
    reflexivity.
Qed.

End EmissionColour.

(** C7: on an RGBA pixel buffer the classifier returns [True] exactly when
    every pixel has R == G == B, alpha not looked at, and [False] otherwise.
    In [import_emission], once the emission source (linked or imported) holds
    such an image, the image ends marked Non-Color when it is grayscale, and
    the image registry ends as it was when some pixel has differing
    channels. *)
Theorem grayscale_decides_emission_colorspace :
  (forall im : image,
     length (pixels im) mod 4 = 0 ->
     (_is_grayscale_image im = Ok true <-> all_grey (pixels im)) /\
     (_is_grayscale_image im = Ok false <-> ~ all_grey (pixels im))) /\
  (forall (h : host) (p : processor) (sc sc1 : scene) (pn e i : nat)
          (nd : node) (im : image),
     principled_node p = Some pn ->
     emission_source h p sc = (Ok (Some e), sc1) ->
     nodes sc1 !! e = Some nd ->
     node_image nd = Some i ->
     images sc1 !! i = Some im ->
     length (pixels im) mod 4 = 0 ->
     (all_grey (pixels im) ->
        images (final (import_emission h p sc)) = <[i := mark_non_color im]> (images sc1) /\
        colorspace <$> images (final (import_emission h p sc)) !! i = Some "Non-Color") /\
     (~ all_grey (pixels im) ->
        images (final (import_emission h p sc)) = images sc1)).
Proof.
  split; [apply is_grayscale_image_spec|].
  intros h p sc sc1 pn e i nd im Hpn Hsrc Hnd Himg Him Hmod.
  destruct (is_grayscale_image_spec im Hmod) as [Htrue Hfalse].
  split.
  - intros Hgrey. apply Htrue in Hgrey.
    rewrite (import_emission_images h p sc sc1 pn e i nd im true) by assumption.
    split; [reflexivity|].
    rewrite list_lookup_insert_eq by (eapply lookup_lt_Some; eassumption).
    reflexivity.
  - intros Hcolour. apply Hfalse in Hcolour.
    now rewrite (import_emission_images h p sc sc1 pn e i nd im false).
Qed.

(** C7 on a linked grey emission image and on an imported colour one. *)
Lemma grayscale_decides_emission_colorspace_witness :
  all_grey Sample.grey_pixels /\
  ~ all_grey Sample.colour_pixels /\
  colorspace <$>
    images (final (import_emission (Sample.the_host None)
                     (init (Sample.the_host None) (Sample.lit Sample.grey_pixels) "/tex")
                     (Sample.lit Sample.grey_pixels))) !! 0 = Some "Non-Color" /\
  images (final (import_emission (Sample.the_host (Some ["Char_emi.png"]))
                   (init (Sample.the_host (Some ["Char_emi.png"])) Sample.bare "/tex")
                   Sample.bare))
  = [Image "/tex/Char_emi.png" "sRGB" Sample.colour_pixels].
Proof.
  destruct grayscale_decides_emission_colorspace as [Hclass Hemission].
  assert (all_grey Sample.grey_pixels) as Hgrey
    by (apply (Hclass (Image "" "" Sample.grey_pixels)); reflexivity).
  assert (~ all_grey Sample.colour_pixels) as Hcolour
    by (apply (Hclass (Image "" "" Sample.colour_pixels)); reflexivity).
  split; [exact Hgrey|]. split; [exact Hcolour|]. split.
  - apply (Hemission (Sample.the_host None)
             (init (Sample.the_host None) (Sample.lit Sample.grey_pixels) "/tex")
             (Sample.lit Sample.grey_pixels) (Sample.lit Sample.grey_pixels)
             0 1 0 (Sample.holding 0)
             (Image "/tex/Char_emm.png" "sRGB" Sample.grey_pixels));
      try reflexivity.
    exact Hgrey.
  - apply (Hemission (Sample.the_host (Some ["Char_emi.png"]))
             (init (Sample.the_host (Some ["Char_emi.png"])) Sample.bare "/tex")
             Sample.bare
             (with_texture (Sample.the_host (Some ["Char_emi.png"]))
                "/tex/Char_emi.png" false Sample.bare)
             0 1 0 (texture_node 0)
             (Image "/tex/Char_emi.png" "sRGB" Sample.colour_pixels));
      try reflexivity.
    exact Hcolour.
Defined.

(** * Further properties of the methods *)

(** ** The principled node *)

Section FirstOfType.

Lemma find_type_from_none (ty : string) (nds : list node) (i : nat) :
  find_type_from ty i nds = None ->
  forall j nd, nds !! j = Some nd -> type nd <> ty.
Proof.
  revert i. induction nds as [|nd nds IH]; intros i; cbn [find_type_from].
  - intros _ j nd'. now rewrite lookup_nil.
  - destruct (String.eqb (type nd) ty) eqn:E; [discriminate|].
    apply String.eqb_neq in E. intros Hfind [|j] nd'; cbn.
    + now intros [= <-].
    + now apply (IH (S i)).
Qed.

Lemma find_type_from_before (ty : string) (nds : list node) (i k : nat) :
  find_type_from ty i nds = Some k ->
  forall j nd, j < k - i -> nds !! j = Some nd -> type nd <> ty.
Proof.
  revert i. induction nds as [|nd nds IH]; intros i; cbn [find_type_from]; [discriminate|].
  destruct (String.eqb (type nd) ty) eqn:E.
  - intros [= <-] j nd' Hj. lia.
  - apply String.eqb_neq in E. intros Hfind [|j] nd' Hj; cbn.
    + now intros [= <-].
    + apply (IH (S i) Hfind). lia.
Qed.

Lemma has_type_false (s : scene) (n : nat) (ty : string) :
  has_type s n ty = false <-> forall nd, nodes s !! n = Some nd -> type nd <> ty.
Proof.
  unfold has_type. destruct (nodes s !! n) as [nd|].
  - rewrite String.eqb_neq. split; [now intros H nd' [= <-] | auto].
  - split; [discriminate | reflexivity].
Qed.

End FirstOfType.

(** X1: [_find_principled_node] returns the first principled node of the
    tree, in node order, and [None] exactly when the tree has none. *)
Theorem find_principled_node_first (sc : scene) :
  match _find_principled_node sc with
  | Some pn =>
      has_type sc pn "BSDF_PRINCIPLED" = true /\
      forall j, j < pn -> has_type sc j "BSDF_PRINCIPLED" = false
  | None => forall j, has_type sc j "BSDF_PRINCIPLED" = false
  end.
Proof.
  unfold _find_principled_node.
  destruct (find_type_from "BSDF_PRINCIPLED" 0 (nodes sc)) as [pn|] eqn:Hfind.
  - split.
    + destruct (find_type_from_some _ _ _ _ Hfind) as (nd & Hnd & Hty & _).
      rewrite Nat.sub_0_r in Hnd. apply has_type_iff. eauto.
    + intros j Hj. apply has_type_false. intros nd Hnd.
      apply (find_type_from_before _ _ _ _ Hfind j nd); [lia | exact Hnd].
  - intros j. apply has_type_false. intros nd Hnd.
    now apply (find_type_from_none _ _ _ Hfind j nd).
Qed.

(** ** Texture resolution: the first match *)

Lemma find_file_first (dir expected : string) (files : list string) :
  match find_file dir expected files with
  | Some path => exists file, first_match expected files file /\
                              path = PyStr.path_join dir file
  | None => forall f, In f files -> PyStr.lower f <> PyStr.lower expected
  end.
Proof.
  induction files as [|f fs IH]; cbn [find_file]; [intros f []|].
  destruct (String.eqb (PyStr.lower f) (PyStr.lower expected)) eqn:E.
  - apply String.eqb_eq in E. exists f. split; [|reflexivity].
    exists [], fs. split; [reflexivity|]. split; [exact E | intros g []].
  - apply String.eqb_neq in E.
    destruct (find_file dir expected fs) as [path|].
    + destruct IH as (file & (before & after & -> & Hlow & Hbefore) & ->).
      exists file. split; [|reflexivity].
      exists (f :: before), after. split; [reflexivity|]. split; [exact Hlow|].
      intros g [<-|Hin]; auto.
    + intros g [<-|Hin]; auto.
Qed.

Lemma find_file_first_match (dir expected : string) (files : list string) (file : string) :
  first_match expected files file ->
  find_file dir expected files = Some (PyStr.path_join dir file).
Proof.
  intros (before & after & -> & Hlow & Hbefore).
  induction before as [|f before IH]; cbn [app find_file].
  - apply String.eqb_eq in Hlow. now rewrite Hlow.
  - assert (String.eqb (PyStr.lower f) (PyStr.lower expected) = false) as ->
      by (apply String.eqb_neq, Hbefore; now left).
    apply IH. intros g Hin. apply Hbefore. now right.
Qed.

(** X2: when several files of the directory answer to the expected name,
    [import_texture] loads the one that [os.listdir] reported first: the
    image of the new node has the joined path of the first match. *)
Theorem import_texture_loads_first_match
    (h : host) (p : processor) (suffix : string) (non_color : bool) (sc : scene)
    (files : list string) (file : string) :
  listdir h (file_path p) = Some files ->
  first_match (expected_filename (base_name p) suffix) files file ->
  import_texture h p suffix non_color sc
  = (Ok (Some (length (nodes sc))),
     with_texture h (PyStr.path_join (file_path p) file) non_color sc).
Proof.
  intros Hls Hfirst.
  apply import_texture_some. unfold find_texture_file. rewrite Hls.
  now apply find_file_first_match.
Qed.

(** X2 with [Char_NRM.png] listed before [char_nrm.png]. *)
Lemma import_texture_loads_first_match_witness :
  first_match "Char_nrm.png" ["notes.txt"; "Char_NRM.png"; "char_nrm.png"] "Char_NRM.png" /\
  import_texture (Sample.the_host (Some ["notes.txt"; "Char_NRM.png"; "char_nrm.png"]))
    (init (Sample.the_host (Some ["notes.txt"; "Char_NRM.png"; "char_nrm.png"]))
       Sample.bare "/tex")
    "_nrm" true Sample.bare
  = (Ok (Some 1),
     with_texture (Sample.the_host (Some ["notes.txt"; "Char_NRM.png"; "char_nrm.png"]))
       "/tex/Char_NRM.png" true Sample.bare).
Proof.
  assert (first_match "Char_nrm.png" ["notes.txt"; "Char_NRM.png"; "char_nrm.png"]
            "Char_NRM.png") as Hfirst.
  { exists ["notes.txt"], ["char_nrm.png"]. split; [reflexivity|].
    split; [reflexivity|]. intros f [<-|[]]. discriminate. }
  split; [exact Hfirst|].
  exact (import_texture_loads_first_match
           (Sample.the_host (Some ["notes.txt"; "Char_NRM.png"; "char_nrm.png"]))
           (init (Sample.the_host (Some ["notes.txt"; "Char_NRM.png"; "char_nrm.png"]))
              Sample.bare "/tex")
           "_nrm" true Sample.bare _ "Char_NRM.png" eq_refl Hfirst).
Defined.

(** ** The base name and the file it came from *)

Section BaseNameRoundTrip.

Lemma lower_append (a b : string) :
  PyStr.lower (a +:+ b) = PyStr.lower a +:+ PyStr.lower b.
Proof.
  induction a as [|c a IH]; [reflexivity|].
  rewrite append_cons. cbn [PyStr.lower]. rewrite append_cons. now rewrite IH.
Qed.

Lemma take_drop (n : nat) (s : string) : s = PyStr.take n s +:+ PyStr.drop n s.
Proof.
  revert s. induction n as [|n IH]; intros [|c s]; cbn [PyStr.take PyStr.drop];
    try reflexivity.
  rewrite append_cons. now rewrite <- IH.
Qed.

Lemma drop_drop (n m : nat) (s : string) :
  PyStr.drop m (PyStr.drop n s) = PyStr.drop (n + m) s.
Proof.
  revert s. induction n as [|n IH]; intros s; [reflexivity|].
  destruct s as [|c s]; cbn [PyStr.drop Nat.add]; [now destruct m | apply IH].
Qed.

Lemma drop_append_length (m rest : string) :
  PyStr.drop (String.length m) (m +:+ rest) = rest.
Proof. induction m as [|c m IH]; [now destruct rest | exact IH]. Qed.

(** A name that carries [pat] at [start] and [ext] right after it folds to
    the same letters as the prefix followed by [pat] and [ext]. *)
Lemma rebuilt_name (pat ext s : string) (start : nat) :
  occurs_at pat s start ->
  PyStr.lower (PyStr.drop (start + String.length pat) s) = PyStr.lower ext ->
  PyStr.lower (PyStr.take start s +:+ pat +:+ ext) = PyStr.lower s.
Proof.
  intros (_ & m & rest & Hdrop & Hm) Hext.
  assert (String.length m = String.length pat) as Hlen
    by (rewrite <- (lower_length m), Hm; apply lower_length).
  rewrite <- drop_drop, Hdrop, <- Hlen, drop_append_length in Hext.
  rewrite (take_drop start s) at 2. rewrite Hdrop.
  rewrite !lower_append. now rewrite Hm, Hext.
Qed.

Variable h : host.

(** The base name is read off the first texture that carries a suffix,
    when the prefix found there is not empty. *)
Lemma init_base_name_first (sc : scene) (dir : string) (pre post : list node)
    (nd : node) (im : image) (b : string) :
  nodes sc = pre ++ nd :: post ->
  (forall n im', In n pre -> textured sc n = Some im' ->
                 ~ recognised (image_basename h im')) ->
  textured sc nd = Some im ->
  match_suffixes suffixes (image_basename h im) = Some b ->
  PyStr.truthy b = true ->
  base_name (init h sc dir) = Some b.
Proof.
  intros Hnodes Hpre Htex Hmatch Htruthy.
  cbn [init base_name]. unfold _find_base_texture. rewrite Hnodes.
  rewrite (find_base_texture_from_first h sc pre post nd im b Hpre Htex Hmatch).
  cbn [py_or]. now rewrite Htruthy.
Qed.

Lemma leftmost_bound (pat s : string) (i : nat) :
  leftmost pat s i -> i <= String.length s.
Proof. now intros [[Hle _] _]. Qed.

End BaseNameRoundTrip.

(** X3: the base name finds its own file again.  When the base name was read
    off a texture whose file name is a non-empty prefix, [_alb] in any
    letter case, and [.png] in any letter case, every directory that lists
    that file name, in any letter case, resolves the [_alb] texture of the
    processor. *)
Theorem base_name_resolves_its_albedo
    (h : host) (sc : scene) (dir : string)
    (pre post : list node) (nd : node) (im : image) (start : nat)
    (files : list string) (file : string) :
  nodes sc = pre ++ nd :: post ->
  (forall n im', In n pre -> textured sc n = Some im' ->
                 ~ recognised (image_basename h im')) ->
  textured sc nd = Some im ->
  leftmost "_alb" (image_basename h im) start ->
  0 < start ->
  PyStr.lower (PyStr.drop (start + 4) (image_basename h im)) = ".png" ->
  listdir h dir = Some files ->
  In file files ->
  PyStr.lower file = PyStr.lower (image_basename h im) ->
  ~ texture_absent h (init h sc dir) "_alb".
Proof.
  intros Hnodes Hpre Htex Hleft Hpos Hext Hls Hin Hfile Habs.
  assert (base_name (init h sc dir) = Some (PyStr.take start (image_basename h im)))
    as Hbase.
  { eapply init_base_name_first; try eassumption.
    - now apply match_suffixes_albedo.
    - apply take_truthy; [exact Hpos | eapply leftmost_bound; exact Hleft]. }
  destruct Habs as [Hnone | (fs & Hfs & Hall)]; cbn [init file_path] in *.
  - congruence.
  - assert (fs = files) as -> by congruence.
    apply (Hall file Hin). rewrite Hbase, Hfile. cbn [expected_filename].
    symmetry. apply rebuilt_name; [now destruct Hleft | exact Hext].
Qed.

(** X3 on [Sample.with_albedo]: [Char_Alb.png] gives the base [Char], and a
    directory that lists [char_alb.PNG] resolves [_alb]. *)
Lemma base_name_resolves_its_albedo_witness :
  leftmost "_alb" "Char_Alb.png" 4 /\
  ~ texture_absent (Sample.the_host (Some ["char_alb.PNG"]))
      (init (Sample.the_host (Some ["char_alb.PNG"])) Sample.with_albedo "/tex") "_alb".
Proof.
  assert (leftmost "_alb" "Char_Alb.png" 4) as Hleft
    by (apply search_ci_some; reflexivity).
  split; [exact Hleft|].
  apply (base_name_resolves_its_albedo (Sample.the_host (Some ["char_alb.PNG"]))
           Sample.with_albedo "/tex" [Sample.plain "BSDF_PRINCIPLED"] []
           (Sample.holding 0)
           (Image "//textures/Char_Alb.png" "sRGB" Sample.colour_pixels) 4
           ["char_alb.PNG"] "char_alb.PNG").
  - reflexivity.
  - intros n im' [<-|[]] Htex. discriminate Htex.
  - reflexivity.
  - exact Hleft.
  - lia.
  - reflexivity.
  - reflexivity.
  - now left.
  - reflexivity.
Defined.

(** X4: the suffixes are tried in the order [_alb], [_emm], [_emi] on each
    file name.  When the first texture that carries a suffix has no [_alb]
    in its name, the base name is the non-empty prefix before the leftmost
    [_emm], and before the leftmost [_emi] when the name has no [_emm]
    either. *)
Theorem base_name_from_emission_suffix
    (h : host) (sc : scene) (dir : string)
    (pre post : list node) (nd : node) (im : image) (start : nat) :
  nodes sc = pre ++ nd :: post ->
  (forall n im', In n pre -> textured sc n = Some im' ->
                 ~ recognised (image_basename h im')) ->
  textured sc nd = Some im ->
  ~ contains_ci "_alb" (image_basename h im) ->
  leftmost "_emm" (image_basename h im) start \/
    (~ contains_ci "_emm" (image_basename h im) /\
     leftmost "_emi" (image_basename h im) start) ->
  0 < start ->
  base_name (init h sc dir) = Some (PyStr.take start (image_basename h im)).
Proof.
  intros Hnodes Hpre Htex Hnoalb Hsfx Hpos.
  eapply init_base_name_first; try eassumption.
  - unfold suffixes. cbn [match_suffixes].
    apply search_ci_none in Hnoalb. rewrite Hnoalb.
    destruct Hsfx as [Hemm | [Hnoemm Hemi]].
    + apply search_ci_some in Hemm. now rewrite Hemm.
    + apply search_ci_none in Hnoemm. rewrite Hnoemm.
      apply search_ci_some in Hemi. now rewrite Hemi.
  - apply take_truthy; [exact Hpos|].
    destruct Hsfx as [Hemm | [_ Hemi]]; eapply leftmost_bound; eassumption.
Qed.

(** X4 on [Sample2.with_emission_map]: [Lamp_EMM.png] gives the base [Lamp]. *)
Lemma base_name_from_emission_suffix_witness :
  ~ contains_ci "_alb" "Lamp_EMM.png" /\
  leftmost "_emm" "Lamp_EMM.png" 4 /\
  base_name (init (Sample.the_host None) Sample2.with_emission_map "/tex") = Some "Lamp".
Proof.
  assert (~ contains_ci "_alb" "Lamp_EMM.png") as Hnoalb
    by (apply search_ci_none; reflexivity).
  assert (leftmost "_emm" "Lamp_EMM.png" 4) as Hemm
    by (apply search_ci_some; reflexivity).
  split; [exact Hnoalb|]. split; [exact Hemm|].
  apply (base_name_from_emission_suffix (Sample.the_host None)
           Sample2.with_emission_map "/tex" [Sample.plain "BSDF_PRINCIPLED"] []
           (Sample.holding 0)
           (Image "//tex/Lamp_EMM.png" "sRGB" Sample.colour_pixels) 4).
  - reflexivity.
  - intros n im' [<-|[]] Htex. discriminate Htex.
  - reflexivity.
  - exact Hnoalb.
  - left. exact Hemm.
  - lia.
Defined.

(** ** Sockets by name *)

Section SocketNames.

Lemma index_of_lookup (nm : string) (names : list string) (k i : nat) :
  index_of nm names k = Some i -> k <= i /\ names !! (i - k) = Some nm.
Proof.
  revert k. induction names as [|x names IH]; intros k; cbn [index_of]; [discriminate|].
  destruct (String.eqb x nm) eqn:E.
  - intros [= <-]. apply String.eqb_eq in E as ->. rewrite Nat.sub_diag. auto.
  - intros Hi. destruct (IH _ Hi) as [Hle Hnm]. split; [lia|].
    replace (i - k) with (S (i - S k)) by lia. exact Hnm.
Qed.

Lemma index_of_absent (nm : string) (names : list string) (k : nat) :
  ~ In nm names -> index_of nm names k = None.
Proof.
  revert k. induction names as [|x names IH]; intros k Hno; [reflexivity|].
  cbn [index_of]. destruct (String.eqb x nm) eqn:E.
  - apply String.eqb_eq in E. exfalso. apply Hno. now left.
  - apply IH. intros Hin. apply Hno. now right.
Qed.

(** Two names resolve to two sockets of a node. *)
Lemma resolve_names_apart (n : nat) (names : list string) (a b : string) (sa sb : socket) :
  resolve n names (ByName a) = Ok sa -> resolve n names (ByName b) = Ok sb ->
  a <> b -> same_socket sa sb = false.
Proof.
  cbn [resolve].
  destruct (index_of a names 0) as [i|] eqn:Ha; [|discriminate].
  destruct (index_of b names 0) as [j|] eqn:Hb; [|discriminate].
  intros [= <-] [= <-] Hne. apply same_socket_other_index. cbn [sock_index].
  intros ->. apply index_of_lookup in Ha as [_ Ha], Hb as [_ Hb]. congruence.
Qed.

Lemma resolve_absent (n : nat) (names : list string) (nm : string) :
  ~ In nm names -> resolve n names (ByName nm) = Raise KeyError.
Proof. intros Hno. cbn [resolve]. now rewrite index_of_absent. Qed.

End SocketNames.

(** ** Links made by [connect] *)

Section Connect.

Variable h : host.
Variable p : processor.

Lemma connect_ok (oc ic : M socket) (s : scene) (o i : socket) :
  oc s = (Ok o, s) -> ic s = (Ok i, s) ->
  connect oc ic s = (Ok tt, with_links (relink o i) s).
Proof.
  intros Ho Hi. unfold connect.
  now rewrite (bind_ok _ _ _ _ _ Ho), (bind_ok _ _ _ _ _ Hi).
Qed.

Lemma principled_inputs_typed (s : scene) (pn : nat) (ty : string) (k : key) :
  principled_node p = Some pn -> has_type s pn ty = true ->
  (q <- principled p ;; inputs h q k) s = (resolve pn (sockets_in h ty) k, s).
Proof.
  intros Hpn Hty. unfold principled. rewrite Hpn.
  rewrite (bind_ok (ret pn) _ s s pn eq_refl). now apply inputs_typed.
Qed.

Lemma outputs_ok (s : scene) (n : nat) (ty : string) (k : key) (o : socket) :
  has_type s n ty = true -> resolve n (sockets_out h ty) k = Ok o ->
  outputs h n k s = (Ok o, s).
Proof. intros Hty Hres. rewrite (outputs_typed h _ _ _ _ Hty). now rewrite Hres. Qed.

Lemma inputs_ok (s : scene) (n : nat) (ty : string) (k : key) (i : socket) :
  has_type s n ty = true -> resolve n (sockets_in h ty) k = Ok i ->
  inputs h n k s = (Ok i, s).
Proof. intros Hty Hres. rewrite (inputs_typed h _ _ _ _ Hty). now rewrite Hres. Qed.

Lemma principled_inputs_ok (s : scene) (pn : nat) (ty : string) (k : key) (i : socket) :
  principled_node p = Some pn -> has_type s pn ty = true ->
  resolve pn (sockets_in h ty) k = Ok i ->
  (q <- principled p ;; inputs h q k) s = (Ok i, s).
Proof.
  intros Hpn Hty Hres. rewrite (principled_inputs_typed _ _ _ _ Hpn Hty). now rewrite Hres.
Qed.

End Connect.

(** ** The linking helper *)

(** X5: for a node with a Color output and a principled node with the named
    input, [link_texture_principled_node] returns normally; afterwards the
    named input is fed by the single link from that Color output, the links
    into every other socket are as before, and no node or image changed. *)
Theorem link_texture_principled_node_links
    (h : host) (p : processor) (sc : scene) (t pn : nat) (tyt typ input_name : string) :
  has_type sc t tyt = true ->
  In "Color" (sockets_out h tyt) ->
  principled_node p = Some pn ->
  has_type sc pn typ = true ->
  In input_name (sockets_in h typ) ->
  exists sc' inp,
    link_texture_principled_node h p (Some t) input_name sc = (Ok tt, sc') /\
    drives h sc' t (ByName "Color") pn (ByName input_name) /\
    inputs h pn (ByName input_name) sc' = (Ok inp, sc') /\
    (forall c, same_socket inp c = false ->
               links_into c (links sc') = links_into c (links sc)) /\
    nodes sc' = nodes sc /\ images sc' = images sc /\ name sc' = name sc.
Proof.
  intros Ht Hcolor Hpn Hp Hinput.
  destruct (resolve_name t _ _ Hcolor) as [io Ho].
  destruct (resolve_name pn _ _ Hinput) as [ii Hi].
  set (o := Socket t io "Color") in *. set (i := Socket pn ii input_name) in *.
  assert (outputs h t (ByName "Color") sc = (Ok o, sc)) as Hout
    by (rewrite (outputs_typed h _ _ _ _ Ht); now rewrite Ho).
  assert ((q <- principled p ;; inputs h q (ByName input_name)) sc = (Ok i, sc)) as Hin.
  { unfold principled. rewrite Hpn.
    assert (ret pn sc = (Ok pn, sc)) as Hret by reflexivity.
    rewrite (bind_ok _ _ _ _ _ Hret), (inputs_typed h _ _ _ _ Hp). now rewrite Hi. }
  exists (with_links (relink o i) sc), i.
  split.
  { cbn [link_texture_principled_node]. unfold connect.
    now rewrite (bind_ok _ _ _ _ _ Hout), (bind_ok _ _ _ _ _ Hin). }
  split.
  { exists o, i. split; [|split].
    - rewrite (outputs_typed h (with_links _ sc) _ _ _ Ht). now rewrite Ho.
    - rewrite (inputs_typed h (with_links _ sc) _ _ _ Hp). now rewrite Hi.
    - apply links_into_relink. }
  split; [rewrite (inputs_typed h (with_links _ sc) _ _ _ Hp); now rewrite Hi|].
  split; [intros c Hc; now apply links_into_relink_other|].
  repeat split.
Qed.

(** X5 on [Sample.with_albedo]: the albedo texture is linked to the Alpha
    input. *)
Lemma link_texture_principled_node_links_witness :
  exists sc',
    link_texture_principled_node (Sample.the_host None)
      (init (Sample.the_host None) Sample.with_albedo "/tex") (Some 1) "Alpha"
      Sample.with_albedo = (Ok tt, sc') /\
    drives (Sample.the_host None) sc' 1 (ByName "Color") 0 (ByName "Alpha").
Proof.
  destruct (link_texture_principled_node_links (Sample.the_host None)
              (init (Sample.the_host None) Sample.with_albedo "/tex")
              Sample.with_albedo 1 0 "TEX_IMAGE" "BSDF_PRINCIPLED" "Alpha")
    as (sc' & inp & Hrun & Hdrives & _); try reflexivity.
  - cbn. auto.
  - cbn. auto 10.
  - exists sc'. auto.
Defined.

(** X6: when the principled node has no input of the given name, or the
    node has no Color output, [link_texture_principled_node] raises KeyError
    and leaves the scene as it was. *)
Theorem link_texture_principled_node_key_error
    (h : host) (p : processor) (sc : scene) (t pn : nat) (tyt typ input_name : string) :
  has_type sc t tyt = true ->
  principled_node p = Some pn ->
  has_type sc pn typ = true ->
  ~ In "Color" (sockets_out h tyt) \/ ~ In input_name (sockets_in h typ) ->
  link_texture_principled_node h p (Some t) input_name sc = (Raise KeyError, sc).
Proof.
  intros Ht Hpn Hp Hmissing. cbn [link_texture_principled_node]. unfold connect.
  destruct (in_dec string_dec "Color" (sockets_out h tyt)) as [Hcolor|Hno].
  - destruct Hmissing as [Hno|Hno]; [contradiction|].
    destruct (resolve_name t _ _ Hcolor) as [io Ho].
    assert (outputs h t (ByName "Color") sc = (Ok (Socket t io "Color"), sc)) as Hout
      by (rewrite (outputs_typed h _ _ _ _ Ht); now rewrite Ho).
    rewrite (bind_ok _ _ _ _ _ Hout).
    apply bind_raise. unfold principled. rewrite Hpn.
    assert (ret pn sc = (Ok pn, sc)) as Hret by reflexivity.
    rewrite (bind_ok _ _ _ _ _ Hret), (inputs_typed h _ _ _ _ Hp).
    now rewrite resolve_absent.
  - apply bind_raise. rewrite (outputs_typed h _ _ _ _ Ht).
    now rewrite resolve_absent.
Qed.

(** X6 on [Sample.with_albedo]: the principled node of the sample host has
    no input named Emission. *)
Lemma link_texture_principled_node_key_error_witness :
  ~ In "Emission" (sockets_in (Sample.the_host None) "BSDF_PRINCIPLED") /\
  link_texture_principled_node (Sample.the_host None)
    (init (Sample.the_host None) Sample.with_albedo "/tex") (Some 1) "Emission"
    Sample.with_albedo = (Raise KeyError, Sample.with_albedo).
Proof.
  assert (~ In "Emission" (sockets_in (Sample.the_host None) "BSDF_PRINCIPLED")) as Hno.
  { cbn. intros H. repeat (destruct H as [H|H]; [discriminate H|]). exact H. }
  split; [exact Hno|].
  apply (link_texture_principled_node_key_error (Sample.the_host None)
           (init (Sample.the_host None) Sample.with_albedo "/tex")
           Sample.with_albedo 1 0 "TEX_IMAGE" "BSDF_PRINCIPLED" "Emission");
    try reflexivity.
  right. exact Hno.
Defined.

(** ** import_normal with a node already feeding the Normal input *)

Section NormalReuse.

Variable p : processor.

(** The loop keeps the source of the last link that ends at the Normal
    input. *)
Lemma normal_loop_last (before after : list link) (l : link) :
  ends_at p "Normal" l = true ->
  (forall l', In l' after -> ends_at p "Normal" l' = false) ->
  normal_loop p (before ++ l :: after) = Some (from_node l).
Proof.
  intros Hl Hafter. induction after as [|x after IH] using rev_ind.
  - rewrite normal_loop_app. now rewrite Hl.
  - replace (before ++ l :: after ++ [x]) with ((before ++ l :: after) ++ [x])
      by (now rewrite <- app_assoc).
    rewrite normal_loop_app.
    rewrite (Hafter x) by (apply in_or_app; right; now left).
    apply IH. intros l' Hin. apply Hafter, in_or_app. now left.
Qed.

End NormalReuse.

(** X7: when the [_nrm] texture resolves and a link already ends at the
    Normal input of the principled node, [import_normal] reuses the node at
    the origin of the last such link, whatever its type, provided it has a
    Color input and a Normal output: the new texture feeds that Color input,
    the Normal output feeds the Normal input of the principled node, and the
    only node added is the texture node: no normal-map node is created. *)
Theorem import_normal_reuses_linked_node
    (h : host) (p : processor) (sc : scene) (pn : nat) (typ tynm : string)
    (before after : list link) (l : link) :
  ~ texture_absent h p "_nrm" ->
  In "Color" (sockets_out h "TEX_IMAGE") ->
  principled_node p = Some pn ->
  has_type sc pn typ = true ->
  In "Normal" (sockets_in h typ) ->
  links sc = before ++ l :: after ->
  ends_at p "Normal" l = true ->
  (forall l', In l' after -> ends_at p "Normal" l' = false) ->
  has_type sc (from_node l) tynm = true ->
  In "Color" (sockets_in h tynm) ->
  In "Normal" (sockets_out h tynm) ->
  exists sc' file,
    import_normal h p sc = (Ok tt, sc') /\
    PyStr.lower file = PyStr.lower (expected_filename (base_name p) "_nrm") /\
    nodes sc' = nodes sc ++ [texture_node (length (images sc))] /\
    images sc' = images sc ++ [loaded_image h (PyStr.path_join (file_path p) file) true] /\
    drives h sc' (length (nodes sc)) (ByName "Color") (from_node l) (ByName "Color") /\
    drives h sc' (from_node l) (ByName "Normal") pn (ByName "Normal").
Proof.
  intros Hpresent Hcolor Hpn Hp Hnormal Hlinks Hl Hafter Hnm Hnmcolor Hnmnormal.
  destruct (present_resolves _ _ _ Hpresent) as (_ & file & _ & _ & Hlow & Hf).
  set (path := PyStr.path_join (file_path p) file) in *.
  set (s1 := with_texture h path true sc).
  set (t := length (nodes sc)). set (nm := from_node l) in *.
  assert (has_type s1 t "TEX_IMAGE" = true) as Tt
    by (apply has_type_iff; exists (texture_node (length (images sc)));
        split; [apply lookup_snoc | reflexivity]).
  assert (forall n ty, has_type sc n ty = true -> has_type s1 n ty = true) as Hold.
  { intros n ty Hn. apply has_type_iff in Hn as (nd & Hnd & Hty). apply has_type_iff.
    exists nd. split; [|exact Hty]. cbn [s1 with_texture nodes]. now apply lookup_app_l_Some. }
  pose proof (Hold _ _ Hp) as Tp. pose proof (Hold _ _ Hnm) as Tnm.
  destruct (resolve_name t _ _ Hcolor) as [i1 H1].
  destruct (resolve_name nm _ _ Hnmcolor) as [i2 H2].
  destruct (resolve_name nm _ _ Hnmnormal) as [i3 H3].
  destruct (resolve_name pn _ _ Hnormal) as [i4 H4].
  set (o1 := Socket t i1 "Color") in *. set (c2 := Socket nm i2 "Color") in *.
  set (o3 := Socket nm i3 "Normal") in *. set (c4 := Socket pn i4 "Normal") in *.
  set (s2 := with_links (relink o1 c2) s1).
  set (s3 := with_links (relink o3 c4) s2).
  assert (same_socket c4 c2 = false) as Hapart.
  { destruct (Nat.eq_dec nm pn) as [Heq|Hne].
    - assert (tynm = typ) as ->
        by (eapply has_type_unique; [exact Hnm | rewrite Heq; exact Hp]).
      apply (resolve_names_apart pn (sockets_in h typ) "Normal" "Color");
        [exact H4 | rewrite <- Heq; exact H2 | discriminate].
    - apply same_socket_other_node. cbn [sock_node c4 c2]. congruence. }
  exists s3, file.
  split.
  { unfold import_normal.
    rewrite (bind_ok _ _ _ _ _ (import_texture_some h p _ _ true sc Hf)).
    fold s1. rewrite (bind_ok get _ s1 s1 s1 eq_refl).
    cbn [s1 with_texture links]. rewrite Hlinks, (normal_loop_last p _ _ _ Hl Hafter).
    fold nm. fold s1.
    rewrite (bind_ok _ _ _ _ _
               (connect_ok _ _ s1 o1 c2 (outputs_ok h _ _ _ _ _ Tt H1)
                  (inputs_ok h _ _ _ _ _ Tnm H2))).
    fold s2.
    apply (connect_ok _ _ s2 o3 c4 (outputs_ok h s2 _ _ _ _ Tnm H3)
             (principled_inputs_ok h p s2 _ _ _ _ Hpn Tp H4)). }
  split; [exact Hlow|]. split; [reflexivity|]. split; [reflexivity|].
  split.
  - exists o1, c2. split; [|split].
    + exact (outputs_ok h s3 _ _ _ _ Tt H1).
    + exact (inputs_ok h s3 _ _ _ _ Tnm H2).
    + cbn [s3 s2 with_links links].
      rewrite links_into_relink_other by exact Hapart.
      apply links_into_relink.
  - exists o3, c4. split; [|split].
    + exact (outputs_ok h s3 _ _ _ _ Tnm H3).
    + exact (inputs_ok h s3 _ _ _ _ Tp H4).
    + apply links_into_relink.
Qed.

(** X7 on [Sample2.with_normal_map] with [Char_nrm.png] in the directory. *)
Lemma import_normal_reuses_linked_node_witness :
  ~ texture_absent (Sample.the_host (Some ["Char_nrm.png"]))
      (init (Sample.the_host (Some ["Char_nrm.png"])) Sample2.with_normal_map "/tex")
      "_nrm" /\
  exists sc',
    import_normal (Sample.the_host (Some ["Char_nrm.png"]))
      (init (Sample.the_host (Some ["Char_nrm.png"])) Sample2.with_normal_map "/tex")
      Sample2.with_normal_map = (Ok tt, sc') /\
    length (nodes sc') = 3 /\
    drives (Sample.the_host (Some ["Char_nrm.png"])) sc' 2 (ByName "Color") 1 (ByName "Color").
Proof.
  assert (~ texture_absent (Sample.the_host (Some ["Char_nrm.png"]))
            (init (Sample.the_host (Some ["Char_nrm.png"])) Sample2.with_normal_map "/tex")
            "_nrm") as Hpresent
    by (intros Habs; apply texture_absent_iff in Habs; discriminate Habs).
  split; [exact Hpresent|].
  destruct (import_normal_reuses_linked_node (Sample.the_host (Some ["Char_nrm.png"]))
              (init (Sample.the_host (Some ["Char_nrm.png"])) Sample2.with_normal_map "/tex")
              Sample2.with_normal_map 0 "BSDF_PRINCIPLED" "NORMAL_MAP"
              [] [] (Link (Socket 1 0 "Normal") (Socket 0 5 "Normal")) Hpresent)
    as (sc' & file & Hrun & _ & Hnodes & _ & Hdrives & _);
    try reflexivity; try (cbn; auto 10; fail).
  - intros l' [].
  - exists sc'. split; [exact Hrun|]. split; [now rewrite Hnodes | exact Hdrives].
Defined.

(** ** Runs that leave the node list alone *)

Section KeepsNodes.

Lemma keeps_nodes_bind {A B} (c : M A) (k : A -> M B) :
  keeps_nodes c -> (forall a, keeps_nodes (k a)) -> keeps_nodes (bind c k).
Proof.
  intros Hc Hk sc. unfold bind. specialize (Hc sc).
  destruct (c sc) as [[a|e] sc']; cbn [snd] in *; [|exact Hc].
  now rewrite Hk.
Qed.

Lemma keeps_nodes_ret {A} (a : A) : keeps_nodes (ret a).
Proof. intros sc. reflexivity. Qed.

Lemma keeps_nodes_raise {A} (e : exn) : keeps_nodes (@raise A e).
Proof. intros sc. reflexivity. Qed.

Lemma keeps_nodes_lift {A} (r : result A) : keeps_nodes (lift r).
Proof. intros sc. reflexivity. Qed.

Lemma keeps_nodes_get : keeps_nodes get.
Proof. intros sc. reflexivity. Qed.

Lemma keeps_nodes_read_node (n : nat) : keeps_nodes (read_node n).
Proof. intros sc. unfold read_node. now destruct (nodes sc !! n). Qed.

Lemma keeps_nodes_links_new (o i : socket) : keeps_nodes (links_new o i).
Proof. intros sc. reflexivity. Qed.

Lemma keeps_nodes_principled (p : processor) : keeps_nodes (principled p).
Proof. intros sc. unfold principled. now destruct (principled_node p). Qed.

End KeepsNodes.

Ltac keeps_nodes :=
  unfold connect, inputs, outputs;
  repeat first
    [ apply keeps_nodes_bind; [|intros ?]
    | apply keeps_nodes_ret | apply keeps_nodes_raise | apply keeps_nodes_lift
    | apply keeps_nodes_get | apply keeps_nodes_read_node
    | apply keeps_nodes_links_new | apply keeps_nodes_principled
    | match goal with |- keeps_nodes (match ?x with _ => _ end) => destruct x end ].


(** ** The grayscale classifier on any buffer *)

Section GrayscaleOutcome.

Variable px : list float.

(** The pixel whose red channel sits at index [j] has R == G == B. *)
Let grey_from (j : nat) : Prop :=
  exists r g b,
    px !! j = Some r /\ px !! (j + 1) = Some g /\ px !! (j + 2) = Some b /\
    SFeqb r g = true /\ SFeqb g b = true.

(** What each outcome of the loop tells about the pixels it went through. *)
Lemma grayscale_loop_outcome (n i : nat) :
  match grayscale_loop px n i with
  | Ok true => forall k, k < n -> grey_from (i + 4 * k)
  | Ok false =>
      exists k, k < n /\ (forall j, j < k -> grey_from (i + 4 * j)) /\
                i + 4 * k + 2 < length px /\ ~ grey_from (i + 4 * k)
  | Raise e =>
      e = IndexError /\
      exists k, k < n /\ (forall j, j < k -> grey_from (i + 4 * j)) /\
                length px <= i + 4 * k + 2
  end.
Proof.
  revert i. induction n as [|n IH]; intros i; cbn [grayscale_loop]; [intros k; lia|].
  destruct (px !! i) as [r|] eqn:Hr;
    [destruct (px !! (i + 1)) as [g|] eqn:Hg;
       [destruct (px !! (i + 2)) as [b|] eqn:Hb|]|].
  - destruct (fneq r g || fneq g b || fneq b r) eqn:Htest.
    + exists 0. split; [lia|]. split; [intros j; lia|].
      replace (i + 4 * 0) with i by lia. split; [now apply lookup_lt_Some in Hb|].
      intros (r' & g' & b' & Hr' & Hg' & Hb' & Hrg & Hgb).
      assert (Some r' = Some r) as [= ->] by (rewrite <- Hr; symmetry; exact Hr').
      assert (Some g' = Some g) as [= ->] by (rewrite <- Hg; symmetry; exact Hg').
      assert (Some b' = Some b) as [= ->] by (rewrite <- Hb; symmetry; exact Hb').
      assert (fneq r g || fneq g b || fneq b r = false) by (apply pixel_test; auto).
      congruence.
    + apply pixel_test in Htest as [Hrg Hgb].
      assert (grey_from i) as Hi by (exists r, g, b; auto).
      assert (forall k, (forall j, j < k -> grey_from (i + 4 + 4 * j)) ->
                forall j, j < S k -> grey_from (i + 4 * j)) as Hshift.
      { intros k Hall [|j] Hj; [now replace (i + 4 * 0) with i by lia|].
        replace (i + 4 * S j) with (i + 4 + 4 * j) by lia. apply Hall. lia. }
      specialize (IH (i + 4)).
      destruct (grayscale_loop px n (i + 4)) as [[|]|e].
      * now apply Hshift.
      * destruct IH as (k & Hk & Hbefore & Hwhole & Hcolour).
        exists (S k). split; [lia|]. split; [now apply Hshift|].
        replace (i + 4 * S k) with (i + 4 + 4 * k) by lia. auto.
      * destruct IH as (-> & k & Hk & Hbefore & Hcut).
        split; [reflexivity|]. exists (S k). split; [lia|]. split; [now apply Hshift|].
        lia.
  - split; [reflexivity|]. exists 0. split; [lia|]. split; [intros j; lia|].
    apply lookup_ge_None in Hb. lia.
  - split; [reflexivity|]. exists 0. split; [lia|]. split; [intros j; lia|].
    apply lookup_ge_None in Hg. lia.
  - split; [reflexivity|]. exists 0. split; [lia|]. split; [intros j; lia|].
    apply lookup_ge_None in Hr. lia.
Qed.

Lemma grey_from_pixel (k : nat) : grey_from (0 + 4 * k) <-> grey_pixel px k.
Proof. unfold grey_from, grey_pixel. reflexivity. Qed.

End GrayscaleOutcome.

Lemma range4_length_cut (n : nat) :
  n mod 4 = 1 \/ n mod 4 = 2 ->
  n = 4 * (range4_length n - 1) + n mod 4 /\ 1 <= range4_length n.
Proof.
  intros Hmod. unfold range4_length.
  pose proof (Nat.div_mod_eq n 4) as Hn.
  replace (n + 3) with (n / 4 * 4 + (n mod 4 + 3)) by lia.
  rewrite Nat.div_add_l by lia.
  assert ((n mod 4 + 3) / 4 = 1) as ->
    by (destruct Hmod as [-> | ->]; reflexivity).
  lia.
Qed.

Lemma cut_buffer_outcome (im : image) :
  length (pixels im) mod 4 = 1 \/ length (pixels im) mod 4 = 2 ->
  (_is_grayscale_image im = Raise IndexError <->
     forall k, whole_pixel (pixels im) k -> grey_pixel (pixels im) k) /\
  (_is_grayscale_image im = Ok false <->
     exists k, whole_pixel (pixels im) k /\ ~ grey_pixel (pixels im) k).
Proof.
  intros Hmod. unfold _is_grayscale_image, whole_pixel.
  destruct (range4_length_cut _ Hmod) as [Hlen Hn].
  set (n := range4_length (length (pixels im))) in *.
  pose proof (grayscale_loop_outcome (pixels im) n 0) as Hout.
  assert (forall k, 4 * k + 2 < length (pixels im) <-> k < n - 1) as Hwhole
    by (intros k; lia).
  destruct (grayscale_loop (pixels im) n 0) as [[|]|e].
  - exfalso. destruct (Hout (n - 1)) as (r & g & b & _ & _ & Hb & _); [lia|].
    apply lookup_lt_Some in Hb. unfold float in *. lia.
  - destruct Hout as (k & Hk & Hbefore & Hin & Hcolour).
    rewrite grey_from_pixel in Hcolour. split.
    + split; [discriminate|]. intros Hall. exfalso. apply Hcolour, Hall. lia.
    + split; [|reflexivity]. intros _. exists k. split; [lia | exact Hcolour].
  - destruct Hout as (-> & k & Hk & Hbefore & Hcut).
    assert (k = n - 1) as -> by lia. split.
    + split; [|reflexivity]. intros _ j Hj. apply grey_from_pixel, Hbefore.
      apply Hwhole. exact Hj.
    + split; [discriminate|]. intros (j & Hj & Hcolour). exfalso.
      apply Hcolour, grey_from_pixel, Hbefore, Hwhole, Hj.
Qed.

(** X9: on a buffer cut inside a pixel (its length is 1 or 2 more than a
    multiple of 4) the classifier never returns [True]: it raises IndexError
    exactly when every whole pixel has R == G == B, and returns [False]
    exactly when some whole pixel has not, without reaching the cut. *)
Theorem is_grayscale_image_cut_buffer (im : image) :
  length (pixels im) mod 4 = 1 \/ length (pixels im) mod 4 = 2 ->
  (_is_grayscale_image im = Raise IndexError <->
     forall k, whole_pixel (pixels im) k -> grey_pixel (pixels im) k) /\
  (_is_grayscale_image im = Ok false <->
     exists k, whole_pixel (pixels im) k /\ ~ grey_pixel (pixels im) k).
Proof. apply cut_buffer_outcome. Qed.

(** X9 on a grey pixel followed by one channel, and on a red pixel followed
    by one channel. *)
Lemma is_grayscale_image_cut_buffer_witness :
  _is_grayscale_image (Image "" "" Sample2.cut_pixels) = Raise IndexError /\
  (exists k, whole_pixel Sample2.red_then_cut k /\ ~ grey_pixel Sample2.red_then_cut k).
Proof.
  split.
  - reflexivity.
  - apply (is_grayscale_image_cut_buffer (Image "" "" Sample2.red_then_cut));
      [left|]; reflexivity.
Defined.

(** X10: the alpha channel is never looked at.  Two buffers of the same
    length that agree on every red, green and blue channel get the same
    answer from the classifier, an error included. *)
Theorem is_grayscale_image_ignores_alpha (im im' : image) :
  same_rgb (pixels im) (pixels im') ->
  _is_grayscale_image im = _is_grayscale_image im'.
Proof.
  intros [Hlen Hrgb]. unfold _is_grayscale_image. rewrite <- Hlen.
  generalize (range4_length (length (pixels im))). intros n.
  assert (forall j, grayscale_loop (pixels im) n (4 * j)
                    = grayscale_loop (pixels im') n (4 * j)) as Hloop.
  { induction n as [|n IH]; intros j; cbn [grayscale_loop]; [reflexivity|].
    rewrite <- !Hrgb.
    - replace (4 * j + 4) with (4 * S j) by lia. now rewrite IH.
    - replace (4 * j + 2) with (2 + j * 4) by lia.
      rewrite Nat.Div0.mod_add. cbn. lia.
    - replace (4 * j + 1) with (1 + j * 4) by lia.
      rewrite Nat.Div0.mod_add. cbn. lia.
    - replace (4 * j) with (0 + j * 4) by lia.
      rewrite Nat.Div0.mod_add. cbn. lia. }
  exact (Hloop 0).
Qed.

(** X10 on a grey pixel with two different alphas. *)
Lemma is_grayscale_image_ignores_alpha_witness :
  same_rgb Sample2.opaque_grey Sample2.clear_grey /\
  _is_grayscale_image (Image "a" "sRGB" Sample2.opaque_grey)
  = _is_grayscale_image (Image "b" "sRGB" Sample2.clear_grey).
Proof.
  assert (same_rgb Sample2.opaque_grey Sample2.clear_grey) as Hsame.
  { split; [reflexivity|].
    intros [|[|[|[|i]]]] Hi; try reflexivity. exfalso. apply Hi. reflexivity. }
  split; [exact Hsame|].
  exact (is_grayscale_image_ignores_alpha (Image "a" "sRGB" Sample2.opaque_grey)
           (Image "b" "sRGB" Sample2.clear_grey) Hsame).
Defined.

(** X11: a pixel with a channel that is not a number is never grey: an RGBA
    buffer that holds NaN in a red, green or blue channel is classified as
    colour. *)
Theorem is_grayscale_image_nan (im : image) (k : nat) :
  length (pixels im) mod 4 = 0 ->
  4 * k < length (pixels im) ->
  pixels im !! (4 * k) = Some S754_nan \/
  pixels im !! (4 * k + 1) = Some S754_nan \/
  pixels im !! (4 * k + 2) = Some S754_nan ->
  _is_grayscale_image im = Ok false.
Proof.
  intros Hmod Hk Hnan. apply (is_grayscale_image_spec im Hmod).
  intros Hall. destruct (Hall k Hk) as (r & g & b & Hr & Hg & Hb & Hrg & Hgb).
  assert (forall x, SFeqb S754_nan x = false) as Hleft by reflexivity.
  assert (forall x, SFeqb x S754_nan = false) as Hright by (now intros []).
  destruct Hnan as [Hn|[Hn|Hn]].
  - assert (Some r = Some S754_nan) as [= ->] by (rewrite <- Hn; symmetry; exact Hr).
    rewrite Hleft in Hrg. discriminate.
  - assert (Some g = Some S754_nan) as [= ->] by (rewrite <- Hn; symmetry; exact Hg).
    rewrite Hleft in Hgb. discriminate.
  - assert (Some b = Some S754_nan) as [= ->] by (rewrite <- Hn; symmetry; exact Hb).
    rewrite Hright in Hgb. discriminate.
Qed.

(** X11 on a pixel whose green channel is NaN. *)
Lemma is_grayscale_image_nan_witness :
  Sample2.nan_pixel !! 1 = Some S754_nan /\
  _is_grayscale_image (Image "" "" Sample2.nan_pixel) = Ok false.
Proof.
  split; [reflexivity|].
  apply (is_grayscale_image_nan (Image "" "" Sample2.nan_pixel) 0);
    [reflexivity | cbn; lia | right; left; reflexivity].
Defined.

(** ** import_emission: looking for the source *)

Section EmissionSource.

Variable h : host.
Variable p : processor.

Lemma find_emission_link_none (sc : scene) :
  no_emission_texture p sc -> find_emission_link p sc = None.
Proof.
  intros Hno. unfold find_emission_link.
  destruct (List.find _ (links sc)) as [l|] eqn:Hfind; [|reflexivity].
  apply find_some in Hfind as [Hin Hl]. apply andb_true_iff in Hl as [Hends Hty].
  rewrite (Hno l Hin Hends) in Hty. discriminate.
Qed.

Lemma emission_source_imported (sc : scene) :
  no_emission_texture p sc ->
  emission_source h p sc
  = match find_texture_file h (file_path p) (base_name p) "_emm" with
    | Some path => (Ok (Some (length (nodes sc))), with_texture h path false sc)
    | None =>
        match find_texture_file h (file_path p) (base_name p) "_emi" with
        | Some path => (Ok (Some (length (nodes sc))), with_texture h path false sc)
        | None => (Ok None, sc)
        end
    end.
Proof.
  intros Hno. unfold emission_source.
  rewrite (bind_ok get _ sc sc sc eq_refl), (find_emission_link_none _ Hno).
  destruct (find_texture_file h (file_path p) (base_name p) "_emm") as [path|] eqn:Hemm.
  - now rewrite (bind_ok _ _ _ _ _ (import_texture_some h p _ _ false sc Hemm)).
  - rewrite (bind_ok _ _ _ _ _ (import_texture_none h p _ false sc Hemm)).
    destruct (find_texture_file h (file_path p) (base_name p) "_emi") as [path|] eqn:Hemi.
    + apply (import_texture_some h p _ _ false sc Hemi).
    + apply (import_texture_none h p _ false sc Hemi).
Qed.

End EmissionSource.

(** X12: with a principled node, no image texture linked into its Emission
    Color input and neither [_emm] nor [_emi] in the directory,
    [import_emission] returns normally and leaves the scene as it was. *)
Theorem import_emission_nothing_to_import (h : host) (p : processor) (sc : scene) :
  no_emission_texture p sc ->
  texture_absent h p "_emm" ->
  texture_absent h p "_emi" ->
  import_emission h p sc = (Ok tt, sc).
Proof.
  intros Hno Hemm Hemi. apply texture_absent_iff in Hemm, Hemi.
  unfold import_emission. destruct (principled_node p); [|reflexivity].
  assert (emission_source h p sc = (Ok None, sc)) as Hsrc
    by (rewrite (emission_source_imported h p sc Hno); now rewrite Hemm, Hemi).
  now rewrite (bind_ok _ _ _ _ _ Hsrc).
Qed.

(** X12 on [Sample.with_albedo] with only albedo and normal files listed. *)
Lemma import_emission_nothing_to_import_witness :
  no_emission_texture
    (init (Sample.the_host (Some ["Char_alb.png"; "Char_nrm.png"])) Sample.with_albedo "/tex")
    Sample.with_albedo /\
  import_emission (Sample.the_host (Some ["Char_alb.png"; "Char_nrm.png"]))
    (init (Sample.the_host (Some ["Char_alb.png"; "Char_nrm.png"])) Sample.with_albedo "/tex")
    Sample.with_albedo = (Ok tt, Sample.with_albedo).
Proof.
  assert (no_emission_texture
            (init (Sample.the_host (Some ["Char_alb.png"; "Char_nrm.png"]))
               Sample.with_albedo "/tex") Sample.with_albedo) as Hno
    by (intros l [<-|[]] Hends; discriminate Hends).
  split; [exact Hno|].
  apply (import_emission_nothing_to_import _ _ _ Hno);
    apply texture_absent_iff; reflexivity.
Defined.

(** X13: the emission source is looked for in a fixed order.  With no image
    texture linked into Emission Color, a resolved [_emm] file is imported
    and [_emi] is not looked at; [_emi] is imported only when [_emm] does
    not resolve.  Either way exactly one texture node is added. *)
Theorem emission_source_prefers_emm (h : host) (p : processor) (sc : scene) :
  no_emission_texture p sc ->
  (~ texture_absent h p "_emm" ->
     exists file,
       PyStr.lower file = PyStr.lower (expected_filename (base_name p) "_emm") /\
       emission_source h p sc
       = (Ok (Some (length (nodes sc))),
          with_texture h (PyStr.path_join (file_path p) file) false sc)) /\
  (texture_absent h p "_emm" -> ~ texture_absent h p "_emi" ->
     exists file,
       PyStr.lower file = PyStr.lower (expected_filename (base_name p) "_emi") /\
       emission_source h p sc
       = (Ok (Some (length (nodes sc))),
          with_texture h (PyStr.path_join (file_path p) file) false sc)).
Proof.
  intros Hno. rewrite (emission_source_imported h p sc Hno). split.
  - intros Hemm.
    destruct (present_resolves _ _ _ Hemm) as (_ & file & _ & _ & Hlow & Hf).
    exists file. split; [exact Hlow|]. now rewrite Hf.
  - intros Hemm Hemi. apply texture_absent_iff in Hemm.
    destruct (present_resolves _ _ _ Hemi) as (_ & file & _ & _ & Hlow & Hf).
    exists file. split; [exact Hlow|]. now rewrite Hemm, Hf.
Qed.

(** X13 on [Sample.bare] with both [Char_emi.png] and [Char_emm.png] listed. *)
Lemma emission_source_prefers_emm_witness :
  no_emission_texture
    (init (Sample.the_host (Some ["Char_emi.png"; "Char_emm.png"])) Sample.bare "/tex")
    Sample.bare /\
  exists file,
    PyStr.lower file = "char_emm.png" /\
    emission_source (Sample.the_host (Some ["Char_emi.png"; "Char_emm.png"]))
      (init (Sample.the_host (Some ["Char_emi.png"; "Char_emm.png"])) Sample.bare "/tex")
      Sample.bare
    = (Ok (Some 1),
       with_texture (Sample.the_host (Some ["Char_emi.png"; "Char_emm.png"]))
         (PyStr.path_join "/tex" file) false Sample.bare).
Proof.
  assert (no_emission_texture
            (init (Sample.the_host (Some ["Char_emi.png"; "Char_emm.png"]))
               Sample.bare "/tex") Sample.bare) as Hno by (intros l []).
  split; [exact Hno|].
  apply (emission_source_prefers_emm
           (Sample.the_host (Some ["Char_emi.png"; "Char_emm.png"]))
           (init (Sample.the_host (Some ["Char_emi.png"; "Char_emm.png"]))
              Sample.bare "/tex") Sample.bare Hno).
  intros Habs. apply texture_absent_iff in Habs. discriminate Habs.
Defined.

(** X14: the IndexError of the classifier is not caught.  When the emission
    source holds an image whose buffer is cut inside a pixel and whose whole
    pixels are all grey, [import_emission] raises IndexError; the scene is
    left as the source lookup left it: no mix node, no link, no colour
    space changed. *)
Theorem import_emission_cut_buffer
    (h : host) (p : processor) (sc sc1 : scene) (pn e i : nat) (nd : node) (im : image) :
  principled_node p = Some pn ->
  emission_source h p sc = (Ok (Some e), sc1) ->
  nodes sc1 !! e = Some nd ->
  node_image nd = Some i ->
  images sc1 !! i = Some im ->
  length (pixels im) mod 4 = 1 \/ length (pixels im) mod 4 = 2 ->
  (forall k, whole_pixel (pixels im) k -> grey_pixel (pixels im) k) ->
  import_emission h p sc = (Raise IndexError, sc1).
Proof.
  intros Hpn Hsrc Hnd Himg Him Hcut Hgrey.
  apply (cut_buffer_outcome im Hcut) in Hgrey.
  unfold import_emission. rewrite Hpn.
  rewrite (bind_ok _ _ _ _ _ Hsrc).
  rewrite (bind_ok _ _ _ _ _ (read_node_ok _ _ _ Hnd)). rewrite Himg.
  rewrite (bind_ok _ _ _ _ _ (read_image_ok _ _ _ Him)).
  rewrite Hgrey. now apply bind_raise.
Qed.

(** X14 on a linked emission image of one grey pixel and one more channel. *)
Lemma import_emission_cut_buffer_witness :
  (forall k, whole_pixel Sample2.cut_pixels k -> grey_pixel Sample2.cut_pixels k) /\
  import_emission (Sample.the_host None)
    (init (Sample.the_host None) (Sample.lit Sample2.cut_pixels) "/tex")
    (Sample.lit Sample2.cut_pixels)
  = (Raise IndexError, Sample.lit Sample2.cut_pixels).
Proof.
  assert (forall k, whole_pixel Sample2.cut_pixels k -> grey_pixel Sample2.cut_pixels k)
    as Hgrey.
  { apply (cut_buffer_outcome (Image "" "" Sample2.cut_pixels)); [left|]; reflexivity. }
  split; [exact Hgrey|].
  apply (import_emission_cut_buffer (Sample.the_host None)
           (init (Sample.the_host None) (Sample.lit Sample2.cut_pixels) "/tex")
           (Sample.lit Sample2.cut_pixels) (Sample.lit Sample2.cut_pixels)
           0 1 0 (Sample.holding 0)
           (Image "/tex/Char_emm.png" "sRGB" Sample2.cut_pixels));
    try reflexivity; [left; reflexivity | exact Hgrey].
Defined.

(** ** Rules that follow the contents of a new node *)

Section RulesAt.

Variable s0 : scene.

Lemma runs_nodes_new_at (c : node_class) (s : scene) (tys : list string)
    (Q : nat -> scene -> Prop) :
  grows_by s0 s tys ->
  (forall s', grows_by s0 s' (tys ++ [type_of_class c]) -> links s' = links s ->
              nodes s' !! (length (nodes s0) + length tys) = Some (fresh_node c) ->
              (forall n nd, nodes s !! n = Some nd -> nodes s' !! n = Some nd) ->
              Q (length (nodes s0) + length tys) s') ->
  runs (nodes_new c) s Q.
Proof.
  intros Hg HQ. eapply runs_eq; [reflexivity|].
  rewrite (grows_length _ _ _ Hg).
  apply HQ; [now apply grows_node_new | reflexivity | |].
  - cbn [with_nodes nodes]. rewrite <- (grows_length _ _ _ Hg). apply lookup_snoc.
  - intros n nd Hnd. cbn [with_nodes nodes]. now apply lookup_app_l_Some.
Qed.

Lemma runs_update_node_at (k : nat) (ty : string) (f : node -> node) (s : scene)
    (tys : list string) (nd : node) (Q : unit -> scene -> Prop) :
  grows_by s0 s tys -> tys !! k = Some ty ->
  (forall x, type (f x) = type x) ->
  nodes s !! (length (nodes s0) + k) = Some nd ->
  (forall s', grows_by s0 s' tys -> links s' = links s ->
              nodes s' !! (length (nodes s0) + k) = Some (f nd) ->
              (forall n x, n <> length (nodes s0) + k ->
                           nodes s !! n = Some x -> nodes s' !! n = Some x) ->
              Q tt s') ->
  runs (update_node (length (nodes s0) + k) f) s Q.
Proof.
  intros Hg Hk Hf Hnd HQ. eapply runs_eq.
  - unfold update_node. rewrite (bind_ok _ _ _ _ _ (read_node_ok _ _ _ Hnd)). reflexivity.
  - apply HQ; [now apply grows_node_update | reflexivity | |].
    + cbn [with_nodes nodes]. apply list_lookup_insert_eq.
      eapply lookup_lt_Some; eassumption.
    + intros n x Hne Hx. cbn [with_nodes nodes].
      now rewrite list_lookup_insert_ne by congruence.
Qed.

Lemma grows_single (s : scene) (ty : string) (x : node) :
  grows_by s0 s [ty] -> nodes s !! (length (nodes s0) + 0) = Some x ->
  nodes s = nodes s0 ++ [x].
Proof.
  intros (_ & _ & new & Hnodes & Hty) Hx. rewrite Hnodes in *.
  destruct new as [|y [|z new]]; try discriminate Hty.
  rewrite lookup_app_r in Hx by lia.
  replace (length (nodes s0) + 0 - length (nodes s0)) with 0 in Hx by lia.
  cbn in Hx. congruence.
Qed.

End RulesAt.

(** ** import_emission: the multiply mix *)

Lemma has_type_same_nodes (s s' : scene) (n : nat) (ty : string) :
  nodes s' = nodes s -> has_type s' n ty = has_type s n ty.
Proof. intros Hn. unfold has_type. now rewrite Hn. Qed.

(** X15: the wiring made by [import_emission].  On a host that gives the
    nodes their sockets, with a principled node and an emission source that
    holds an image the classifier accepts, the call returns normally and
    appends exactly one node, a MULTIPLY mix with factor 1.0.  The Color
    output of the mix is the single link into the Emission Color input of
    the principled node, the Color output of the emission texture is the
    single link into the third input of the mix, and the node that feeds
    Base Color, if there is one, also feeds the second input of the mix. *)
Theorem import_emission_wires_multiply
    (h : host) (p : processor) (sc sc1 : scene) (pn e i : nat) (nd : node)
    (im : image) (gray : bool) :
  colour_sockets h ->
  principled_node p = Some pn ->
  has_type sc1 pn "BSDF_PRINCIPLED" = true ->
  emission_source h p sc = (Ok (Some e), sc1) ->
  nodes sc1 !! e = Some nd ->
  type nd = "TEX_IMAGE" ->
  node_image nd = Some i ->
  images sc1 !! i = Some im ->
  _is_grayscale_image im = Ok gray ->
  source_has_color h sc1 pn (ByName "Base Color") ->
  exists sc' fac,
    import_emission h p sc = (Ok tt, sc') /\
    nodes sc' = nodes sc1 ++ [multiply_node (sock_index fac)] /\
    inputs h (length (nodes sc1)) (ByName "Fac") sc' = (Ok fac, sc') /\
    drives h sc' (length (nodes sc1)) (ByName "Color") pn (ByName "Emission Color") /\
    drives h sc' e (ByName "Color") (length (nodes sc1)) (ByIndex 2) /\
    (forall bc l ls,
       inputs h pn (ByName "Base Color") sc1 = (Ok bc, sc1) ->
       links_into bc (links sc1) = l :: ls ->
       drives h sc' (from_node l) (ByName "Color") (length (nodes sc1)) (ByIndex 1)).
Proof.
  intros Hh Hpn Tpn Hsrc Hnd Htex Himg Him Hgray Hbase.
  pose proof (cs_mix_inputs h Hh) as Hmix.
  assert (has_type sc1 e "TEX_IMAGE" = true) as Te by (apply has_type_iff; eauto).
  (* the classifier and the colour space *)
  assert (exists s2, (if gray then set_colorspace i "Non-Color" else ret tt) sc1 = (Ok tt, s2)
                     /\ nodes s2 = nodes sc1 /\ links s2 = links sc1) as (s2 & Hcs & Hn2 & Hl2).
  { destruct gray.
    - eexists. split; [apply (set_colorspace_ok _ _ _ "Non-Color" Him)|]. now split.
    - exists sc1. now split. }
  assert (forall n ty, has_type sc1 n ty = true -> has_type s2 n ty = true) as T2
    by (intros n ty Hn; now rewrite (has_type_same_nodes sc1 s2 n ty Hn2)).
  set (mix := length (nodes s2) + 0).
  assert (length (nodes sc1) = mix) as Hmixeq by (unfold mix; rewrite Hn2; lia).
  rewrite Hmixeq.
  destruct (resolve_name mix _ _ (cs_mix_fac h Hh)) as [iFac HFac].
  destruct (resolve_name pn _ _ (cs_base_color h Hh)) as [iBC HBC].
  destruct (resolve_name pn _ _ (cs_emission_color h Hh)) as [iEC HEC].
  destruct (resolve_name e _ _ (cs_tex_color h Hh)) as [iTC HTC].
  destruct (resolve_name mix _ _ (cs_mix_color h Hh)) as [iMC HMC].
  destruct (resolve_index mix (sockets_in h "MIX_RGB") 1) as [nm1 HM1]; [lia|].
  destruct (resolve_index mix (sockets_in h "MIX_RGB") 2) as [nm2 HM2]; [lia|].
  set (fac := Socket mix iFac "Fac") in *.
  set (bc := Socket pn iBC "Base Color") in *.
  set (ec := Socket pn iEC "Emission Color") in *.
  set (tc := Socket e iTC "Color") in *.
  set (mc := Socket mix iMC "Color") in *.
  set (m1 := Socket mix 1 nm1) in *.
  set (m2 := Socket mix 2 nm2) in *.
  enough (runs (import_emission h p) sc
            (fun _ sc' =>
               nodes sc' = nodes s2 ++ [multiply_node iFac] /\
               has_type sc' mix "MIX_RGB" = true /\
               links_into ec (links sc') = [Link mc ec] /\
               links_into m2 (links sc') = [Link tc m2] /\
               forall l ls ty ob,
                 links_into bc (links sc1) = l :: ls ->
                 has_type sc1 (from_node l) ty = true ->
                 resolve (from_node l) (sockets_out h ty) (ByName "Color") = Ok ob ->
                 links_into m1 (links sc') = [Link ob m1]))
    as ([] & sc' & Hrun & Hnodes & Tmix & Lec & Lm2 & Lm1).
  { assert (forall n ty, has_type sc1 n ty = true -> has_type sc' n ty = true) as T'.
    { intros n ty Hn. apply has_type_iff in Hn as (x & Hx & Hty). apply has_type_iff.
      exists x. split; [|exact Hty]. rewrite Hnodes, Hn2. now apply lookup_app_l_Some. }
    exists sc', fac. split; [exact Hrun|]. split; [now rewrite Hnodes, Hn2|].
    split; [exact (inputs_ok h sc' _ _ _ _ Tmix HFac)|].
    split; [|split].
    - exists mc, ec. split; [exact (outputs_ok h sc' _ _ _ _ Tmix HMC)|].
      split; [exact (inputs_ok h sc' _ _ _ _ (T' _ _ Tpn) HEC) | exact Lec].
    - exists tc, m2. split; [exact (outputs_ok h sc' _ _ _ _ (T' _ _ Te) HTC)|].
      split; [exact (inputs_ok h sc' _ _ _ _ Tmix HM2) | exact Lm2].
    - intros bc' l ls Hbc Hl.
      rewrite (inputs_ok h sc1 _ _ _ _ Tpn HBC) in Hbc. injection Hbc as <-.
      destruct (Hbase bc l ls (inputs_ok h sc1 _ _ _ _ Tpn HBC) Hl) as (ty & Tl & Hcolor).
      destruct (resolve_name (from_node l) _ _ Hcolor) as [io Ho].
      exists (Socket (from_node l) io "Color"), m1.
      split; [exact (outputs_ok h sc' _ _ _ _ (T' _ _ Tl) Ho)|].
      split; [exact (inputs_ok h sc' _ _ _ _ Tmix HM1)|].
      exact (Lm1 l ls ty _ Hl Tl Ho). }
  unfold import_emission. rewrite Hpn.
  apply runs_bind. eapply runs_eq; [exact Hsrc|]. cbn beta iota.
  apply runs_bind. eapply runs_eq; [exact (read_node_ok _ _ _ Hnd)|]. rewrite Himg.
  apply runs_bind. eapply runs_eq; [exact (read_image_ok _ _ _ Him)|].
  apply runs_bind. eapply runs_eq; [rewrite Hgray; reflexivity|].
  apply runs_bind. eapply runs_eq; [exact Hcs|].
  apply runs_bind. apply (runs_nodes_new_at s2 ShaderNodeMixRGB s2 []); [apply grows_refl|].
  intros s3 G3 L3 N3 _. cbn [app length type_of_class] in G3, N3 |- *. fold mix in N3 |- *.
  apply runs_bind. unfold set_blend_type.
  eapply (runs_update_node_at s2 0); [exact G3 | reflexivity | reflexivity | exact N3 |].
  intros s4 G4 L4 N4 _. fold mix in N4.
  apply runs_bind. eapply runs_inputs; [new_type G4 | exact HFac |].
  apply runs_bind. unfold set_in_default. cbn [sock_node fac].
  eapply (runs_update_node_at s2 0); [exact G4 | reflexivity | reflexivity | exact N4 |].
  intros s5 G5 L5 N5 _. fold mix in N5. cbn [sock_index fac] in N5.
  assert (has_type s5 pn "BSDF_PRINCIPLED" = true) as Tp5 by old_type G5 (T2 _ _ Tpn).
  assert (has_type s5 e "TEX_IMAGE" = true) as Te5 by old_type G5 (T2 _ _ Te).
  assert (has_type s5 mix "MIX_RGB" = true) as Tm5 by new_type G5.
  assert (links s5 = links sc1) as Hl5 by congruence.
  apply runs_bind. eapply runs_eq; [unfold principled; rewrite Hpn; reflexivity|].
  apply runs_bind. eapply runs_inputs; [exact Tp5 | exact HBC |].
  apply runs_bind. eapply runs_eq; [reflexivity|].
  assert (mix <> pn) as Hne
    by (eapply has_type_neq; [exact Tm5 | exact Tp5 | discriminate]).
  (* the optional link from the source of Base Color *)
  assert (exists s6,
            match links_into bc (links s5) with
            | l :: _ => connect (outputs h (from_node l) (ByName "Color"))
                                (inputs h mix (ByIndex 1))
            | [] => ret tt
            end s5 = (Ok tt, s6) /\
            nodes s6 = nodes s5 /\
            forall l ls ty ob,
              links_into bc (links sc1) = l :: ls ->
              has_type sc1 (from_node l) ty = true ->
              resolve (from_node l) (sockets_out h ty) (ByName "Color") = Ok ob ->
              links_into m1 (links s6) = [Link ob m1]) as (s6 & Hopt & Hn6 & Lm1).
  { rewrite Hl5. destruct (links_into bc (links sc1)) as [|l ls] eqn:Hbc.
    - exists s5. split; [reflexivity|]. split; [reflexivity|]. intros; discriminate.
    - destruct (Hbase bc l ls (inputs_ok h sc1 _ _ _ _ Tpn HBC) Hbc) as (ty & Tl & Hcolor).
      destruct (resolve_name (from_node l) _ _ Hcolor) as [io Ho].
      exists (with_links (relink (Socket (from_node l) io "Color") m1) s5).
      split.
      { apply connect_ok;
          [apply (outputs_ok h s5 _ ty); [old_type G5 (T2 _ _ Tl) | exact Ho]
          | exact (inputs_ok h s5 _ _ _ _ Tm5 HM1)]. }
      split; [reflexivity|].
      intros l' ls' ty' ob [= <- <-] Tl' Ho'.
      assert (ty' = ty) as -> by (eapply has_type_unique; eassumption).
      assert (ob = Socket (from_node l) io "Color") as -> by congruence.
      cbn [with_links links]. apply links_into_relink. }
  apply runs_bind. eapply runs_eq; [exact Hopt|].
  assert (has_type s6 e "TEX_IMAGE" = true) as Te6
    by (now rewrite (has_type_same_nodes s5 s6 e _ Hn6)).
  assert (has_type s6 mix "MIX_RGB" = true) as Tm6
    by (now rewrite (has_type_same_nodes s5 s6 mix _ Hn6)).
  assert (has_type s6 pn "BSDF_PRINCIPLED" = true) as Tp6
    by (now rewrite (has_type_same_nodes s5 s6 pn _ Hn6)).
  apply runs_bind. eapply runs_connect;
    [exact (outputs_ok h s6 _ _ _ _ Te6 HTC) | exact (inputs_ok h s6 _ _ _ _ Tm6 HM2) |].
  set (s7 := with_links (relink tc m2) s6).
  eapply runs_connect;
    [exact (outputs_ok h s7 _ _ _ _ Tm6 HMC)
    | exact (principled_inputs_ok h p s7 _ _ _ _ Hpn Tp6 HEC) |].
  cbn [s7 with_links nodes links].
  split; [|split; [|split; [|split]]].
  - rewrite Hn6. eapply grows_single; [exact G5 | exact N5].
  - exact Tm6.
  - apply links_into_relink.
  - rewrite links_into_relink_other
      by (apply same_socket_other_node; cbn [sock_node ec m2]; congruence).
    apply links_into_relink.
  - intros l ls ty ob Hbc Tl Ho.
    rewrite links_into_relink_other
      by (apply same_socket_other_node; cbn [sock_node ec m1]; congruence).
    rewrite links_into_relink_other
      by (apply same_socket_other_index; cbn [sock_index m2 m1]; lia).
    exact (Lm1 l ls ty ob Hbc Tl Ho).
Qed.

(** The sample host gives the colour recipes their sockets. *)
Lemma sample_colour_sockets (files : option (list string)) :
  colour_sockets (Sample.the_host files).
Proof. split; cbn; solve [auto 10 | lia]. Qed.

(** X15 on [Sample.with_albedo] with [Char_emm.png] in the directory: the
    new mix is node 3, fed by the albedo texture 1 and the emission
    texture 2. *)
Lemma import_emission_wires_multiply_witness :
  colour_sockets (Sample.the_host (Some ["Char_emm.png"])) /\
  source_has_color (Sample.the_host (Some ["Char_emm.png"]))
    (with_texture (Sample.the_host (Some ["Char_emm.png"])) "/tex/Char_emm.png" false
       Sample.with_albedo) 0 (ByName "Base Color") /\
  exists sc',
    import_emission (Sample.the_host (Some ["Char_emm.png"]))
      (init (Sample.the_host (Some ["Char_emm.png"])) Sample.with_albedo "/tex")
      Sample.with_albedo = (Ok tt, sc') /\
    drives (Sample.the_host (Some ["Char_emm.png"])) sc'
      3 (ByName "Color") 0 (ByName "Emission Color") /\
    drives (Sample.the_host (Some ["Char_emm.png"])) sc'
      2 (ByName "Color") 3 (ByIndex 2) /\
    drives (Sample.the_host (Some ["Char_emm.png"])) sc'
      1 (ByName "Color") 3 (ByIndex 1).
Proof.
  assert (source_has_color (Sample.the_host (Some ["Char_emm.png"]))
            (with_texture (Sample.the_host (Some ["Char_emm.png"])) "/tex/Char_emm.png"
               false Sample.with_albedo) 0 (ByName "Base Color")) as Hbase.
  { intros i l ls Hi Hl. vm_compute in Hi. injection Hi as <-.
    vm_compute in Hl. injection Hl as <- <-.
    exists "TEX_IMAGE". split; [reflexivity | cbn; auto]. }
  split; [apply sample_colour_sockets|]. split; [exact Hbase|].
  destruct (import_emission_wires_multiply (Sample.the_host (Some ["Char_emm.png"]))
              (init (Sample.the_host (Some ["Char_emm.png"])) Sample.with_albedo "/tex")
              Sample.with_albedo
              (with_texture (Sample.the_host (Some ["Char_emm.png"])) "/tex/Char_emm.png"
                 false Sample.with_albedo)
              0 2 1 (texture_node 1)
              (Image "/tex/Char_emm.png" "sRGB" Sample.colour_pixels) false
              (sample_colour_sockets _) eq_refl eq_refl eq_refl eq_refl eq_refl eq_refl
              eq_refl eq_refl Hbase)
    as (sc' & fac & Hrun & _ & _ & Dem & Dtex & Dbase).
  exists sc'. split; [exact Hrun|]. split; [exact Dem|]. split; [exact Dtex|].
  apply (Dbase (Socket 0 0 "Base Color")
           (Link (Socket 1 0 "Color") (Socket 0 0 "Base Color")) []); reflexivity.
Defined.

(** ** The node tree only grows *)

Section Framed.

Variable s0 : scene.

Lemma node_prefix_refl : node_prefix s0 s0.
Proof. split; [reflexivity|]. exists []. split; [now rewrite app_nil_r | constructor]. Qed.

Lemma node_prefix_length (s : scene) :
  node_prefix s0 s -> length (nodes s0) <= length (nodes s).
Proof. intros (_ & new & -> & _). rewrite length_app. lia. Qed.

Lemma node_prefix_same (s s' : scene) :
  name s' = name s -> nodes s' = nodes s -> node_prefix s0 s -> node_prefix s0 s'.
Proof.
  intros Hn Hnodes (Hname & new & Hnew & Hty). split; [congruence|].
  exists new. split; [congruence | exact Hty].
Qed.

Lemma framed_bind {A B} (c : M A) (k : A -> M B) (P : A -> Prop) (Q : B -> Prop) :
  framed s0 c P -> (forall a, P a -> framed s0 (k a) Q) -> framed s0 (bind c k) Q.
Proof.
  intros Hc Hk s Hs. unfold bind. destruct (Hc s Hs) as [Hs' HP].
  destruct (c s) as [[a|e] s']; cbn [fst snd] in *.
  - apply (Hk a (HP a eq_refl) s' Hs').
  - split; [exact Hs' | discriminate].
Qed.

Lemma framed_weaken {A} (c : M A) (P Q : A -> Prop) :
  framed s0 c P -> (forall a, P a -> Q a) -> framed s0 c Q.
Proof. intros Hc Himp s Hs. destruct (Hc s Hs) as [Hs' HP]. split; auto. Qed.

(** Nothing is asked of the value. *)
Lemma framed_forget {A} (c : M A) :
  framed s0 c (fun _ => True) -> framed s0 c (fun _ => True).
Proof. exact (fun H => H). Qed.

(** A step that leaves name and nodes alone. *)
Lemma framed_still {A} (c : M A) (P : A -> Prop) :
  (forall s, name (snd (c s)) = name s /\ nodes (snd (c s)) = nodes s /\
             forall a, fst (c s) = Ok a -> P a) ->
  framed s0 c P.
Proof.
  intros Hc s Hs. destruct (Hc s) as (Hname & Hnodes & HP).
  split; [|exact HP]. eapply node_prefix_same; eassumption.
Qed.

Lemma framed_ret {A} (a : A) : framed s0 (ret a) (fun _ => True).
Proof. apply framed_still. intros s. repeat split. Qed.

Lemma framed_ret_eq {A} (a : A) : framed s0 (ret a) (fun x => x = a).
Proof. apply framed_still. intros s. repeat split. now intros x [= <-]. Qed.

Lemma framed_raise {A} (e : exn) (P : A -> Prop) : framed s0 (raise e) P.
Proof. apply framed_still. intros s. repeat split. discriminate. Qed.

Lemma framed_lift {A} (r : result A) : framed s0 (lift r) (fun _ => True).
Proof. apply framed_still. intros s. repeat split. Qed.

Lemma framed_get : framed s0 get (fun _ => True).
Proof. apply framed_still. intros s. repeat split. Qed.

Lemma framed_read_node (n : nat) : framed s0 (read_node n) (fun _ => True).
Proof.
  apply framed_still. intros s. unfold read_node.
  destruct (nodes s !! n); repeat split.
Qed.

Lemma framed_read_image (i : nat) : framed s0 (read_image i) (fun _ => True).
Proof.
  apply framed_still. intros s. unfold read_image.
  destruct (images s !! i); repeat split.
Qed.

Lemma framed_update_image (i : nat) (f : image -> image) :
  framed s0 (update_image i f) (fun _ => True).
Proof.
  apply framed_still. intros s. unfold update_image, bind, read_image.
  destruct (images s !! i); repeat split.
Qed.

Lemma framed_images_load (h : host) (path : string) :
  framed s0 (images_load h path) (fun _ => True).
Proof. apply framed_still. intros s. repeat split. Qed.

Lemma framed_links_new (o i : socket) : framed s0 (links_new o i) (fun _ => True).
Proof. apply framed_still. intros s. repeat split. Qed.

Lemma framed_principled (p : processor) : framed s0 (principled p) (fun _ => True).
Proof.
  apply framed_still. intros s. unfold principled.
  destruct (principled_node p); repeat split.
Qed.

Lemma framed_inputs (h : host) (n : nat) (k : key) :
  framed s0 (inputs h n k) (fun sk => sock_node sk = n).
Proof.
  apply framed_still. intros s. unfold inputs, bind, read_node, lift.
  destruct (nodes s !! n) as [nd|]; cbn [fst snd]; repeat split; try discriminate.
  intros sk Hsk. eapply resolve_node. exact Hsk.
Qed.

Lemma framed_outputs (h : host) (n : nat) (k : key) :
  framed s0 (outputs h n k) (fun sk => sock_node sk = n).
Proof.
  apply framed_still. intros s. unfold outputs, bind, read_node, lift.
  destruct (nodes s !! n) as [nd|]; cbn [fst snd]; repeat split; try discriminate.
  intros sk Hsk. eapply resolve_node. exact Hsk.
Qed.

(** A new node goes after the nodes of [s0]; no class the module
    instantiates is the principled BSDF. *)
Lemma framed_nodes_new (c : node_class) :
  framed s0 (nodes_new c) (fun n => length (nodes s0) <= n).
Proof.
  intros s Hs. cbn [nodes_new fst snd]. split.
  - destruct Hs as (Hname & new & Hnew & Hty). split; [exact Hname|].
    exists (new ++ [fresh_node c]). cbn [with_nodes nodes]. split.
    + now rewrite Hnew, app_assoc.
    + apply Forall_app. split; [exact Hty|]. constructor; [|constructor].
      destruct c; discriminate.
  - intros n [= <-]. now apply node_prefix_length.
Qed.

(** An assignment to an attribute of a node that is not one of [s0] leaves
    those alone. *)
Lemma framed_update_node (n : nat) (f : node -> node) :
  length (nodes s0) <= n -> (forall nd, type (f nd) = type nd) ->
  framed s0 (update_node n f) (fun _ => True).
Proof.
  intros Hn Hf s Hs. unfold update_node, bind, read_node.
  destruct (nodes s !! n) as [nd|] eqn:Hnd; cbn [fst snd modify]; [|now split].
  split; [|auto]. destruct Hs as (Hname & new & Hnew & Hty). split; [exact Hname|].
  exists (<[n - length (nodes s0) := f nd]> new). cbn [with_nodes nodes]. split.
  - rewrite Hnew. now rewrite insert_app_r_alt by lia.
  - apply Forall_insert; [exact Hty|]. rewrite Hf.
    rewrite Hnew, lookup_app_r in Hnd by lia.
    exact (Forall_lookup_1 _ _ _ _ Hty Hnd).
Qed.

End Framed.

(** Walk a method statement by statement with the rules above. *)
Ltac frame_prim :=
  first
    [ apply framed_ret_eq
    | apply framed_ret
    | apply framed_raise
    | apply framed_lift
    | apply framed_get
    | apply framed_read_node
    | apply framed_read_image
    | apply framed_update_image
    | apply framed_images_load
    | apply framed_links_new
    | apply framed_principled
    | apply framed_inputs
    | apply framed_outputs
    | apply framed_nodes_new
    | apply framed_update_node; [cbv beta in *; lia | intros; reflexivity] ].

Ltac frame_open :=
  progress unfold connect, set_image, set_blend_type, set_location, set_in_default,
    set_out_default, set_colorspace, image_of, principled_location.

Ltac frame :=
  lazymatch goal with
  | |- framed _ (bind _ _) ?P =>
      tryif is_evar P then (apply framed_forget; frame)
      else (eapply framed_bind; [frame | intros ? ?; frame])
  | |- framed _ (match ?x with _ => _ end) ?P =>
      tryif is_evar P then (apply framed_forget; frame)
      else (destruct x; frame)
  | |- framed _ (let _ := _ in _) _ => cbv zeta; frame
  | |- framed _ _ ?P =>
      first
        [ frame_prim
        | eapply framed_weaken; [frame_prim | intros; exact I]
        | solve [eauto with framed]
        | tryif is_evar P then apply framed_forget else idtac;
          solve [eauto with framed]
        | frame_open; frame ]
  end.

Create HintDb framed.

Section FramedMethods.

Variables (s0 : scene) (h : host) (p : processor).

Lemma framed_import_texture (suffix : string) (non_color : bool) :
  framed s0 (import_texture h p suffix non_color) (fun _ => True).
Proof. unfold import_texture. frame. Qed.

Lemma framed_new_white_node (place : float * float -> float * float) :
  framed s0 (new_white_node h p place) (fun _ => True).
Proof. unfold new_white_node. frame. Qed.

Hint Resolve framed_import_texture framed_new_white_node : framed.

Lemma framed_link_texture_principled_node (tex : option nat) (input_name : string) :
  framed s0 (link_texture_principled_node h p tex input_name) (fun _ => True).
Proof. unfold link_texture_principled_node. frame. Qed.

Lemma framed_import_normal : framed s0 (import_normal h p) (fun _ => True).
Proof. unfold import_normal. frame. Qed.

Lemma framed_import_second_alb : framed s0 (import_second_alb h p) (fun _ => True).
Proof. unfold import_second_alb. frame. Qed.

Lemma framed_translucent_setup (trm : nat) :
  framed s0 (translucent_setup h p trm) (fun _ => True).
Proof. unfold translucent_setup. frame. Qed.

Lemma framed_share_normal_map (t : nat) :
  framed s0 (share_normal_map h p t) (fun _ => True).
Proof. unfold share_normal_map. frame. Qed.

Lemma framed_shader_sum (t : nat) : framed s0 (shader_sum h p t) (fun _ => True).
Proof. unfold shader_sum. frame. Qed.

Lemma framed_material_output : framed s0 material_output (fun _ => True).
Proof. unfold material_output. frame. Qed.

Hint Resolve framed_translucent_setup framed_share_normal_map framed_shader_sum
  framed_material_output : framed.

Lemma framed_import_second_shader : framed s0 (import_second_shader h p) (fun _ => True).
Proof. unfold import_second_shader. frame. Qed.

Lemma framed_emission_source : framed s0 (emission_source h p) (fun _ => True).
Proof. unfold emission_source. frame. Qed.

Hint Resolve framed_emission_source : framed.

Lemma framed_import_emission : framed s0 (import_emission h p) (fun _ => True).
Proof. unfold import_emission. frame. Qed.

End FramedMethods.

(** X16: every method, whatever its outcome, leaves the name of the
    material and every node that was in the tree as they were, at their
    places in the node list; the nodes it adds come after them, and none
    is a principled BSDF. *)
Theorem methods_only_append_nodes (h : host) (p : processor) (sc : scene) :
  (forall suffix non_color,
     node_prefix sc (final (import_texture h p suffix non_color sc))) /\
  (forall tex input_name,
     node_prefix sc (final (link_texture_principled_node h p tex input_name sc))) /\
  node_prefix sc (final (import_normal h p sc)) /\
  node_prefix sc (final (import_second_alb h p sc)) /\
  node_prefix sc (final (import_second_shader h p sc)) /\
  node_prefix sc (final (import_emission h p sc)).
Proof.
  pose proof (node_prefix_refl sc) as R. unfold final.
  split; [intros suffix non_color; apply (framed_import_texture sc h p suffix non_color sc R)|].
  split; [intros tex input_name;
          apply (framed_link_texture_principled_node sc h p tex input_name sc R)|].
  split; [apply (framed_import_normal sc h p sc R)|].
  split; [apply (framed_import_second_alb sc h p sc R)|].
  split; [apply (framed_import_second_shader sc h p sc R)|].
  apply (framed_import_emission sc h p sc R).
Qed.

Section CacheStays.



End CacheStays.


(** ** import_second_alb *)

Section SecondAlbBlocks.

Variable h : host.
Variable p : processor.

(** The method is its two blocks, one after the other. *)
Lemma import_second_alb_blocks :
  import_second_alb h p =
  (pn <- principled p ;;
   base_color_input <- inputs h pn (ByName "Base Color") ;;
   sc <- get ;;
   tcl_node <- import_texture h p "_tcl" true ;;
   after_tcl <-
     match tcl_node with
     | Some tcl => tcl_mix h p (colour_source base_color_input sc) tcl
     | None => ret (colour_source base_color_input sc, None)
     end ;;
   mai_node <- import_texture h p "_mai" true ;;
   match mai_node with
   | Some mai => mai_multiply h p after_tcl mai
   | None => ret tt
   end).
Proof. reflexivity. Qed.

End SecondAlbBlocks.

Section Wiring.

Variable h : host.

Lemma inputs_inv (s s' : scene) (n : nat) (k : key) (i : socket) :
  inputs h n k s = (Ok i, s') ->
  exists ty, has_type s n ty = true /\ resolve n (sockets_in h ty) k = Ok i.
Proof.
  unfold inputs, bind, read_node, lift, has_type.
  destruct (nodes s !! n) as [nd|]; [|discriminate].
  intros [= Hres _]. exists (type nd). now rewrite String.eqb_refl.
Qed.

Lemma outputs_inv (s s' : scene) (n : nat) (k : key) (o : socket) :
  outputs h n k s = (Ok o, s') ->
  exists ty, has_type s n ty = true /\ resolve n (sockets_out h ty) k = Ok o.
Proof.
  unfold outputs, bind, read_node, lift, has_type.
  destruct (nodes s !! n) as [nd|]; [|discriminate].
  intros [= Hres _]. exists (type nd). now rewrite String.eqb_refl.
Qed.

(** A new link drives its input. *)
Lemma drives_new (s : scene) (a b : nat) (tya tyb : string) (ka kb : key) (o i : socket) :
  has_type s a tya = true -> has_type s b tyb = true ->
  resolve a (sockets_out h tya) ka = Ok o ->
  resolve b (sockets_in h tyb) kb = Ok i ->
  drives h (with_links (relink o i) s) a ka b kb.
Proof.
  intros Ha Hb Ho Hi. exists o, i.
  split; [exact (outputs_ok h (with_links _ s) a tya ka o Ha Ho)|].
  split; [exact (inputs_ok h (with_links _ s) b tyb kb i Hb Hi)|].
  apply links_into_relink.
Qed.

(** A driven input stays driven while the nodes keep their types and the
    links into it stay. *)
Lemma drives_carry (s s' : scene) (a b : nat) (ka kb : key) :
  drives h s a ka b kb ->
  (forall n ty, has_type s n ty = true -> has_type s' n ty = true) ->
  (forall i, sock_node i = b ->
             (forall k, kb = ByIndex k -> sock_index i = k) ->
             links_into i (links s') = links_into i (links s)) ->
  drives h s' a ka b kb.
Proof.
  intros (o & i & Ho & Hi & Hl) Hty Hlinks.
  destruct (outputs_inv _ _ _ _ _ Ho) as (tya & Ta & Ra).
  destruct (inputs_inv _ _ _ _ _ Hi) as (tyb & Tb & Rb).
  exists o, i.
  split; [exact (outputs_ok h s' a tya ka o (Hty _ _ Ta) Ra)|].
  split; [exact (inputs_ok h s' b tyb kb i (Hty _ _ Tb) Rb)|].
  rewrite Hlinks; [exact Hl | exact (resolve_node _ _ _ _ Rb) |].
  intros k ->. exact (resolve_index_at _ _ _ _ Rb).
Qed.


Lemma drives_relink_index (s : scene) (a b : nat) (ka : key) (k : nat) (o i : socket) :
  drives h s a ka b (ByIndex k) -> sock_index i <> k ->
  drives h (with_links (relink o i) s) a ka b (ByIndex k).
Proof.
  intros Hd Hne. apply (drives_carry s _ a b ka (ByIndex k) Hd); [auto|].
  intros c _ Hc. cbn [with_links links].
  apply links_into_relink_other, same_socket_other_index.
  rewrite (Hc k eq_refl). exact Hne.
Qed.

Lemma has_type_with_texture (s : scene) (path : string) (nc : bool) (n : nat)
    (ty : string) :
  has_type s n ty = true -> has_type (with_texture h path nc s) n ty = true.
Proof.
  rewrite !has_type_iff. intros (nd & Hnd & Hty). exists nd. split; [|exact Hty].
  cbn [with_texture nodes]. now apply lookup_app_l_Some.
Qed.

Lemma has_type_new_texture (s : scene) (path : string) (nc : bool) :
  has_type (with_texture h path nc s) (length (nodes s)) "TEX_IMAGE" = true.
Proof.
  apply has_type_iff. exists (texture_node (length (images s))).
  split; [apply lookup_snoc | reflexivity].
Qed.

Lemma drives_with_texture (s : scene) (path : string) (nc : bool) (a b : nat)
    (ka kb : key) :
  drives h s a ka b kb -> drives h (with_texture h path nc s) a ka b kb.
Proof.
  intros Hd. apply (drives_carry s _ a b ka kb Hd).
  - intros n ty. apply has_type_with_texture.
  - reflexivity.
Qed.

End Wiring.

Section ColourRules.

Variable h : host.
Variable p : processor.

(** The white node as [new_white_node] leaves it, the other nodes kept. *)
Lemma runs_new_white_node_at (s0 : scene) (place : float * float -> float * float)
    (s : scene) (tys : list string) (pn : nat) (pnd : node) (Q : nat -> scene -> Prop) :
  grows_by s0 s tys -> principled_node p = Some pn -> nodes s0 !! pn = Some pnd ->
  1 <= length (sockets_out h "RGB") ->
  (forall s', grows_by s0 s' (tys ++ ["RGB"]) -> links s' = links s ->
              nodes s' !! (length (nodes s0) + length tys)
                = Some (white_node_at (place (location pnd))) ->
              (forall n x, nodes s !! n = Some x -> nodes s' !! n = Some x) ->
              Q (length (nodes s0) + length tys) s') ->
  runs (new_white_node h p place) s Q.
Proof.
  intros Hg Hpn Hpnd Hrgb HQ. unfold new_white_node.
  assert ((tys ++ ["RGB"]) !! length tys = Some "RGB") as Hk by apply lookup_snoc.
  destruct (resolve_index (length (nodes s0) + length tys) (sockets_out h "RGB") 0)
    as [nm Hres]; [lia|].
  apply runs_bind. apply (runs_nodes_new_at s0 ShaderNodeRGB s tys); [exact Hg|].
  intros s1 G1 L1 N1 K1.
  apply runs_bind. eapply runs_outputs;
    [eapply grows_new_type; [exact G1 | exact Hk] | exact Hres |].
  apply runs_bind. unfold set_out_default. cbn [sock_node].
  eapply (runs_update_node_at s0 (length tys));
    [exact G1 | exact Hk | reflexivity | exact N1 |].
  intros s2 G2 L2 N2 K2. cbn [sock_index] in N2.
  apply runs_bind. eapply runs_principled_location; [exact G2 | exact Hpn | exact Hpnd |].
  apply runs_bind. unfold set_location.
  eapply (runs_update_node_at s0 (length tys));
    [exact G2 | exact Hk | reflexivity | exact N2 |].
  intros s3 G3 L3 N3 K3.
  apply runs_ret. apply HQ; [exact G3 | congruence | exact N3 |].
  intros n x Hx.
  assert (n <> length (nodes s0) + length tys) as Hne.
  { apply lookup_lt_Some in Hx. rewrite (grows_length _ _ _ Hg) in Hx. lia. }
  apply K3; [exact Hne|]. apply K2; [exact Hne|]. now apply K1.
Qed.


Lemma grows_pair (s0 s : scene) (t1 t2 : string) (x y : node) :
  grows_by s0 s [t1; t2] ->
  nodes s !! (length (nodes s0) + 0) = Some x ->
  nodes s !! (length (nodes s0) + 1) = Some y ->
  nodes s = nodes s0 ++ [x; y].
Proof.
  intros (_ & _ & new & Hnodes & Hty) Hx Hy. rewrite Hnodes in *.
  destruct new as [|x' [|y' [|z new]]]; try discriminate Hty.
  rewrite lookup_app_r in Hx, Hy by lia.
  replace (length (nodes s0) + 0 - length (nodes s0)) with 0 in Hx by lia.
  replace (length (nodes s0) + 1 - length (nodes s0)) with 1 in Hy by lia.
  cbn in Hx, Hy. congruence.
Qed.

(** The three inputs of a mix node, wired as both blocks of
    [import_second_alb] wire them: the colour source, if there is one, into
    the second, the texture into the first, white into the third.  [k] is
    the rest of the block. *)
Lemma runs_mix_inputs {B} (s : scene) (orig : option nat) (tex m w : nat)
    (k : unit -> M B) (Q : B -> scene -> Prop) :
  colour_sockets h ->
  has_type s tex "TEX_IMAGE" = true ->
  has_type s m "MIX_RGB" = true ->
  has_type s w "RGB" = true ->
  (forall o, orig = Some o ->
             exists ty, has_type s o ty = true /\ In "Color" (sockets_out h ty)) ->
  (forall s', nodes s' = nodes s -> images s' = images s -> name s' = name s ->
              (forall c, sock_node c <> m ->
                         links_into c (links s') = links_into c (links s)) ->
              drives h s' tex (ByName "Color") m (ByIndex 0) ->
              drives h s' w (ByIndex 0) m (ByIndex 2) ->
              (forall o, orig = Some o -> drives h s' o (ByName "Color") m (ByIndex 1)) ->
              runs (k tt) s' Q) ->
  runs (match orig with
        | Some o => connect (outputs h o (ByName "Color")) (inputs h m (ByIndex 1))
        | None => ret tt
        end ;;
        connect (outputs h tex (ByName "Color")) (inputs h m (ByIndex 0)) ;;
        bind (connect (outputs h w (ByIndex 0)) (inputs h m (ByIndex 2))) k) s Q.
Proof.
  intros Hh Ttex Tm Tw Horig HQ.
  pose proof (cs_mix_inputs h Hh) as Hmix.
  destruct (resolve_index m (sockets_in h "MIX_RGB") 0) as [nm0 H0]; [lia|].
  destruct (resolve_index m (sockets_in h "MIX_RGB") 1) as [nm1 H1]; [lia|].
  destruct (resolve_index m (sockets_in h "MIX_RGB") 2) as [nm2 H2]; [lia|].
  destruct (resolve_name tex _ _ (cs_tex_color h Hh)) as [iT HT].
  destruct (resolve_index w (sockets_out h "RGB") 0) as [nmw HW];
    [apply (cs_rgb_output h Hh)|].
  (* the optional link from the colour source *)
  assert (exists s1,
            match orig with
            | Some o => connect (outputs h o (ByName "Color")) (inputs h m (ByIndex 1))
            | None => ret tt
            end s = (Ok tt, s1) /\
            nodes s1 = nodes s /\ images s1 = images s /\ name s1 = name s /\
            (forall c, sock_node c <> m ->
                       links_into c (links s1) = links_into c (links s)) /\
            (forall o, orig = Some o -> drives h s1 o (ByName "Color") m (ByIndex 1)))
    as (s1 & Hopt & N1 & I1 & M1 & F1 & D1).
  { destruct orig as [o|].
    - destruct (Horig o eq_refl) as (ty & To & Hcolor).
      destruct (resolve_name o _ _ Hcolor) as [io Ho].
      exists (with_links (relink (Socket o io "Color") (Socket m 1 nm1)) s).
      split; [apply connect_ok;
              [exact (outputs_ok h s _ _ _ _ To Ho) | exact (inputs_ok h s _ _ _ _ Tm H1)]|].
      split; [reflexivity|]. split; [reflexivity|]. split; [reflexivity|]. split.
      + intros c Hc. cbn [with_links links].
        apply links_into_relink_other, same_socket_other_node. cbn [sock_node]. congruence.
      + intros o' [= <-]. exact (drives_new h s _ _ _ _ _ _ _ _ To Tm Ho H1).
    - exists s. repeat split; try reflexivity. intros o [=]. }
  assert (forall n ty, has_type s n ty = true -> has_type s1 n ty = true) as T1
    by (intros n ty Hn; now rewrite (has_type_same_nodes s s1 n ty N1)).
  apply runs_bind. eapply runs_eq; [exact Hopt|].
  apply runs_bind. eapply runs_connect;
    [exact (outputs_ok h s1 _ _ _ _ (T1 _ _ Ttex) HT)
    | exact (inputs_ok h s1 _ _ _ _ (T1 _ _ Tm) H0) |].
  set (s2 := with_links (relink (Socket tex iT "Color") (Socket m 0 nm0)) s1).
  apply runs_bind. eapply runs_connect;
    [exact (outputs_ok h s2 _ _ _ _ (T1 _ _ Tw) HW)
    | exact (inputs_ok h s2 _ _ _ _ (T1 _ _ Tm) H2) |].
  apply HQ; cbn [s2 with_links nodes images name links]; try assumption.
  - intros c Hc.
    rewrite links_into_relink_other
      by (apply same_socket_other_node; cbn [sock_node]; congruence).
    rewrite links_into_relink_other
      by (apply same_socket_other_node; cbn [sock_node]; congruence).
    now apply F1.
  - apply drives_relink_index; [|cbn [sock_index]; lia].
    exact (drives_new h s1 _ _ _ _ _ _ _ _ (T1 _ _ Ttex) (T1 _ _ Tm) HT H0).
  - exact (drives_new h s2 _ _ _ _ _ _ _ _ (T1 _ _ Tw) (T1 _ _ Tm) HW H2).
  - intros o Ho. apply drives_relink_index; [|cbn [sock_index]; lia].
    apply drives_relink_index; [|cbn [sock_index]; lia]. now apply D1.
Qed.

(** The Color output of a mix node takes over the Base Color input of the
    principled node. *)
Lemma runs_connect_base (s : scene) (m pn : nat) (Q : unit -> scene -> Prop) :
  colour_sockets h -> principled_node p = Some pn ->
  has_type s m "MIX_RGB" = true -> has_type s pn "BSDF_PRINCIPLED" = true ->
  (forall s', nodes s' = nodes s -> images s' = images s -> name s' = name s ->
              (forall c, sock_node c <> pn ->
                         links_into c (links s') = links_into c (links s)) ->
              drives h s' m (ByName "Color") pn (ByName "Base Color") ->
              Q tt s') ->
  runs (connect (outputs h m (ByName "Color"))
                (q <- principled p ;; inputs h q (ByName "Base Color"))) s Q.
Proof.
  intros Hh Hpn Tm Tpn HQ.
  destruct (resolve_name m _ _ (cs_mix_color h Hh)) as [iC HC].
  destruct (resolve_name pn _ _ (cs_base_color h Hh)) as [iB HB].
  eapply runs_connect;
    [exact (outputs_ok h s _ _ _ _ Tm HC)
    | exact (principled_inputs_ok h p s _ _ _ _ Hpn Tpn HB) |].
  apply HQ; cbn [with_links nodes images name links]; try reflexivity.
  - intros c Hc. apply links_into_relink_other, same_socket_other_node.
    cbn [sock_node]. congruence.
  - exact (drives_new h s _ _ _ _ _ _ _ _ Tm Tpn HC HB).
Qed.

End ColourRules.

Section SecondAlb.

Variable h : host.
Variable p : processor.
Hypothesis sockets_ok : colour_sockets h.

Lemma has_type_app (s s' : scene) (extra : list node) (n : nat) (ty : string) :
  nodes s' = nodes s ++ extra -> has_type s n ty = true -> has_type s' n ty = true.
Proof.
  intros Hn. rewrite !has_type_iff. intros (nd & Hnd & Hty). exists nd.
  split; [|exact Hty]. rewrite Hn. now apply lookup_app_l_Some.
Qed.

Lemma drives_frame (s s' : scene) (a b : nat) (ka kb : key) :
  drives h s a ka b kb ->
  (forall n ty, has_type s n ty = true -> has_type s' n ty = true) ->
  (forall c, sock_node c = b -> links_into c (links s') = links_into c (links s)) ->
  drives h s' a ka b kb.
Proof.
  intros Hd Hty Hl. apply (drives_carry h s s' a b ka kb Hd Hty). intros c Hc _. now apply Hl.
Qed.

(** The white node of the [_mai] block: the one the [_tcl] block made, or a
    new one. *)
Lemma runs_white_choice (s : scene) (wopt : option nat)
    (place : float * float -> float * float) (pn : nat) (pnd : node)
    (Q : nat -> scene -> Prop) :
  principled_node p = Some pn -> nodes s !! pn = Some pnd ->
  (forall w, wopt = Some w -> has_type s w "RGB" = true) ->
  (forall s' w,
     w = match wopt with Some w => w | None => length (nodes s) end ->
     has_type s' w "RGB" = true ->
     links s' = links s -> images s' = images s -> name s' = name s ->
     nodes s' = nodes s ++ match wopt with
                           | Some _ => []
                           | None => [white_node_at (place (location pnd))]
                           end ->
     Q w s') ->
  runs (match wopt with
        | Some w => ret w
        | None => new_white_node h p place
        end) s Q.
Proof.
  intros Hpn Hpnd Hw HQ. destruct wopt as [w|].
  - apply runs_ret. apply HQ; try reflexivity; [now apply Hw | now rewrite app_nil_r].
  - eapply (runs_new_white_node_at h p s place s []);
      [apply grows_refl | exact Hpn | exact Hpnd | apply (cs_rgb_output h sockets_ok) |].
    intros s' G L N _. cbn [app length] in G, N |- *.
    pose proof (grows_single s s' "RGB" _ G N) as Hnodes.
    destruct G as (Hname & Himg & _).
    rewrite Nat.add_0_r in *.
    apply HQ; try assumption; [reflexivity|].
    apply has_type_iff. eexists. split; [exact N | reflexivity].
Qed.

Lemma tcl_mix_runs (s1 : scene) (orig : option nat) (tcl pn : nat) (pnd : node) :
  principled_node p = Some pn -> nodes s1 !! pn = Some pnd ->
  type pnd = "BSDF_PRINCIPLED" ->
  has_type s1 tcl "TEX_IMAGE" = true ->
  (forall o, orig = Some o ->
             exists ty, has_type s1 o ty = true /\ In "Color" (sockets_out h ty)) ->
  runs (tcl_mix h p orig tcl) s1
    (fun r s' =>
       r = (Some (length (nodes s1)), Some (length (nodes s1) + 1)) /\
       nodes s' = nodes s1 ++ [tcl_mix_node; white_node_at (above (location pnd))] /\
       images s' = images s1 /\ name s' = name s1 /\
       (forall c, sock_node c <> pn -> sock_node c <> length (nodes s1) ->
                  links_into c (links s') = links_into c (links s1)) /\
       drives h s' (length (nodes s1)) (ByName "Color") pn (ByName "Base Color") /\
       drives h s' tcl (ByName "Color") (length (nodes s1)) (ByIndex 0) /\
       drives h s' (length (nodes s1) + 1) (ByIndex 0) (length (nodes s1)) (ByIndex 2) /\
       (forall o, orig = Some o ->
                  drives h s' o (ByName "Color") (length (nodes s1)) (ByIndex 1))).
Proof.
  intros Hpn Hpnd Tpnd Ttcl Horig. unfold tcl_mix.
  assert (has_type s1 pn "BSDF_PRINCIPLED" = true) as Tpn by (apply has_type_iff; eauto).
  rewrite <- (Nat.add_0_r (length (nodes s1))).
  rewrite <- (Nat.add_assoc (length (nodes s1)) 0 1). cbn [Nat.add].
  set (mix := length (nodes s1) + 0).
  apply runs_bind. apply (runs_nodes_new_at s1 ShaderNodeMixRGB s1 []); [apply grows_refl|].
  intros s2 G2 L2 N2 _. cbn [app length type_of_class] in G2, N2 |- *. fold mix in N2 |- *.
  apply runs_bind. unfold set_blend_type.
  eapply (runs_update_node_at s1 0); [exact G2 | reflexivity | reflexivity | exact N2 |].
  intros s3 G3 L3 N3 _. fold mix in N3.
  apply runs_bind.
  eapply (runs_new_white_node_at h p s1 above s3 ["MIX_RGB"]);
    [exact G3 | exact Hpn | exact Hpnd | apply (cs_rgb_output h sockets_ok) |].
  intros s4 G4 L4 N4 K4. cbn [app length] in G4, N4 |- *.
  pose proof (K4 _ _ N3) as M4.
  assert (has_type s4 mix "MIX_RGB" = true) as Tm4 by new_type G4.
  assert (has_type s4 pn "BSDF_PRINCIPLED" = true) as Tp4 by old_type G4 Tpn.
  assert (mix <> pn) as Hne
    by (eapply has_type_neq; [exact Tm4 | exact Tp4 | discriminate]).
  apply (runs_mix_inputs h s4 orig tcl mix (length (nodes s1) + 1));
    [exact sockets_ok | old_type G4 Ttcl | exact Tm4 | new_type G4 | |].
  { intros o Ho. destruct (Horig o Ho) as (ty & To & Hc). exists ty.
    split; [old_type G4 To | exact Hc]. }
  intros s5 N5 I5 M5 F5 Dtex Dw Dorig. cbv beta.
  assert (forall n ty, has_type s4 n ty = true -> has_type s5 n ty = true) as T5
    by (intros n ty Hn; now rewrite (has_type_same_nodes s4 s5 n ty N5)).
  apply runs_bind.
  apply (runs_connect_base h p s5 mix pn);
    [exact sockets_ok | exact Hpn | exact (T5 _ _ Tm4) | exact (T5 _ _ Tp4) |].
  intros s6 N6 I6 M6 F6 Dbase.
  assert (forall n ty, has_type s5 n ty = true -> has_type s6 n ty = true) as T6
    by (intros n ty Hn; now rewrite (has_type_same_nodes s5 s6 n ty N6)).
  assert (forall c, sock_node c = mix -> links_into c (links s6) = links_into c (links s5))
    as Fmix by (intros c Hc; apply F6; congruence).
  apply runs_ret. split; [reflexivity|].
  split; [rewrite N6, N5; eapply grows_pair; [exact G4 | exact M4 | exact N4]|].
  destruct G4 as (Hname & Himg & _).
  split; [congruence|]. split; [congruence|].
  split; [|split; [exact Dbase|split; [|split]]].
  - intros c Hc1 Hc2. rewrite F6 by exact Hc1. rewrite F5 by exact Hc2. congruence.
  - exact (drives_frame _ _ _ _ _ _ Dtex T6 Fmix).
  - exact (drives_frame _ _ _ _ _ _ Dw T6 Fmix).
  - intros o Ho. exact (drives_frame _ _ _ _ _ _ (Dorig o Ho) T6 Fmix).
Qed.

Lemma mai_multiply_runs (s3 : scene) (orig wopt : option nat) (mai pn : nat) (pnd : node) :
  principled_node p = Some pn -> nodes s3 !! pn = Some pnd ->
  type pnd = "BSDF_PRINCIPLED" ->
  has_type s3 mai "TEX_IMAGE" = true ->
  (forall o, orig = Some o ->
             exists ty, has_type s3 o ty = true /\ In "Color" (sockets_out h ty)) ->
  (forall w, wopt = Some w -> has_type s3 w "RGB" = true) ->
  runs (mai_multiply h p (orig, wopt) mai) s3
    (fun _ s' =>
       exists fac,
         inputs h (length (nodes s3)) (ByName "Fac") s' = (Ok fac, s') /\
         nodes s' = nodes s3 ++ multiply_node (sock_index fac)
                      :: match wopt with
                         | Some _ => []
                         | None => [white_node_at (above_right 200 (location pnd))]
                         end /\
         images s' = images s3 /\ name s' = name s3 /\
         (forall c, sock_node c <> pn -> sock_node c <> length (nodes s3) ->
                    links_into c (links s') = links_into c (links s3)) /\
         drives h s' (length (nodes s3)) (ByName "Color") pn (ByName "Base Color") /\
         drives h s' mai (ByName "Color") (length (nodes s3)) (ByIndex 0) /\
         drives h s' (match wopt with Some w => w | None => length (nodes s3) + 1 end)
           (ByIndex 0) (length (nodes s3)) (ByIndex 2) /\
         (forall o, orig = Some o ->
                    drives h s' o (ByName "Color") (length (nodes s3)) (ByIndex 1))).
Proof.
  intros Hpn Hpnd Tpnd Tmai Horig Hw. unfold mai_multiply. cbn [fst snd].
  assert (has_type s3 pn "BSDF_PRINCIPLED" = true) as Tpn by (apply has_type_iff; eauto).
  rewrite <- (Nat.add_0_r (length (nodes s3))).
  rewrite <- (Nat.add_assoc (length (nodes s3)) 0 1). cbn [Nat.add].
  set (mul := length (nodes s3) + 0).
  apply runs_bind. apply (runs_nodes_new_at s3 ShaderNodeMixRGB s3 []); [apply grows_refl|].
  intros s4 G4 L4 N4 _. cbn [app length type_of_class] in G4, N4 |- *. fold mul in N4 |- *.
  apply runs_bind. unfold set_blend_type.
  eapply (runs_update_node_at s3 0); [exact G4 | reflexivity | reflexivity | exact N4 |].
  intros s5 G5 L5 N5 _. fold mul in N5.
  destruct (resolve_name mul _ _ (cs_mix_fac h sockets_ok)) as [iFac HFac].
  apply runs_bind. eapply runs_inputs; [new_type G5 | exact HFac |].
  apply runs_bind. unfold set_in_default. cbn [sock_node].
  eapply (runs_update_node_at s3 0); [exact G5 | reflexivity | reflexivity | exact N5 |].
  intros s6 G6 L6 N6 _. fold mul in N6. cbn [sock_index] in N6.
  pose proof (grows_single s3 s6 "MIX_RGB" _ G6 N6) as Hn6.
  assert (length (nodes s6) = length (nodes s3) + 1) as Hlen6
    by (rewrite Hn6, length_app; reflexivity).
  assert (has_type s6 mul "MIX_RGB" = true) as Tm6 by new_type G6.
  assert (has_type s6 pn "BSDF_PRINCIPLED" = true) as Tp6 by old_type G6 Tpn.
  assert (mul <> pn) as Hne
    by (eapply has_type_neq; [exact Tm6 | exact Tp6 | discriminate]).
  apply runs_bind.
  apply (runs_white_choice s6 wopt (above_right 200) pn pnd);
    [exact Hpn | exact (grows_old _ _ _ _ _ G6 Hpnd)
    | intros w Hwo; old_type G6 (Hw w Hwo) |].
  intros s7 w Ew Tw L7 I7 M7 N7.
  assert (forall n ty, has_type s6 n ty = true -> has_type s7 n ty = true) as T7
    by (intros n ty; apply (has_type_app s6 s7 _ n ty N7)).
  apply (runs_mix_inputs h s7 orig mai mul w);
    [exact sockets_ok | apply T7; old_type G6 Tmai | exact (T7 _ _ Tm6) | exact Tw | |].
  { intros o Ho. destruct (Horig o Ho) as (ty & To & Hc). exists ty.
    split; [apply T7; old_type G6 To | exact Hc]. }
  intros s8 N8 I8 M8 F8 Dtex Dw Dorig. cbv beta.
  assert (forall n ty, has_type s7 n ty = true -> has_type s8 n ty = true) as T8
    by (intros n ty Hn; now rewrite (has_type_same_nodes s7 s8 n ty N8)).
  apply (runs_connect_base h p s8 mul pn);
    [exact sockets_ok | exact Hpn | exact (T8 _ _ (T7 _ _ Tm6))
    | exact (T8 _ _ (T7 _ _ Tp6)) |].
  intros s9 N9 I9 M9 F9 Dbase.
  assert (forall n ty, has_type s8 n ty = true -> has_type s9 n ty = true) as T9
    by (intros n ty Hn; now rewrite (has_type_same_nodes s8 s9 n ty N9)).
  assert (forall c, sock_node c = mul -> links_into c (links s9) = links_into c (links s8))
    as Fmul by (intros c Hc; apply F9; congruence).
  exists (Socket mul iFac "Fac").
  split; [exact (inputs_ok h s9 _ _ _ _ (T9 _ _ (T8 _ _ (T7 _ _ Tm6))) HFac)|].
  split; [rewrite N9, N8, N7, Hn6, <- app_assoc; reflexivity|].
  destruct G6 as (Hname & Himg & _).
  split; [congruence|]. split; [congruence|].
  split; [|split; [exact Dbase|split; [|split]]].
  - intros c Hc1 Hc2. rewrite F9 by exact Hc1. rewrite F8 by exact Hc2. congruence.
  - exact (drives_frame _ _ _ _ _ _ Dtex T9 Fmul).
  - replace (match wopt with Some w0 => w0 | None => length (nodes s3) + 1 end) with w
      by (rewrite Ew; destruct wopt; [reflexivity | exact Hlen6]).
    exact (drives_frame _ _ _ _ _ _ Dw T9 Fmul).
  - intros o Ho. exact (drives_frame _ _ _ _ _ _ (Dorig o Ho) T9 Fmul).
Qed.

End SecondAlb.

Section SecondAlbSetup.

Variable h : host.
Variable p : processor.

Lemma colour_source_has_color (sc : scene) (pn : nat) (bc : socket) :
  source_has_color h sc pn (ByName "Base Color") ->
  inputs h pn (ByName "Base Color") sc = (Ok bc, sc) ->
  forall o, colour_source bc sc = Some o ->
            exists ty, has_type sc o ty = true /\ In "Color" (sockets_out h ty).
Proof.
  intros Hbase Hin o. unfold colour_source.
  destruct (links_into bc (links sc)) as [|l ls] eqn:Hl; [discriminate|].
  intros [= <-]. exact (Hbase bc l ls Hin Hl).
Qed.

Lemma with_texture_length (path : string) (nc : bool) (sc : scene) :
  length (nodes (with_texture h path nc sc)) = length (nodes sc) + 1.
Proof. cbn [with_texture nodes]. now rewrite length_app. Qed.

Lemma with_texture_old (path : string) (nc : bool) (sc : scene) (n : nat) (nd : node) :
  nodes sc !! n = Some nd -> nodes (with_texture h path nc sc) !! n = Some nd.
Proof. intros Hn. cbn [with_texture nodes]. now apply lookup_app_l_Some. Qed.

(** The opening of [import_second_alb], up to the first import. *)
Lemma second_alb_opening {B} (sc : scene) (pn : nat) (bc : socket)
    (k : nat -> socket -> scene -> M B) (Q : B -> scene -> Prop) :
  principled_node p = Some pn ->
  inputs h pn (ByName "Base Color") sc = (Ok bc, sc) ->
  runs (k pn bc sc) sc Q ->
  runs (pn <- principled p ;;
        base_color_input <- inputs h pn (ByName "Base Color") ;;
        sc <- get ;; k pn base_color_input sc) sc Q.
Proof.
  intros Hpn Hin Hk.
  apply runs_bind. eapply runs_eq; [unfold principled; rewrite Hpn; reflexivity|].
  apply runs_bind. eapply runs_eq; [exact Hin|].
  apply runs_bind. eapply runs_eq; [reflexivity|]. exact Hk.
Qed.

End SecondAlbSetup.

(** X18: with a principled node that has a Base Color input and neither a
    [_tcl] nor a [_mai] file to find, [import_second_alb] returns normally
    and leaves the scene as it was. *)
Theorem import_second_alb_no_textures
    (h : host) (p : processor) (sc : scene) (pn : nat) :
  principled_node p = Some pn ->
  has_type sc pn "BSDF_PRINCIPLED" = true ->
  In "Base Color" (sockets_in h "BSDF_PRINCIPLED") ->
  texture_absent h p "_tcl" ->
  texture_absent h p "_mai" ->
  import_second_alb h p sc = (Ok tt, sc).
Proof.
  intros Hpn Tpn Hbc Atcl Amai.
  apply texture_absent_iff in Atcl, Amai.
  destruct (resolve_name pn _ _ Hbc) as [iBC HBC].
  enough (runs (import_second_alb h p) sc (fun _ sc' => sc' = sc))
    as ([] & sc' & Hrun & ->) by exact Hrun.
  rewrite import_second_alb_blocks.
  apply (second_alb_opening h p sc pn (Socket pn iBC "Base Color"));
    [exact Hpn | exact (inputs_ok h sc _ _ _ _ Tpn HBC) |].
  apply runs_bind. eapply runs_eq; [apply import_texture_none; exact Atcl|].
  apply runs_bind. apply runs_ret.
  apply runs_bind. eapply runs_eq; [apply import_texture_none; exact Amai|].
  now apply runs_ret.
Qed.

(** X18 on [Sample.with_albedo] with an empty texture directory. *)
Lemma import_second_alb_no_textures_witness :
  texture_absent (Sample.the_host (Some []))
    (init (Sample.the_host (Some [])) Sample.with_albedo "/tex") "_tcl" /\
  texture_absent (Sample.the_host (Some []))
    (init (Sample.the_host (Some [])) Sample.with_albedo "/tex") "_mai" /\
  import_second_alb (Sample.the_host (Some []))
    (init (Sample.the_host (Some [])) Sample.with_albedo "/tex") Sample.with_albedo
  = (Ok tt, Sample.with_albedo).
Proof.
  assert (forall sfx, texture_absent (Sample.the_host (Some []))
            (init (Sample.the_host (Some [])) Sample.with_albedo "/tex") sfx) as Habs
    by (intros sfx; apply texture_absent_iff; reflexivity).
  split; [apply Habs|]. split; [apply Habs|].
  apply (import_second_alb_no_textures (Sample.the_host (Some []))
           (init (Sample.the_host (Some [])) Sample.with_albedo "/tex")
           Sample.with_albedo 0 eq_refl eq_refl);
    [cbn; auto | apply Habs | apply Habs].
Defined.

(** X19: with a [_tcl] file and no [_mai] file, [import_second_alb]
    appends three nodes: the texture, a MIX node and a white RGB node set
    200 above the principled node.  The MIX node takes over the Base Color
    input; its first input is fed by the texture, its third by the white
    node, and its second by the node that fed Base Color before, when there
    was one. *)
Theorem import_second_alb_tcl_only
    (h : host) (p : processor) (sc : scene) (pn : nat) (pnd : node) :
  colour_sockets h ->
  principled_node p = Some pn ->
  nodes sc !! pn = Some pnd ->
  type pnd = "BSDF_PRINCIPLED" ->
  source_has_color h sc pn (ByName "Base Color") ->
  ~ texture_absent h p "_tcl" ->
  texture_absent h p "_mai" ->
  exists sc',
    import_second_alb h p sc = (Ok tt, sc') /\
    nodes sc' = nodes sc ++ [texture_node (length (images sc)); tcl_mix_node;
                             white_node_at (above (location pnd))] /\
    drives h sc' (length (nodes sc) + 1) (ByName "Color") pn (ByName "Base Color") /\
    drives h sc' (length (nodes sc)) (ByName "Color") (length (nodes sc) + 1) (ByIndex 0) /\
    drives h sc' (length (nodes sc) + 2) (ByIndex 0) (length (nodes sc) + 1) (ByIndex 2) /\
    (forall bc o,
       inputs h pn (ByName "Base Color") sc = (Ok bc, sc) ->
       colour_source bc sc = Some o ->
       drives h sc' o (ByName "Color") (length (nodes sc) + 1) (ByIndex 1)).
Proof.
  intros Hh Hpn Hpnd Tpnd Hbase Ptcl Amai.
  destruct (present_resolves _ _ _ Ptcl) as (_ & ftcl & _ & _ & _ & Htcl).
  apply texture_absent_iff in Amai.
  assert (has_type sc pn "BSDF_PRINCIPLED" = true) as Tpn by (apply has_type_iff; eauto).
  destruct (resolve_name pn _ _ (cs_base_color h Hh)) as [iBC HBC].
  pose proof (inputs_ok h sc _ _ _ _ Tpn HBC) as Hin.
  pose proof (colour_source_has_color h sc pn _ Hbase Hin) as Horig.
  set (bc := Socket pn iBC "Base Color") in *.
  set (s1 := with_texture h (PyStr.path_join (file_path p) ftcl) true sc).
  pose proof (with_texture_length h (PyStr.path_join (file_path p) ftcl) true sc) as E1.
  fold s1 in E1.
  enough (runs (import_second_alb h p) sc
            (fun _ sc' =>
               nodes sc' = nodes s1 ++ [tcl_mix_node; white_node_at (above (location pnd))] /\
               drives h sc' (length (nodes s1)) (ByName "Color") pn (ByName "Base Color") /\
               drives h sc' (length (nodes sc)) (ByName "Color") (length (nodes s1))
                 (ByIndex 0) /\
               drives h sc' (length (nodes s1) + 1) (ByIndex 0) (length (nodes s1))
                 (ByIndex 2) /\
               forall o, colour_source bc sc = Some o ->
                         drives h sc' o (ByName "Color") (length (nodes s1)) (ByIndex 1)))
    as ([] & sc' & Hrun & Hnodes & D1 & D2 & D3 & D4).
  { exists sc'. rewrite E1 in D1, D2, D3, D4.
    replace (length (nodes sc) + 1 + 1) with (length (nodes sc) + 2) in D3 by lia.
    split; [exact Hrun|].
    split; [rewrite Hnodes; cbn [s1 with_texture nodes]; now rewrite <- app_assoc|].
    split; [exact D1|]. split; [exact D2|]. split; [exact D3|].
    intros bc' o Hbc' Ho. rewrite Hin in Hbc'. injection Hbc' as <-. now apply D4. }
  rewrite import_second_alb_blocks.
  apply (second_alb_opening h p sc pn bc); [exact Hpn | exact Hin |].
  apply runs_bind. eapply runs_eq; [apply import_texture_some; exact Htcl|]. fold s1.
  apply runs_bind. eapply runs_weaken.
  { apply (tcl_mix_runs h p Hh s1 (colour_source bc sc) (length (nodes sc)) pn pnd);
      [exact Hpn | now apply with_texture_old | exact Tpnd | apply has_type_new_texture |].
    intros o Ho. destruct (Horig o Ho) as (ty & To & Hc). exists ty.
    split; [now apply has_type_with_texture | exact Hc]. }
  intros r s2 (-> & Hnodes & _ & _ & _ & D1 & D2 & D3 & D4). cbn beta.
  apply runs_bind. eapply runs_eq; [apply import_texture_none; exact Amai|].
  apply runs_ret. auto.
Qed.

(** The colour source of the sample material has a Color output. *)
Lemma sample_source_has_color (files : option (list string)) :
  source_has_color (Sample.the_host files) Sample.with_albedo 0 (ByName "Base Color").
Proof.
  intros i l ls Hi Hl. vm_compute in Hi. injection Hi as <-.
  vm_compute in Hl. injection Hl as <- <-.
  exists "TEX_IMAGE". split; [reflexivity | cbn; auto].
Qed.

(** X19 on [Sample.with_albedo] with [Char_tcl.png] in the directory: the
    texture is node 2, the MIX node 3, the white node 4, and the albedo
    texture 1 moves to the second input of the MIX node. *)
Lemma import_second_alb_tcl_only_witness :
  colour_sockets (Sample.the_host (Some ["Char_tcl.png"])) /\
  source_has_color (Sample.the_host (Some ["Char_tcl.png"])) Sample.with_albedo 0
    (ByName "Base Color") /\
  ~ texture_absent (Sample.the_host (Some ["Char_tcl.png"]))
      (init (Sample.the_host (Some ["Char_tcl.png"])) Sample.with_albedo "/tex") "_tcl" /\
  texture_absent (Sample.the_host (Some ["Char_tcl.png"]))
      (init (Sample.the_host (Some ["Char_tcl.png"])) Sample.with_albedo "/tex") "_mai" /\
  exists sc',
    import_second_alb (Sample.the_host (Some ["Char_tcl.png"]))
      (init (Sample.the_host (Some ["Char_tcl.png"])) Sample.with_albedo "/tex")
      Sample.with_albedo = (Ok tt, sc') /\
    nodes sc' = nodes Sample.with_albedo ++
                  [texture_node 1; tcl_mix_node;
                   white_node_at (above (location (Sample.plain "BSDF_PRINCIPLED")))] /\
    drives (Sample.the_host (Some ["Char_tcl.png"])) sc'
      3 (ByName "Color") 0 (ByName "Base Color") /\
    drives (Sample.the_host (Some ["Char_tcl.png"])) sc'
      1 (ByName "Color") 3 (ByIndex 1).
Proof.
  assert (~ texture_absent (Sample.the_host (Some ["Char_tcl.png"]))
            (init (Sample.the_host (Some ["Char_tcl.png"])) Sample.with_albedo "/tex")
            "_tcl") as Ptcl
    by (intros Habs; apply texture_absent_iff in Habs; discriminate Habs).
  assert (texture_absent (Sample.the_host (Some ["Char_tcl.png"]))
            (init (Sample.the_host (Some ["Char_tcl.png"])) Sample.with_albedo "/tex")
            "_mai") as Amai
    by (apply texture_absent_iff; reflexivity).
  split; [apply sample_colour_sockets|]. split; [apply sample_source_has_color|].
  split; [exact Ptcl|]. split; [exact Amai|].
  destruct (import_second_alb_tcl_only (Sample.the_host (Some ["Char_tcl.png"]))
              (init (Sample.the_host (Some ["Char_tcl.png"])) Sample.with_albedo "/tex")
              Sample.with_albedo 0 (Sample.plain "BSDF_PRINCIPLED")
              (sample_colour_sockets _) eq_refl eq_refl eq_refl
              (sample_source_has_color _) Ptcl Amai)
    as (sc' & Hrun & Hnodes & Dbase & _ & _ & Dorig).
  exists sc'. split; [exact Hrun|]. split; [exact Hnodes|]. split; [exact Dbase|].
  apply (Dorig (Socket 0 0 "Base Color") 1); reflexivity.
Defined.

(** X20: with a [_mai] file and no [_tcl] file, [import_second_alb]
    appends three nodes: the texture, a MULTIPLY node with factor 1.0 and a
    white RGB node set 200 to the right of and 200 above the principled
    node.  The MULTIPLY node takes over the Base Color input; its first
    input is fed by the texture, its third by the white node, and its second
    by the node that fed Base Color before, when there was one. *)
Theorem import_second_alb_mai_only
    (h : host) (p : processor) (sc : scene) (pn : nat) (pnd : node) :
  colour_sockets h ->
  principled_node p = Some pn ->
  nodes sc !! pn = Some pnd ->
  type pnd = "BSDF_PRINCIPLED" ->
  source_has_color h sc pn (ByName "Base Color") ->
  texture_absent h p "_tcl" ->
  ~ texture_absent h p "_mai" ->
  exists sc' fac,
    import_second_alb h p sc = (Ok tt, sc') /\
    inputs h (length (nodes sc) + 1) (ByName "Fac") sc' = (Ok fac, sc') /\
    nodes sc' = nodes sc ++ [texture_node (length (images sc));
                             multiply_node (sock_index fac);
                             white_node_at (above_right 200 (location pnd))] /\
    drives h sc' (length (nodes sc) + 1) (ByName "Color") pn (ByName "Base Color") /\
    drives h sc' (length (nodes sc)) (ByName "Color") (length (nodes sc) + 1) (ByIndex 0) /\
    drives h sc' (length (nodes sc) + 2) (ByIndex 0) (length (nodes sc) + 1) (ByIndex 2) /\
    (forall bc o,
       inputs h pn (ByName "Base Color") sc = (Ok bc, sc) ->
       colour_source bc sc = Some o ->
       drives h sc' o (ByName "Color") (length (nodes sc) + 1) (ByIndex 1)).
Proof.
  intros Hh Hpn Hpnd Tpnd Hbase Atcl Pmai.
  destruct (present_resolves _ _ _ Pmai) as (_ & fmai & _ & _ & _ & Hmai).
  apply texture_absent_iff in Atcl.
  assert (has_type sc pn "BSDF_PRINCIPLED" = true) as Tpn by (apply has_type_iff; eauto).
  destruct (resolve_name pn _ _ (cs_base_color h Hh)) as [iBC HBC].
  pose proof (inputs_ok h sc _ _ _ _ Tpn HBC) as Hin.
  pose proof (colour_source_has_color h sc pn _ Hbase Hin) as Horig.
  set (bc := Socket pn iBC "Base Color") in *.
  set (s1 := with_texture h (PyStr.path_join (file_path p) fmai) true sc).
  pose proof (with_texture_length h (PyStr.path_join (file_path p) fmai) true sc) as E1.
  fold s1 in E1.
  enough (runs (import_second_alb h p) sc
            (fun _ sc' =>
               exists fac,
                 inputs h (length (nodes s1)) (ByName "Fac") sc' = (Ok fac, sc') /\
                 nodes sc' = nodes s1 ++ [multiply_node (sock_index fac);
                                          white_node_at (above_right 200 (location pnd))] /\
                 drives h sc' (length (nodes s1)) (ByName "Color") pn (ByName "Base Color") /\
                 drives h sc' (length (nodes sc)) (ByName "Color") (length (nodes s1))
                   (ByIndex 0) /\
                 drives h sc' (length (nodes s1) + 1) (ByIndex 0) (length (nodes s1))
                   (ByIndex 2) /\
                 forall o, colour_source bc sc = Some o ->
                           drives h sc' o (ByName "Color") (length (nodes s1)) (ByIndex 1)))
    as ([] & sc' & Hrun & fac & Hfac & Hnodes & D1 & D2 & D3 & D4).
  { exists sc', fac. rewrite E1 in Hfac, D1, D2, D3, D4.
    replace (length (nodes sc) + 1 + 1) with (length (nodes sc) + 2) in D3 by lia.
    split; [exact Hrun|]. split; [exact Hfac|].
    split; [rewrite Hnodes; cbn [s1 with_texture nodes]; now rewrite <- app_assoc|].
    split; [exact D1|]. split; [exact D2|]. split; [exact D3|].
    intros bc' o Hbc' Ho. rewrite Hin in Hbc'. injection Hbc' as <-. now apply D4. }
  rewrite import_second_alb_blocks.
  apply (second_alb_opening h p sc pn bc); [exact Hpn | exact Hin |].
  apply runs_bind. eapply runs_eq; [apply import_texture_none; exact Atcl|].
  apply runs_bind. apply runs_ret.
  apply runs_bind. eapply runs_eq; [apply import_texture_some; exact Hmai|]. fold s1.
  eapply runs_weaken.
  { apply (mai_multiply_runs h p Hh s1 (colour_source bc sc) None (length (nodes sc)) pn pnd);
      [exact Hpn | now apply with_texture_old | exact Tpnd | apply has_type_new_texture
      | | intros w [=]].
    intros o Ho. destruct (Horig o Ho) as (ty & To & Hc). exists ty.
    split; [now apply has_type_with_texture | exact Hc]. }
  intros u s2 (fac & Hfac & Hnodes & _ & _ & _ & D1 & D2 & D3 & D4). cbn beta.
  exists fac. auto 10.
Qed.

(** X20 on [Sample.with_albedo] with [Char_mai.png] in the directory. *)
Lemma import_second_alb_mai_only_witness :
  colour_sockets (Sample.the_host (Some ["Char_mai.png"])) /\
  source_has_color (Sample.the_host (Some ["Char_mai.png"])) Sample.with_albedo 0
    (ByName "Base Color") /\
  texture_absent (Sample.the_host (Some ["Char_mai.png"]))
      (init (Sample.the_host (Some ["Char_mai.png"])) Sample.with_albedo "/tex") "_tcl" /\
  ~ texture_absent (Sample.the_host (Some ["Char_mai.png"]))
      (init (Sample.the_host (Some ["Char_mai.png"])) Sample.with_albedo "/tex") "_mai" /\
  exists sc' fac,
    import_second_alb (Sample.the_host (Some ["Char_mai.png"]))
      (init (Sample.the_host (Some ["Char_mai.png"])) Sample.with_albedo "/tex")
      Sample.with_albedo = (Ok tt, sc') /\
    nodes sc' = nodes Sample.with_albedo ++
                  [texture_node 1; multiply_node (sock_index fac);
                   white_node_at
                     (above_right 200 (location (Sample.plain "BSDF_PRINCIPLED")))] /\
    drives (Sample.the_host (Some ["Char_mai.png"])) sc'
      3 (ByName "Color") 0 (ByName "Base Color") /\
    drives (Sample.the_host (Some ["Char_mai.png"])) sc'
      1 (ByName "Color") 3 (ByIndex 1).
Proof.
  assert (texture_absent (Sample.the_host (Some ["Char_mai.png"]))
            (init (Sample.the_host (Some ["Char_mai.png"])) Sample.with_albedo "/tex")
            "_tcl") as Atcl
    by (apply texture_absent_iff; reflexivity).
  assert (~ texture_absent (Sample.the_host (Some ["Char_mai.png"]))
            (init (Sample.the_host (Some ["Char_mai.png"])) Sample.with_albedo "/tex")
            "_mai") as Pmai
    by (intros Habs; apply texture_absent_iff in Habs; discriminate Habs).
  split; [apply sample_colour_sockets|]. split; [apply sample_source_has_color|].
  split; [exact Atcl|]. split; [exact Pmai|].
  destruct (import_second_alb_mai_only (Sample.the_host (Some ["Char_mai.png"]))
              (init (Sample.the_host (Some ["Char_mai.png"])) Sample.with_albedo "/tex")
              Sample.with_albedo 0 (Sample.plain "BSDF_PRINCIPLED")
              (sample_colour_sockets _) eq_refl eq_refl eq_refl
              (sample_source_has_color _) Atcl Pmai)
    as (sc' & fac & Hrun & _ & Hnodes & Dbase & _ & _ & Dorig).
  exists sc', fac. split; [exact Hrun|]. split; [exact Hnodes|]. split; [exact Dbase|].
  apply (Dorig (Socket 0 0 "Base Color") 1); reflexivity.
Defined.

(** X21: with both a [_tcl] and a [_mai] file, [import_second_alb] appends
    five nodes: the [_tcl] texture, the MIX node, one white RGB node set 200
    above the principled node, the [_mai] texture and the MULTIPLY node with
    factor 1.0.  The two mixes are chained and share the white node: the
    MULTIPLY node takes over the Base Color input, its second input is fed
    by the MIX node, and the third input of either is fed by the one white
    node; the node that fed Base Color before, when there was one, feeds the
    second input of the MIX node. *)
Theorem import_second_alb_tcl_and_mai
    (h : host) (p : processor) (sc : scene) (pn : nat) (pnd : node) :
  colour_sockets h ->
  principled_node p = Some pn ->
  nodes sc !! pn = Some pnd ->
  type pnd = "BSDF_PRINCIPLED" ->
  source_has_color h sc pn (ByName "Base Color") ->
  ~ texture_absent h p "_tcl" ->
  ~ texture_absent h p "_mai" ->
  exists sc' fac,
    import_second_alb h p sc = (Ok tt, sc') /\
    inputs h (length (nodes sc) + 4) (ByName "Fac") sc' = (Ok fac, sc') /\
    nodes sc' = nodes sc ++ [texture_node (length (images sc)); tcl_mix_node;
                             white_node_at (above (location pnd));
                             texture_node (length (images sc) + 1);
                             multiply_node (sock_index fac)] /\
    drives h sc' (length (nodes sc) + 4) (ByName "Color") pn (ByName "Base Color") /\
    drives h sc' (length (nodes sc) + 1) (ByName "Color") (length (nodes sc) + 4) (ByIndex 1) /\
    drives h sc' (length (nodes sc) + 3) (ByName "Color") (length (nodes sc) + 4) (ByIndex 0) /\
    drives h sc' (length (nodes sc) + 2) (ByIndex 0) (length (nodes sc) + 4) (ByIndex 2) /\
    drives h sc' (length (nodes sc)) (ByName "Color") (length (nodes sc) + 1) (ByIndex 0) /\
    drives h sc' (length (nodes sc) + 2) (ByIndex 0) (length (nodes sc) + 1) (ByIndex 2) /\
    (forall bc o,
       inputs h pn (ByName "Base Color") sc = (Ok bc, sc) ->
       colour_source bc sc = Some o ->
       drives h sc' o (ByName "Color") (length (nodes sc) + 1) (ByIndex 1)).
Proof.
  intros Hh Hpn Hpnd Tpnd Hbase Ptcl Pmai.
  destruct (present_resolves _ _ _ Ptcl) as (_ & ftcl & _ & _ & _ & Htcl).
  destruct (present_resolves _ _ _ Pmai) as (_ & fmai & _ & _ & _ & Hmai).
  assert (has_type sc pn "BSDF_PRINCIPLED" = true) as Tpn by (apply has_type_iff; eauto).
  pose proof (lookup_lt_Some _ _ _ Hpnd) as Hlt.
  destruct (resolve_name pn _ _ (cs_base_color h Hh)) as [iBC HBC].
  pose proof (inputs_ok h sc _ _ _ _ Tpn HBC) as Hin.
  pose proof (colour_source_has_color h sc pn _ Hbase Hin) as Horig.
  set (bc := Socket pn iBC "Base Color") in *.
  set (n := length (nodes sc)) in *.
  set (s1 := with_texture h (PyStr.path_join (file_path p) ftcl) true sc).
  pose proof (with_texture_length h (PyStr.path_join (file_path p) ftcl) true sc) as E1.
  fold s1 in E1. fold n in E1.
  enough (runs (import_second_alb h p) sc
            (fun _ sc' =>
               exists fac,
                 inputs h (n + 4) (ByName "Fac") sc' = (Ok fac, sc') /\
                 nodes sc' = nodes sc ++ [texture_node (length (images sc)); tcl_mix_node;
                                          white_node_at (above (location pnd));
                                          texture_node (length (images sc) + 1);
                                          multiply_node (sock_index fac)] /\
                 drives h sc' (n + 4) (ByName "Color") pn (ByName "Base Color") /\
                 drives h sc' (n + 1) (ByName "Color") (n + 4) (ByIndex 1) /\
                 drives h sc' (n + 3) (ByName "Color") (n + 4) (ByIndex 0) /\
                 drives h sc' (n + 2) (ByIndex 0) (n + 4) (ByIndex 2) /\
                 drives h sc' n (ByName "Color") (n + 1) (ByIndex 0) /\
                 drives h sc' (n + 2) (ByIndex 0) (n + 1) (ByIndex 2) /\
                 forall o, colour_source bc sc = Some o ->
                           drives h sc' o (ByName "Color") (n + 1) (ByIndex 1)))
    as ([] & sc' & Hrun & fac & Hfac & Hnodes & D1 & D2 & D3 & D4 & D5 & D6 & D7).
  { exists sc', fac. split; [exact Hrun|]. split; [exact Hfac|]. split; [exact Hnodes|].
    split; [exact D1|]. split; [exact D2|]. split; [exact D3|]. split; [exact D4|].
    split; [exact D5|]. split; [exact D6|].
    intros bc' o Hbc' Ho. rewrite Hin in Hbc'. injection Hbc' as <-. now apply D7. }
  rewrite import_second_alb_blocks.
  apply (second_alb_opening h p sc pn bc); [exact Hpn | exact Hin |].
  apply runs_bind. eapply runs_eq; [apply import_texture_some; exact Htcl|]. fold s1. fold n.
  apply runs_bind. eapply runs_weaken.
  { apply (tcl_mix_runs h p Hh s1 (colour_source bc sc) n pn pnd);
      [exact Hpn | now apply with_texture_old | exact Tpnd | apply has_type_new_texture |].
    intros o Ho. destruct (Horig o Ho) as (ty & To & Hc). exists ty.
    split; [now apply has_type_with_texture | exact Hc]. }
  intros r s2 (-> & N2 & I2 & _ & _ & _ & B2 & B3 & B4). cbn beta.
  rewrite E1 in B2, B3, B4 |- *.
  replace (n + 1 + 1) with (n + 2) in B3 |- * by lia.
  assert (length (nodes s2) = n + 3) as E2 by (rewrite N2, length_app, E1; cbn; lia).
  set (s3 := with_texture h (PyStr.path_join (file_path p) fmai) true s2).
  pose proof (with_texture_length h (PyStr.path_join (file_path p) fmai) true s2) as E3.
  fold s3 in E3. rewrite E2 in E3. replace (n + 3 + 1) with (n + 4) in E3 by lia.
  assert (has_type s2 (n + 1) "MIX_RGB" = true) as Tmix.
  { apply has_type_iff. exists tcl_mix_node. split; [|reflexivity].
    rewrite N2, lookup_app_r by lia. now replace (n + 1 - length (nodes s1)) with 0 by lia. }
  assert (has_type s2 (n + 2) "RGB" = true) as Tw.
  { apply has_type_iff. exists (white_node_at (above (location pnd))). split; [|reflexivity].
    rewrite N2, lookup_app_r by lia. now replace (n + 2 - length (nodes s1)) with 1 by lia. }
  apply runs_bind. eapply runs_eq; [apply import_texture_some; exact Hmai|].
  fold s3. rewrite E2.
  eapply runs_weaken.
  { apply (mai_multiply_runs h p Hh s3 (Some (n + 1)) (Some (n + 2)) (n + 3) pn pnd);
      [exact Hpn
      | apply with_texture_old; rewrite N2; apply lookup_app_l_Some;
        now apply with_texture_old
      | exact Tpnd
      | rewrite <- E2; apply has_type_new_texture
      | intros o [= <-]; exists "MIX_RGB";
        split; [now apply has_type_with_texture | apply (cs_mix_color h Hh)]
      | intros w [= <-]; now apply has_type_with_texture]. }
  intros u s4 (fac & Hfac & N4 & _ & _ & F4 & C1 & C2 & C3 & C4). cbn beta.
  rewrite E3 in Hfac, F4, C1, C2, C3, C4.
  assert (forall k ty, has_type s2 k ty = true -> has_type s4 k ty = true) as T4.
  { intros k ty Hk. eapply has_type_app; [exact N4|]. now apply has_type_with_texture. }
  assert (forall c, sock_node c = n + 1 ->
                    links_into c (links s4) = links_into c (links s2)) as Fmix
    by (intros c Hc; apply F4; lia).
  exists fac. split; [exact Hfac|]. split.
  { rewrite N4. cbn [s3 with_texture nodes]. rewrite N2. cbn [s1 with_texture nodes].
    rewrite I2. cbn [s1 with_texture images]. rewrite length_app. cbn [length].
    rewrite <- !app_assoc. reflexivity. }
  split; [exact C1|]. split; [exact (C4 _ eq_refl)|]. split; [exact C2|].
  split; [exact C3|].
  split; [exact (drives_frame h _ _ _ _ _ _ B2 T4 Fmix)|].
  split; [exact (drives_frame h _ _ _ _ _ _ B3 T4 Fmix)|].
  intros o Ho. exact (drives_frame h _ _ _ _ _ _ (B4 o Ho) T4 Fmix).
Qed.

(** X21 on [Sample.with_albedo] with both files in the directory: nodes 2
    to 6 are new, and the white node 4 feeds both mixes. *)
Lemma import_second_alb_tcl_and_mai_witness :
  colour_sockets (Sample.the_host (Some ["Char_tcl.png"; "Char_mai.png"])) /\
  source_has_color (Sample.the_host (Some ["Char_tcl.png"; "Char_mai.png"]))
    Sample.with_albedo 0 (ByName "Base Color") /\
  ~ texture_absent (Sample.the_host (Some ["Char_tcl.png"; "Char_mai.png"]))
      (init (Sample.the_host (Some ["Char_tcl.png"; "Char_mai.png"]))
         Sample.with_albedo "/tex") "_tcl" /\
  ~ texture_absent (Sample.the_host (Some ["Char_tcl.png"; "Char_mai.png"]))
      (init (Sample.the_host (Some ["Char_tcl.png"; "Char_mai.png"]))
         Sample.with_albedo "/tex") "_mai" /\
  exists sc',
    import_second_alb (Sample.the_host (Some ["Char_tcl.png"; "Char_mai.png"]))
      (init (Sample.the_host (Some ["Char_tcl.png"; "Char_mai.png"]))
         Sample.with_albedo "/tex")
      Sample.with_albedo = (Ok tt, sc') /\
    length (nodes sc') = 7 /\
    drives (Sample.the_host (Some ["Char_tcl.png"; "Char_mai.png"])) sc'
      6 (ByName "Color") 0 (ByName "Base Color") /\
    drives (Sample.the_host (Some ["Char_tcl.png"; "Char_mai.png"])) sc'
      3 (ByName "Color") 6 (ByIndex 1) /\
    drives (Sample.the_host (Some ["Char_tcl.png"; "Char_mai.png"])) sc'
      4 (ByIndex 0) 6 (ByIndex 2) /\
    drives (Sample.the_host (Some ["Char_tcl.png"; "Char_mai.png"])) sc'
      4 (ByIndex 0) 3 (ByIndex 2) /\
    drives (Sample.the_host (Some ["Char_tcl.png"; "Char_mai.png"])) sc'
      1 (ByName "Color") 3 (ByIndex 1).
Proof.
  assert (forall sfx, In sfx ["_tcl"; "_mai"] ->
            ~ texture_absent (Sample.the_host (Some ["Char_tcl.png"; "Char_mai.png"]))
                (init (Sample.the_host (Some ["Char_tcl.png"; "Char_mai.png"]))
                   Sample.with_albedo "/tex") sfx) as Hpresent.
  { intros sfx [<-|[<-|[]]] Habs; apply texture_absent_iff in Habs; discriminate Habs. }
  split; [apply sample_colour_sockets|]. split; [apply sample_source_has_color|].
  split; [apply Hpresent; now left|].
  split; [apply Hpresent; right; now left|].
  destruct (import_second_alb_tcl_and_mai
              (Sample.the_host (Some ["Char_tcl.png"; "Char_mai.png"]))
              (init (Sample.the_host (Some ["Char_tcl.png"; "Char_mai.png"]))
                 Sample.with_albedo "/tex")
              Sample.with_albedo 0 (Sample.plain "BSDF_PRINCIPLED")
              (sample_colour_sockets _) eq_refl eq_refl eq_refl
              (sample_source_has_color _)
              (Hpresent "_tcl" (or_introl eq_refl))
              (Hpresent "_mai" (or_intror (or_introl eq_refl))))
    as (sc' & fac & Hrun & _ & Hnodes & Dbase & Dchain & _ & Dw2 & _ & Dw1 & Dorig).
  exists sc'. split; [exact Hrun|]. split; [now rewrite Hnodes|].
  split; [exact Dbase|]. split; [exact Dchain|]. split; [exact Dw2|]. split; [exact Dw1|].
  apply (Dorig (Socket 0 0 "Base Color") 1); reflexivity.
Defined.

(** ** import_second_shader: the whole recipe *)

Section GrowSteps.

Variable h : host.








End GrowSteps.

Section NormalSearch.

Variable p : processor.






End NormalSearch.

Section ShaderRecipe.

Variable h : host.
Variable p : processor.
Hypothesis sockets_ok : shader_sockets h.




End ShaderRecipe.







(** ** Runs that end in an exception *)

Section Ends.

Context {A B : Type}.

Lemma ends_bind (c : M A) (k : A -> M B) (s : scene) (Q : result B -> scene -> Prop) :
  runs c s (fun a s' => ends (k a) s' Q) -> ends (bind c k) s Q.
Proof.
  intros (a & s' & Hc & Hk). unfold ends. now rewrite (bind_ok _ _ _ _ _ Hc).
Qed.

Lemma ends_bind_raise (c : M A) (k : A -> M B) (s s' : scene) (e : exn)
    (Q : result B -> scene -> Prop) :
  c s = (Raise e, s') -> Q (Raise e) s' -> ends (bind c k) s Q.
Proof. intros Hc HQ. unfold ends. now rewrite (bind_raise _ _ _ _ _ Hc). Qed.

Lemma ends_bind_ends (c : M A) (k : A -> M B) (s : scene) (Q : result B -> scene -> Prop) :
  ends c s (fun r s' => match r with
                        | Ok a => ends (k a) s' Q
                        | Raise e => Q (Raise e) s'
                        end) ->
  ends (bind c k) s Q.
Proof.
  unfold ends, bind. destruct (c s) as [[a|e] s']; cbn [fst snd]; auto.
Qed.

End Ends.

(** Lines 121-122: the colour source is asked for its Color output before
    any link of the block is made. *)
Lemma tcl_mix_key_error (h : host) (p : processor) (s1 : scene) (o tcl pn : nat)
    (pnd : node) (ty : string) :
  1 <= length (sockets_out h "RGB") ->
  principled_node p = Some pn -> nodes s1 !! pn = Some pnd ->
  has_type s1 o ty = true -> ~ In "Color" (sockets_out h ty) ->
  ends (tcl_mix h p (Some o) tcl) s1
    (fun r s' =>
       r = Raise KeyError /\
       nodes s' = nodes s1 ++ [tcl_mix_node; white_node_at (above (location pnd))] /\
       links s' = links s1 /\ images s' = images s1).
Proof.
  intros Hrgb Hpn Hpnd To Hno. unfold tcl_mix.
  apply ends_bind. apply (runs_nodes_new_at s1 ShaderNodeMixRGB s1 []); [apply grows_refl|].
  intros s2 G2 L2 N2 _. cbn [app length type_of_class] in G2, N2 |- *.
  apply ends_bind. unfold set_blend_type.
  eapply (runs_update_node_at s1 0); [exact G2 | reflexivity | reflexivity | exact N2 |].
  intros s3 G3 L3 N3 _.
  apply ends_bind.
  eapply (runs_new_white_node_at h p s1 above s3 ["MIX_RGB"]);
    [exact G3 | exact Hpn | exact Hpnd | exact Hrgb |].
  intros s4 G4 L4 N4 K4. cbn [app length] in G4, N4 |- *.
  pose proof (K4 _ _ N3) as M4.
  eapply ends_bind_raise.
  { unfold connect. apply bind_raise.
    rewrite (outputs_typed h s4 o ty _ (grows_has_type _ _ _ _ _ G4 To)).
    now rewrite (resolve_absent o _ "Color" Hno). }
  split; [reflexivity|].
  split; [eapply grows_pair; [exact G4 | exact M4 | exact N4]|].
  destruct G4 as (_ & Himg & _). split; congruence.
Qed.

(** X23: [import_second_alb] is not all-or-nothing.  When a [_tcl] file is
    found and the node that feeds Base Color has no Color output, the call
    raises KeyError after the texture, the MIX node and the white node were
    added: they stay in the tree, no link was made or replaced, and Base
    Color is fed as before. *)
Theorem import_second_alb_source_without_color
    (h : host) (p : processor) (sc : scene) (pn : nat) (pnd : node)
    (bc : socket) (l : link) (ls : list link) (ty : string) :
  1 <= length (sockets_out h "RGB") ->
  principled_node p = Some pn ->
  nodes sc !! pn = Some pnd ->
  inputs h pn (ByName "Base Color") sc = (Ok bc, sc) ->
  links_into bc (links sc) = l :: ls ->
  has_type sc (from_node l) ty = true ->
  ~ In "Color" (sockets_out h ty) ->
  ~ texture_absent h p "_tcl" ->
  exists sc',
    import_second_alb h p sc = (Raise KeyError, sc') /\
    nodes sc' = nodes sc ++ [texture_node (length (images sc)); tcl_mix_node;
                             white_node_at (above (location pnd))] /\
    links sc' = links sc /\
    length (images sc') = length (images sc) + 1.
Proof.
  intros Hrgb Hpn Hpnd Hin Hl To Hno Ptcl.
  destruct (present_resolves _ _ _ Ptcl) as (_ & ftcl & _ & _ & _ & Htcl).
  set (s1 := with_texture h (PyStr.path_join (file_path p) ftcl) true sc).
  enough (ends (import_second_alb h p) sc
            (fun r sc' =>
               r = Raise KeyError /\
               nodes sc' = nodes s1 ++ [tcl_mix_node; white_node_at (above (location pnd))] /\
               links sc' = links s1 /\ images sc' = images s1))
    as (Hr & Hnodes & Hlinks & Himg).
  { exists (snd (import_second_alb h p sc)).
    split; [rewrite <- Hr; apply surjective_pairing|].
    split; [rewrite Hnodes; cbn [s1 with_texture nodes]; now rewrite <- app_assoc|].
    split; [exact Hlinks|].
    rewrite Himg. cbn [s1 with_texture images]. now rewrite length_app. }
  rewrite import_second_alb_blocks.
  apply ends_bind. eapply runs_eq; [unfold principled; rewrite Hpn; reflexivity|].
  apply ends_bind. eapply runs_eq; [exact Hin|].
  apply ends_bind. eapply runs_eq; [reflexivity|].
  apply ends_bind. eapply runs_eq; [apply import_texture_some; exact Htcl|]. fold s1.
  unfold colour_source. rewrite Hl.
  apply ends_bind_ends.
  pose proof (tcl_mix_key_error h p s1 (from_node l) (length (nodes sc)) pn pnd ty Hrgb Hpn
                (with_texture_old h _ _ _ _ _ Hpnd)
                (has_type_with_texture h _ _ _ _ _ To) Hno) as Hmix.
  unfold ends in Hmix |- *. destruct Hmix as (Hr & Hrest). rewrite Hr. split; [reflexivity | exact Hrest].
Qed.

(** X23 on [Sample2.odd_source], whose Base Color is fed by a normal-map
    node, with [Char_tcl.png] in the directory. *)
Lemma import_second_alb_source_without_color_witness :
  ~ texture_absent (Sample.the_host (Some ["Char_tcl.png"]))
      (init (Sample.the_host (Some ["Char_tcl.png"])) Sample2.odd_source "/tex") "_tcl" /\
  exists sc',
    import_second_alb (Sample.the_host (Some ["Char_tcl.png"]))
      (init (Sample.the_host (Some ["Char_tcl.png"])) Sample2.odd_source "/tex")
      Sample2.odd_source = (Raise KeyError, sc') /\
    length (nodes sc') = 5 /\
    links sc' = links Sample2.odd_source.
Proof.
  assert (~ texture_absent (Sample.the_host (Some ["Char_tcl.png"]))
            (init (Sample.the_host (Some ["Char_tcl.png"])) Sample2.odd_source "/tex")
            "_tcl") as Ptcl
    by (intros Habs; apply texture_absent_iff in Habs; discriminate Habs).
  assert (~ In "Color" (sockets_out (Sample.the_host (Some ["Char_tcl.png"])) "NORMAL_MAP"))
    as Hno by (cbn; intros [H|[]]; discriminate H).
  split; [exact Ptcl|].
  destruct (import_second_alb_source_without_color
              (Sample.the_host (Some ["Char_tcl.png"]))
              (init (Sample.the_host (Some ["Char_tcl.png"])) Sample2.odd_source "/tex")
              Sample2.odd_source 0 (Sample.plain "BSDF_PRINCIPLED")
              (Socket 0 0 "Base Color")
              (Link (Socket 1 0 "Normal") (Socket 0 0 "Base Color")) [] "NORMAL_MAP"
              (le_n 1) eq_refl eq_refl eq_refl eq_refl eq_refl
              Hno Ptcl)
    as (sc' & Hrun & Hnodes & Hlinks & _).
  exists sc'. split; [exact Hrun|]. split; [now rewrite Hnodes | exact Hlinks].
Defined.
